(** * ChristmasTree: the particle and instance animation engine of [main.js]

    A shallow embedding of the parts of [src/main.js] that carry state or
    arithmetic: the assembly animation driven by [uProgress], the firework
    pool of [updateFireworks], the hover highlight of [animate], the
    population loops of the instanced meshes, the vertex displacement
    injected by [injectExplosionShader], the random offsets, the outline
    of the star, the snow, the lights and the control panel.

    Numbers.  A JavaScript number is idealised as an exact number: a
    rational ([Q]) in the state machines, which only add, subtract,
    multiply and compare, so that they run inside Rocq; a real ([R]) in the
    sampler and the shader, which call [cos], [sin] and [pow].  Rounding of
    IEEE doubles and of [Float32Array] stores is not modelled.

    Randomness.  [Math.random()] is a stream of draws with a cursor; what
    is proved about a draw only uses that it lies in [[0, 1)].  The stream
    is that of the numbers the calls of the script receive: what the
    library draws for itself inside its constructors is not counted. *)

From Stdlib Require Import QArith Qround Qpower Qreals Reals Psatz.
From stdpp Require Import list.

(** ** Shared helpers *)

(** [n] rounds of a per-frame function, oldest frame innermost. *)
Fixpoint frames {St : Type} (step : St -> St) (n : nat) (s : St) : St :=
  match n with
  | O => s
  | S k => step (frames step k s)
  end.

(** ** Arrays *)

(** [arr[i]] for a number [i] that holds an integer: [undefined] ([None])
    below 0 and from [arr.length] on. *)
Definition index {A : Type} (arr : list A) (i : Z) : option A :=
  if (i <? 0)%Z then None else arr !! Z.to_nat i.

(** ** [Math.random] and the loops that draw from it *)

Module Random.

(** [Math.random()] as a stream of draws and the number drawn so far,
    over the numbers [num]. *)
Record Rng (num : Type) : Type := mkRng { draws : nat -> num; cursor : nat }.
Arguments mkRng {num} _ _.
Arguments draws {num} _ _.
Arguments cursor {num} _.

(** A computation that only draws random numbers. *)
Definition G (num A : Type) : Type := Rng num -> A * Rng num.

Definition retG {num A : Type} (a : A) : G num A := fun g => (a, g).

Definition bindG {num A B : Type} (c : G num A) (k : A -> G num B)
  : G num B :=
  fun g => let '(a, g') := c g in k a g'.

Declare Scope G_scope.
Delimit Scope G_scope with G.
Notation "x <- c ;; k" := (bindG c (fun x => k))
  (at level 90, c at next level, right associativity) : G_scope.

(** [Math.random()]. *)
Definition random {num : Type} : G num num :=
  fun g => (draws g (cursor g), mkRng (draws g) (S (cursor g))).

(** [for (let i = 0; i < n; i++) body]: [for_up n body acc] runs [body] at
    [0], ..., [n - 1] on the variables [acc] the loop assigns. *)
Fixpoint for_up {num St : Type} (n : nat) (body : nat -> St -> G num St)
  (acc : St) : G num St :=
  match n with
  | O => retG acc
  | S k => (acc' <- for_up k body acc ;; body k acc')%G
  end.

End Random.

(** ** Tests on numbers *)

(** [a < b], [a >= b] and [a <= b] on numbers, as the tests of an [if]. *)
Definition ltb (a b : Q) : bool := negb (Qle_bool b a).
Definition geb (a b : Q) : bool := Qle_bool b a.
Definition leb (a b : Q) : bool := Qle_bool a b.

(** ** The assembly animation (main.js, lines 150-156 and 641-660) *)

Module Assembly.
Local Open Scope Q_scope.

(** [THREE.Vector3], with the methods [animate] calls on it. *)
Record Vector3 : Type := mkVector3 { vx : Q; vy : Q; vz : Q }.

Definition add (a b : Vector3) : Vector3 :=
  mkVector3 (vx a + vx b) (vy a + vy b) (vz a + vz b).

(** [lerpVectors(v1, v2, alpha)]: [v1 + (v2 - v1) * alpha], per component. *)
Definition lerpVectors (v1 v2 : Vector3) (alpha : Q) : Vector3 :=
  mkVector3 (vx v1 + (vx v2 - vx v1) * alpha)
            (vy v1 + (vy v2 - vy v1) * alpha)
            (vz v1 + (vz v2 - vz v1) * alpha).

Definition treeHeight : Q := 12.
Definition explosionAcceleration : Q := 0.00025.
Definition starFinalPosition : Vector3 := mkVector3 0 (treeHeight + 0.2) 0.

(** The mutable globals the first block of [animate] reads and writes. *)
Record State : Type := mkState {
  uProgress : Q;               (* explosionUniforms.uProgress.value *)
  explosionSpeed : Q;          (* let explosionSpeed *)
  starPosition : Vector3;      (* star.position *)
  starLightPosition : Vector3; (* starLight.position *)
  autoRotate : bool            (* controls.autoRotate *)
}.

Section Animate.
(** [starRandomOffset] is drawn once, when the script starts. *)
Variable starRandomOffset : Vector3.

(** The state the script starts from. *)
Definition initial : State :=
  {| uProgress := 0;
     explosionSpeed := 0.001;
     starPosition := add starFinalPosition starRandomOffset;
     starLightPosition := add starFinalPosition starRandomOffset;
     autoRotate := false |}.

(** The block [if (explosionUniforms.uProgress.value < 1) { ... }]. *)
Definition animate (s : State) : State :=
  if ltb (uProgress s) 1 then
    let speed := explosionSpeed s + explosionAcceleration in
    let value := uProgress s + speed in
    let progress := value in
    let easeProgress := 1 - (1 - progress) ^ 2 in
    let star :=
      lerpVectors (add starFinalPosition starRandomOffset)
                  starFinalPosition easeProgress in
    if geb value 1 then
      {| uProgress := 1;
         explosionSpeed := speed;
         starPosition := starFinalPosition;
         starLightPosition := star;
         autoRotate := true |}
    else
      {| uProgress := value;
         explosionSpeed := speed;
         starPosition := star;
         starLightPosition := star;
         autoRotate := autoRotate s |}
  else s.

(** The state after [n] frames. *)
Definition run (n : nat) : State := frames animate n initial.

(** What every state the animation passes through satisfies. *)
Definition reachable_inv (s : State) : Prop :=
  0 <= uProgress s /\ uProgress s <= 1 /\ 0 < explosionSpeed s.

End Animate.
End Assembly.

(** ** The firework pool (main.js, lines 428-582)

    The calls that show and free a visual ([scene.add], [scene.remove],
    [dispose]) and the flag [position.needsUpdate] belong to the renderer
    and are left out. *)

Module Fireworks.
Local Open Scope Q_scope.

(** The functions of [Math] the two constructors call.  They are not part
    of the script; the pool never inspects what they return. *)
Class MathLib : Type := {
  Math_PI : Q;
  Math_cos : Q -> Q;
  Math_sin : Q -> Q;
  Math_acos : Q -> Q
}.

(** One entry [{x, y, z}] of [velocities]. *)
Module Velocity.
Record t : Type := mk { x : Q; y : Q; z : Q }.
End Velocity.

(** The object [createRocket] returns.  [points] is the position buffer of
    its [THREE.Points] (three numbers), [color] the colour handed to its
    material. *)
Module Rocket.
Record t : Type := mk {
  points : list Q;
  color : option Z;
  x : Q;
  y : Q;
  z : Q;
  targetY : Q;
  speed : Q
}.
End Rocket.

(** The object [createExplosion] returns.  [positions] and [colors] are the
    two buffers of its [THREE.Points], [opacity] the opacity of its
    material. *)
Module Explosion.
Record t : Type := mk {
  positions : list Q;
  colors : list Q;
  opacity : Q;
  velocities : list Velocity.t;
  life : Q;
  decay : Q
}.
End Explosion.

(** An entry of [fireworks]; the constructor is its [type] field. *)
Inductive Firework : Type :=
  | rocket (r : Rocket.t)
  | explosion (e : Explosion.t).

Definition fireworkColors : list Z :=
  [0xff4444; 0x44ff44; 0x4444ff; 0xffff44; 0xff44ff; 0x44ffff;
   0xffffff; 0xff8844; 0x88ff44]%Z.

(** [new THREE.Color(hex)]: the three channels over 255; white when the
    argument is [undefined].  Colour-space conversion is left out. *)
Definition Color (hex : option Z) : Q * Q * Q :=
  match hex with
  | Some h =>
      (inject_Z (Z.land (Z.shiftr h 16) 255) / 255,
       inject_Z (Z.land (Z.shiftr h 8) 255) / 255,
       inject_Z (Z.land h 255) / 255)
  | None => (1, 1, 1)
  end.

(** *** The random stream *)

(** The stream [Math.random] draws from, here of rationals. *)
Export Random.
Abbreviation Rng := (Random.Rng Q).
Abbreviation G := (Random.G Q).

(** *** The pool and its monad *)

(** The random stream and the array [fireworks].  Every object of the
    array is referenced from the array only, so assigning to a field of
    [fireworks[i]] is storing the new object at index [i]. *)
Record World : Type := mkWorld { rng : Rng; fireworks : list Firework }.

(** A computation on the pool; it may throw ([None]). *)
Definition M (A : Type) : Type := World -> option (A * World).

Definition ret {A : Type} (a : A) : M A := fun w => Some (a, w).

Definition bind {A B : Type} (c : M A) (k : A -> M B) : M B :=
  fun w => match c w with
           | Some (a, w') => k a w'
           | None => None
           end.

Declare Scope M_scope.
Delimit Scope M_scope with M.
Notation "x <- c ;; k" := (bind c (fun x => k))
  (at level 90, c at next level, right associativity) : M_scope.
Notation "c ;;; k" := (bind c (fun _ => k))
  (at level 90, right associativity) : M_scope.

(** A random computation run inside the pool. *)
Definition lift {A : Type} (c : G A) : M A :=
  fun w => let '(a, g) := c (rng w) in Some (a, mkWorld g (fireworks w)).

(** [fireworks.length]. *)
Definition pool_length : M nat := fun w => Some (length (fireworks w), w).

(** [fireworks[i]], whose [type] is read next: that throws on [undefined]. *)
Definition pool_get (i : nat) : M Firework :=
  fun w => match fireworks w !! i with
           | Some fw => Some (fw, w)
           | None => None
           end.

(** The object at index [i] after its fields were assigned. *)
Definition pool_set (i : nat) (fw : Firework) : M unit :=
  fun w => Some (tt, mkWorld (rng w) (<[i := fw]> (fireworks w))).

(** [fireworks.splice(i, 1)]. *)
Definition pool_splice (i : nat) : M unit :=
  fun w => Some (tt, mkWorld (rng w) (delete i (fireworks w))).

(** [fireworks.push(fw)]. *)
Definition pool_push (fw : Firework) : M unit :=
  fun w => Some (tt, mkWorld (rng w) (fireworks w ++ [fw])).

(** [for (let i = n - 1; i >= 0; i--) body]. *)
Fixpoint for_down (n : nat) (body : nat -> M unit) : M unit :=
  match n with
  | O => ret tt
  | S i => (body i ;;; for_down i body)%M
  end.

Section Pool.
Context {math : MathLib}.

(** *** [createRocket] *)

Definition createRocket : G Rocket.t :=
  (let minRadius := 18 in
   let maxRadius := 35 in
   u <- random ;;
   let angle := u * Math_PI * 2 in
   u <- random ;;
   let radius := minRadius + u * (maxRadius - minRadius) in
   let startX := Math_cos angle * radius in
   let startZ := Math_sin angle * radius in
   let startY := 0 in
   u <- random ;;
   let targetY := 8 + u * 8 in
   u <- random ;;
   let rocketColor :=
     index fireworkColors
           (Qfloor (u * inject_Z (Z.of_nat (length fireworkColors)))) in
   u <- random ;;
   retG {| Rocket.points := [startX; startY; startZ];
           Rocket.color := rocketColor;
           Rocket.x := startX;
           Rocket.y := startY;
           Rocket.z := startZ;
           Rocket.targetY := targetY;
           Rocket.speed := 0.15 + u * 0.1 |})%G.

(** *** [createExplosion] *)

Definition particleCount : nat := 100.

(** The variables the particle loop of [createExplosion] assigns. *)
Record Buffers : Type := mkBuffers {
  b_positions : list Q;
  b_velocities : list Velocity.t;
  b_colors : list Q
}.

(** The body of [for (let i = 0; i < particleCount; i++)]. *)
Definition createParticle (x y z : Q) (i : nat) (b : Buffers) : G Buffers :=
  (let positions := <[(i * 3)%nat := x]> (b_positions b) in
   let positions := <[(i * 3 + 1)%nat := y]> positions in
   let positions := <[(i * 3 + 2)%nat := z]> positions in
   u <- random ;;
   let theta := u * Math_PI * 2 in
   u <- random ;;
   let phi := Math_acos (2 * u - 1) in
   u <- random ;;
   let speed := 0.08 + u * 0.12 in
   let velocities :=
     b_velocities b ++
       [ {| Velocity.x := Math_sin phi * Math_cos theta * speed;
            Velocity.y := Math_sin phi * Math_sin theta * speed;
            Velocity.z := Math_cos phi * speed |} ] in
   u <- random ;;
   let color :=
     Color (index fireworkColors
                  (Qfloor (u * inject_Z (Z.of_nat (length fireworkColors))))) in
   let colors := <[(i * 3)%nat := color.1.1]> (b_colors b) in
   let colors := <[(i * 3 + 1)%nat := color.1.2]> colors in
   let colors := <[(i * 3 + 2)%nat := color.2]> colors in
   retG (mkBuffers positions velocities colors))%G.

Definition createExplosion (x y z : Q) : G Explosion.t :=
  (let positions := replicate (particleCount * 3) 0 in
   let velocities := [] in
   let colors := replicate (particleCount * 3) 0 in
   b <- for_up particleCount (createParticle x y z)
               (mkBuffers positions velocities colors) ;;
   u <- random ;;
   retG {| Explosion.positions := b_positions b;
           Explosion.colors := b_colors b;
           Explosion.opacity := 1;
           Explosion.velocities := b_velocities b;
           Explosion.life := 1;
           Explosion.decay := 0.01 + u * 0.005 |})%G.

(** *** [updateFireworks] *)

(** The body of [for (let j = 0; j < fw.velocities.length; j++)].  The loop
    bound keeps [j] inside [velocities]; past it the model leaves both
    buffers alone.  A typed array ignores an assignment past its end, as
    [alter] does. *)
Definition moveParticle (j : nat) (pv : list Q * list Velocity.t)
  : list Q * list Velocity.t :=
  let '(positions, velocities) := pv in
  match velocities !! j with
  | Some v =>
      let positions :=
        alter (fun p => p + Velocity.x v) (j * 3)%nat positions in
      let positions :=
        alter (fun p => p + (Velocity.y v - 0.003)) (j * 3 + 1)%nat positions in
      let positions :=
        alter (fun p => p + Velocity.z v) (j * 3 + 2)%nat positions in
      let v := {| Velocity.x := Velocity.x v * 0.97;
                  Velocity.y := Velocity.y v * 0.97;
                  Velocity.z := Velocity.z v * 0.97 |} in
      (positions, <[j := v]> velocities)
  | None => pv
  end.

(** The particle loop, [j] from 0 to [velocities.length - 1]. *)
Definition moveParticles (positions : list Q) (velocities : list Velocity.t)
  : list Q * list Velocity.t :=
  fold_left (fun pv j => moveParticle j pv)
            (seq 0 (length velocities)) (positions, velocities).

(** The assignments of the [explosion] branch: the particle loop, then
    [fw.life -= fw.decay] and [fw.points.material.opacity = fw.life]. *)
Definition burst (e : Explosion.t) : Explosion.t :=
  let pv := moveParticles (Explosion.positions e) (Explosion.velocities e) in
  let life := Explosion.life e - Explosion.decay e in
  {| Explosion.positions := pv.1;
     Explosion.colors := Explosion.colors e;
     Explosion.opacity := life;
     Explosion.velocities := pv.2;
     Explosion.life := life;
     Explosion.decay := Explosion.decay e |}.

(** The assignments of the [rocket] branch: [fw.y += fw.speed] and
    [positions[1] = fw.y]. *)
Definition ascend (r : Rocket.t) : Rocket.t :=
  let y := Rocket.y r + Rocket.speed r in
  {| Rocket.points := <[1%nat := y]> (Rocket.points r);
     Rocket.color := Rocket.color r;
     Rocket.x := Rocket.x r;
     Rocket.y := y;
     Rocket.z := Rocket.z r;
     Rocket.targetY := Rocket.targetY r;
     Rocket.speed := Rocket.speed r |}.

(** The body of [for (let i = fireworks.length - 1; i >= 0; i--)]. *)
Definition updateAt (i : nat) : M unit :=
  (fw <- pool_get i ;;
   match fw with
   | rocket r =>
       let r := ascend r in
       pool_set i (rocket r) ;;;
       if geb (Rocket.y r) (Rocket.targetY r) then
         pool_splice i ;;;
         e <- lift (createExplosion (Rocket.x r) (Rocket.y r) (Rocket.z r)) ;;
         pool_push (explosion e)
       else ret tt
   | explosion e =>
       let e := burst e in
       pool_set i (explosion e) ;;;
       if leb (Explosion.life e) 0 then pool_splice i else ret tt
   end)%M.

(** The first statement of [updateFireworks]:
    [if (Math.random() < params.fireworkRate && fireworks.length < 8)]. *)
Definition spawn (fireworkRate : Q) : M unit :=
  (u <- lift random ;;
   len <- pool_length ;;
   if ltb u fireworkRate && (len <? 8)%nat then
     r <- lift createRocket ;;
     pool_push (rocket r)
   else ret tt)%M.

(** The loop of [updateFireworks]. *)
Definition updateAll : M unit :=
  (len <- pool_length ;; for_down len updateAt)%M.

Definition updateFireworks (fireworkRate : Q) : M unit :=
  (spawn fireworkRate ;;; updateAll)%M.

(** One call of [updateFireworks] per frame, each with the value
    [params.fireworkRate] has in that frame. *)
Fixpoint run (rates : list Q) : M unit :=
  match rates with
  | [] => ret tt
  | rate :: rest => (updateFireworks rate ;;; run rest)%M
  end.

(** The pool the script starts with: [const fireworks = []]. *)
Definition start (g : Rng) : World := mkWorld g [].

(** *** The loop of [updateFireworks], entry by entry *)

(** A velocity after the three [*= 0.97]. *)
Definition dragged (v : Velocity.t) : Velocity.t :=
  {| Velocity.x := Velocity.x v * 0.97;
     Velocity.y := Velocity.y v * 0.97;
     Velocity.z := Velocity.z v * 0.97 |}.

(** What one round of the particle loop adds to coordinate [c] (0, 1, 2 for
    x, y, z) of the position of a particle with velocity [v]. *)
Definition displacement (c : nat) (v : Velocity.t) : Q :=
  match c with
  | O => Velocity.x v
  | 1%nat => Velocity.y v - 0.003
  | _ => Velocity.z v
  end.

(** The test [fw.y >= fw.targetY] of a rocket, after [fw.y += fw.speed]. *)
Definition reaches (r : Rocket.t) : bool :=
  geb (Rocket.y (ascend r)) (Rocket.targetY (ascend r)).

(** The test [fw.life <= 0] of an explosion, after [fw.life -= fw.decay]. *)
Definition fades (e : Explosion.t) : bool :=
  leb (Explosion.life (burst e)) 0.

(** What the loop leaves in the array of an entry it visits: the entry with
    its fields updated, or nothing when the loop splices it out. *)
Definition survive (fw : Firework) : option Firework :=
  match fw with
  | rocket r => if reaches r then None else Some (rocket (ascend r))
  | explosion e => if fades e then None else Some (explosion (burst e))
  end.

(** The explosions the loop pushes for the entries it visits, [visited]
    being in the order of the visits (last index first). *)
Fixpoint pushed (visited : list Firework) : G (list Firework) :=
  match visited with
  | [] => retG []
  | rocket r :: rest =>
      if reaches r then
        (e <- createExplosion (Rocket.x (ascend r)) (Rocket.y (ascend r))
                              (Rocket.z (ascend r)) ;;
         es <- pushed rest ;;
         retG (explosion e :: es))%G
      else pushed rest
  | explosion _ :: rest => pushed rest
  end.

(** An explosion after [n] rounds of its branch, or nothing once a round
    has found its life used up. *)
Fixpoint age (n : nat) (e : Explosion.t) : option Explosion.t :=
  match n with
  | O => Some e
  | S k => if fades e then None else age k (burst e)
  end.

(** What [n] frames leave in the array of an entry. *)
Fixpoint survive_frames (n : nat) (fw : Firework) : option Firework :=
  match n with
  | O => Some fw
  | S k => match survive fw with
           | Some fw' => survive_frames k fw'
           | None => None
           end
  end.

(** The explosion [e] is what [createExplosion] makes of the rocket [r] that
    reached its target: a fresh explosion, all of whose particles are where
    the rocket was after its last rise. *)
Definition bursts_into (r : Rocket.t) (e : Explosion.t) : Prop :=
  Explosion.life e = 1 /\
  length (Explosion.velocities e) = particleCount /\
  forall j, (j < particleCount)%nat ->
    Explosion.positions e !! (j * 3)%nat = Some (Rocket.x r) /\
    Explosion.positions e !! (j * 3 + 1)%nat
      = Some (Rocket.y r + Rocket.speed r) /\
    Explosion.positions e !! (j * 3 + 2)%nat = Some (Rocket.z r).

(** The same between two entries of the array. *)
Definition burst_of (fw fw' : Firework) : Prop :=
  match fw, fw' with
  | rocket r, explosion e => bursts_into r e
  | _, _ => False
  end.

(** The entry is a rocket that reaches its target in this frame. *)
Definition bursting (fw : Firework) : bool :=
  match fw with
  | rocket r => reaches r
  | explosion _ => false
  end.

(** What holds of every entry of the array between two frames: a rocket is
    below its target and rises; an explosion has life left, at most 1, and
    a decay in the range [createExplosion] draws it from. *)
Definition sound (fw : Firework) : Prop :=
  match fw with
  | rocket r => Rocket.y r < Rocket.targetY r /\ 0 < Rocket.speed r
  | explosion e =>
      0 < Explosion.life e /\ Explosion.life e <= 1 /\
      0.01 <= Explosion.decay e /\ Explosion.decay e < 0.015
  end.

End Pool.

(** The draws of a stream all lie in [[0, 1)], as [Math.random] promises. *)
Definition unit_draws (g : Rng) : Prop :=
  forall k, 0 <= draws g k /\ draws g k < 1.

(** A rational stand-in for [Math], to run the pool on examples: [PI] as
    [355/113], and the first terms of the series of [cos], [sin], [acos]. *)
Definition rational_math : MathLib :=
  {| Math_PI := 355 # 113;
     Math_cos := fun a => 1 - a * a / 2;
     Math_sin := fun a => a - a * a * a / 6;
     Math_acos := fun a => (355 # 226) - a |}.

(** Two streams to run the pool on: every draw [1/2]; and six draws of 0
    followed by [1/2] for ever, under which a first frame at rate [0.015]
    launches a rocket of target 8 and speed [0.15] and no later frame
    launches another. *)
Definition g_half : Rng := mkRng (fun _ => 1 # 2) 0.
Definition g_launch : Rng :=
  mkRng (fun k => if (k <? 6)%nat then 0 else 1 # 2) 0.

(** An explosion as [createExplosion(0, 8, 0)] returns them: 100 particles
    at [(0, 8, 0)], here all with the velocity [(0.06, 0.12, -0.04)] (a
    speed of [0.14]), and the decay [0.0125]. *)
Definition spark : Explosion.t :=
  {| Explosion.positions := concat (replicate 100 [0; 8; 0]);
     Explosion.colors := replicate 300 1;
     Explosion.opacity := 1;
     Explosion.velocities := replicate 100 (Velocity.mk 0.06 0.12 (-0.04));
     Explosion.life := 1;
     Explosion.decay := 0.0125 |}.

(** A rocket one rise short of its target: at [7.95], rising by [0.15]
    towards 8. *)
Definition flare : Rocket.t :=
  {| Rocket.points := [18; 7.95; 0];
     Rocket.color := Some 0xff4444%Z;
     Rocket.x := 18;
     Rocket.y := 7.95;
     Rocket.z := 0;
     Rocket.targetY := 8;
     Rocket.speed := 0.15 |}.

End Fireworks.
(** ** The instanced meshes (main.js, lines 223-356) *)

Module Sampler.
Local Open Scope R_scope.
Export Random.
(** The stream [Math.random] draws from, here of reals. *)
Abbreviation Rng := (Random.Rng R).
Abbreviation G := (Random.G R).

(** [THREE.Vector3] and, for [dummy.rotation], [THREE.Euler]. *)
Record Vector3 : Type := mkVector3 { x : R; y : R; z : R }.

(** What [dummy.updateMatrix()] packs into [dummy.matrix] and
    [setMatrixAt] stores: a position, a rotation and a uniform scale. *)
Record Instance : Type := mkInstance {
  position : Vector3;
  rotation : Vector3;
  scale : R
}.

(** A slot of a new [THREE.InstancedMesh], before [setMatrixAt]. *)
Definition blank : Instance :=
  mkInstance (mkVector3 0 0 0) (mkVector3 0 0 0) 1.

(** [THREE.Color]. *)
Record Color : Type := mkColor { r : R; g : R; b : R }.

(** [new THREE.Color(hex)]; colour-space conversion is left out. *)
Definition hexColor (hex : Z) : Color :=
  mkColor (IZR (Z.land (Z.shiftr hex 16) 255) / 255)
          (IZR (Z.land (Z.shiftr hex 8) 255) / 255)
          (IZR (Z.land hex 255) / 255).

Definition treeHeight : R := 12.
Definition treeRadius : R := 4.
Definition leafCount : nat := 3000.
Definition ornamentCount : nat := 400.
Definition boxCount : nat := 200.

Definition colorPalette : list Color :=
  [hexColor 0xcc2222; hexColor 0xd4af37; hexColor 0x2266cc;
   hexColor 0x22aa44; hexColor 0xeecc44].

(** The distance of a point from the axis of the tree, the y axis. *)
Definition radial (p : Vector3) : R := sqrt (x p * x p + z p * z p).

(** *** The foliage *)

(** The body of [for (let i = 0; i < leafCount; i++)], lines 246-264. *)
Definition growLeaf (leafCount i : nat) (treeMesh : list Instance)
  : G (list Instance) :=
  (let ratio := INR i / INR leafCount in
   let h := ratio * treeHeight in
   let r := (1 - ratio) * treeRadius in
   u <- random ;;
   let angle := ratio * PI * 40 + u * 0.5 in
   u <- random ;;
   let dist := r * (0.5 + u * 0.5) in
   let x := cos angle * dist in
   let z := sin angle * dist in
   let y := h in
   a <- random ;;
   b <- random ;;
   c <- random ;;
   s <- random ;;
   let dummy :=
     mkInstance (mkVector3 x y z) (mkVector3 (a * PI) (b * PI) (c * PI))
                (0.5 + s * 1.5) in
   retG (<[i := dummy]> treeMesh))%G.

(** The mesh of [leafCount] slots and the loop that fills it. *)
Definition populateTree (leafCount : nat) : G (list Instance) :=
  for_up leafCount (growLeaf leafCount) (replicate leafCount blank).

(** *** The ornaments *)

(** The variables the ornament loop assigns: the mesh, the array [colors]
    and the typed array [originalColors]. *)
Record Ornaments : Type := mkOrnaments {
  ornaments : list Instance;
  colors : list R;
  originalColors : list R
}.

(** The body of [for (let i = 0; i < ornamentCount; i++)], lines 292-316.
    [None] is the exception [color.r] throws when the palette has no entry
    at the index drawn. *)
Definition hangOrnament (i : nat) (st : option Ornaments)
  : G (option Ornaments) :=
  match st with
  | None => retG None
  | Some st =>
    (ratio <- random ;;
     let h := ratio * treeHeight in
     let r := (1 - ratio) * treeRadius in
     u <- random ;;
     let angle := u * PI * 2 in
     let x := cos angle * r in
     let z := sin angle * r in
     let y := h in
     s <- random ;;
     let dummy := mkInstance (mkVector3 x y z) (mkVector3 0 0 0) (1 + s) in
     let mesh := <[i := dummy]> (ornaments st) in
     u <- random ;;
     match index colorPalette (Int_part (u * INR (length colorPalette))) with
     | None => retG None
     | Some color =>
         let colors := colors st ++ [Sampler.r color; g color; b color] in
         let original := <[(i * 3)%nat := Sampler.r color]> (originalColors st) in
         let original := <[(i * 3 + 1)%nat := g color]> original in
         let original := <[(i * 3 + 2)%nat := b color]> original in
         retG (Some (mkOrnaments mesh colors original))
     end)%G
  end.

(** The ornament mesh, [colors] and [originalColors] as the loop leaves
    them; [ornaments.instanceColor] is then a typed array of [colors]. *)
Definition populateOrnaments (ornamentCount : nat) : G (option Ornaments) :=
  for_up ornamentCount hangOrnament
    (Some (mkOrnaments (replicate ornamentCount blank) []
                       (replicate (ornamentCount * 3) 0))).

(** *** The gift boxes *)

(** The variables the box loop assigns: the mesh and [boxColors]. *)
Record Boxes : Type := mkBoxes {
  boxes : list Instance;
  boxColors : list R
}.

(** The body of [for (let i = 0; i < boxCount; i++)], lines 337-354. *)
Definition placeBox (i : nat) (st : option Boxes) : G (option Boxes) :=
  match st with
  | None => retG None
  | Some st =>
    (ratio <- random ;;
     let h := ratio * treeHeight in
     let r := (1 - ratio) * treeRadius in
     u <- random ;;
     let angle := u * PI * 2 in
     let x := cos angle * (r + 0.2) in
     let z := sin angle * (r + 0.2) in
     let y := h in
     a <- random ;;
     b <- random ;;
     c <- random ;;
     s <- random ;;
     let dummy := mkInstance (mkVector3 x y z) (mkVector3 a b c) (0.8 + s) in
     let mesh := <[i := dummy]> (boxes st) in
     u <- random ;;
     match index colorPalette (Int_part (u * INR (length colorPalette))) with
     | None => retG None
     | Some color =>
         retG (Some (mkBoxes mesh
                       (boxColors st ++ [Sampler.r color; g color; Sampler.b color])))
     end)%G
  end.

Definition populateBoxes (boxCount : nat) : G (option Boxes) :=
  for_up boxCount placeBox (Some (mkBoxes (replicate boxCount blank) [])).

(** *** The instance a round stores, from the numbers it draws *)

(** Round [i] of the foliage loop draws [u0], ..., [u5]. *)
Definition leafAt (leafCount i : nat) (u0 u1 u2 u3 u4 u5 : R) : Instance :=
  let ratio := INR i / INR leafCount in
  let angle := ratio * PI * 40 + u0 * 0.5 in
  let dist := (1 - ratio) * treeRadius * (0.5 + u1 * 0.5) in
  mkInstance (mkVector3 (cos angle * dist) (ratio * treeHeight)
                        (sin angle * dist))
             (mkVector3 (u2 * PI) (u3 * PI) (u4 * PI))
             (0.5 + u5 * 1.5).

(** A round of the ornament loop draws [u0], [u1], [u2] and then the
    colour. *)
Definition ornamentAt (u0 u1 u2 : R) : Instance :=
  mkInstance (mkVector3 (cos (u1 * PI * 2) * ((1 - u0) * treeRadius))
                        (u0 * treeHeight)
                        (sin (u1 * PI * 2) * ((1 - u0) * treeRadius)))
             (mkVector3 0 0 0)
             (1 + u2).

(** A round of the box loop draws [u0], ..., [u5] and then the colour. *)
Definition boxAt (u0 u1 u2 u3 u4 u5 : R) : Instance :=
  mkInstance (mkVector3 (cos (u1 * PI * 2) * ((1 - u0) * treeRadius + 0.2))
                        (u0 * treeHeight)
                        (sin (u1 * PI * 2) * ((1 - u0) * treeRadius + 0.2)))
             (mkVector3 u2 u3 u4)
             (0.8 + u5).

(** The draw number [k] after the cursor. *)
Definition draw (g : Rng) (k : nat) : R := draws g (k + cursor g).

(** The draws of a stream all lie in [[0, 1)], as [Math.random] promises. *)
Definition unit_draws (g : Rng) : Prop :=
  forall k, 0 <= draws g k /\ draws g k < 1.

(** The stream whose every draw is 0, and the one whose every draw is
    [1/2]. *)
Definition g_zero : Rng := mkRng (fun _ => 0) 0.
Definition g_half : Rng := mkRng (fun _ => 1 / 2) 0.

End Sampler.

(** ** The vertex displacement (main.js, lines 159-181) *)

Module Shader.
Local Open Scope R_scope.

(** GLSL [clamp], [smoothstep] and, for a base that is not negative and a
    positive exponent, [pow]. *)
Definition clamp (x minVal maxVal : R) : R := Rmin (Rmax x minVal) maxVal.

Definition smoothstep (edge0 edge1 x : R) : R :=
  let t := clamp ((x - edge0) / (edge1 - edge0)) 0 1 in
  t * t * (3 - 2 * t).

Definition pow (x y : R) : R :=
  if Req_dec_T x 0 then 0 else Rpower x y.

(** [float explodeFactor], from the uniform [uProgress]. *)
Definition explodeFactor (uProgress : R) : R :=
  let progress := smoothstep 0 1 uProgress in
  1 - pow progress 0.5.

(** One coordinate of
    [transformed += aRandomOffset * explodeFactor * 20.0]. *)
Definition displace (transformed aRandomOffset uProgress : R) : R :=
  transformed + aRandomOffset * explodeFactor uProgress * 20.

End Shader.

(** ** The hover highlight (main.js, lines 620-624 and 667-698) *)

Module Highlight.
Import Sampler.
Local Open Scope Z_scope.

(** [arr[k] = v] on a typed array: ignored outside the array. *)
Definition store (arr : list R) (k : Z) (v : R) : list R :=
  if k <? 0 then arr else <[Z.to_nat k := v]> arr.

(** [new THREE.Color(arr[k], arr[k + 1], arr[k + 2])].  The three reads
    are inside the array together or [undefined] together, the length of
    the array being a multiple of 3; a [THREE.Color] made of [undefined]
    stays at its initial white. *)
Definition readColor (arr : list R) (k : Z) : Color :=
  match index arr k, index arr (k + 1), index arr (k + 2) with
  | Some r, Some g, Some b => mkColor r g b
  | _, _, _ => mkColor 1 1 1
  end.

(** [ornaments.setColorAt(index, color)], which is
    [color.toArray(instanceColor.array, index * 3)]. *)
Definition setColorAt (instanceColor : list R) (index : Z) (color : Color)
  : list R :=
  let offset := index * 3 in
  let array := store instanceColor offset (r color) in
  let array := store array (offset + 1) (g color) in
  store array (offset + 2) (b color).

Definition whiteColor : Color := hexColor 0xffffff.

(** The globals the highlight reads and writes. *)
Record State : Type := mkState {
  instanceColor : list R;   (* ornaments.instanceColor.array *)
  needsUpdate : bool;       (* ornaments.instanceColor.needsUpdate *)
  originalColors : list R;  (* const originalColors *)
  hoveredInstanceId : Z     (* let hoveredInstanceId *)
}.

(** The state the script reaches once the ornaments are built:
    [instanceColor] is a typed array of [colors], nothing is hovered. *)
Definition initial (o : Ornaments) : State :=
  {| instanceColor := colors o;
     needsUpdate := false;
     originalColors := Sampler.originalColors o;
     hoveredInstanceId := -1 |}.

(** The statement [if (intersection.length > 0) { ... } else { ... }] of
    [animate]; [intersection] lists the [instanceId] of the hits of the
    ray, the nearest first. *)
Definition animate (intersection : list nat) (s : State) : State :=
  match intersection with
  | hit :: _ =>
      let instanceId := Z.of_nat hit in
      if negb (instanceId =? hoveredInstanceId s) then
        let array :=
          if negb (hoveredInstanceId s =? -1) then
            setColorAt (instanceColor s) (hoveredInstanceId s)
              (readColor (originalColors s) (hoveredInstanceId s * 3))
          else instanceColor s in
        let array := setColorAt array instanceId whiteColor in
        {| instanceColor := array;
           needsUpdate := true;
           originalColors := originalColors s;
           hoveredInstanceId := instanceId |}
      else s
  | [] =>
      if negb (hoveredInstanceId s =? -1) then
        {| instanceColor :=
             setColorAt (instanceColor s) (hoveredInstanceId s)
               (readColor (originalColors s) (hoveredInstanceId s * 3));
           needsUpdate := true;
           originalColors := originalColors s;
           hoveredInstanceId := -1 |}
      else s
  end.

(** The state after the frames whose hits are listed, oldest first. *)
Definition run (frames : list (list nat)) (s : State) : State :=
  fold_left (fun s intersection => animate intersection s) frames s.

(** The colour the instance [j] is drawn in. *)
Definition colorOf (s : State) (j : nat) : Color :=
  readColor (instanceColor s) (Z.of_nat j * 3).

(** The colour the table holds for the instance [j]. *)
Definition originalOf (s : State) (j : nat) : Color :=
  readColor (originalColors s) (Z.of_nat j * 3).

(** The instance [j] is the nearest hit of one of the frames. *)
Definition was_hit (frames : list (list nat)) (j : nat) : Prop :=
  exists intersection, In intersection frames /\ head intersection = Some j.

(** What the highlight keeps true of a mesh of [N] ornaments: every
    instance is drawn in the colour the table holds for it, but the
    hovered one, which is drawn white. *)
Definition coherent (N : nat) (s : State) : Prop :=
  length (instanceColor s) = (N * 3)%nat /\
  forall j, (j < N)%nat ->
    colorOf s j = if hoveredInstanceId s =? Z.of_nat j then whiteColor
                  else originalOf s j.

End Highlight.

(** ** The random offsets, the outline of the star and the snow
    (main.js, lines 184-221 and 416-419) *)

Module Geometry.
Import Sampler.
Local Open Scope R_scope.

(** The body of [for (let i = 0; i < count; i++)] of [addRandomOffsets],
    on the typed array [offsets].  [Math.acos] is given a number of
    [[-1, 1)] when the draw is in range; what it returns outside is not
    modelled. *)
Definition addOffset (i : nat) (offsets : list R) : G (list R) :=
  (u <- random ;;
   let theta := u * PI * 2 in
   u <- random ;;
   let phi := acos (2 * u - 1) in
   let offsets := <[(i * 3)%nat := sin phi * cos theta]> offsets in
   let offsets := <[(i * 3 + 1)%nat := sin phi * sin theta]> offsets in
   let offsets := <[(i * 3 + 2)%nat := cos phi]> offsets in
   retG offsets)%G.

(** The array [addRandomOffsets] hands to the attribute [aRandomOffset]. *)
Definition addRandomOffsets (count : nat) : G (list R) :=
  for_up count addOffset (replicate (count * 3) 0).

(** The body of [for (let i = 0; i < count * 3; i++)] of
    [rebuildSnowflakes]. *)
Definition placeSnowflake (i : nat) (posArray : list R) : G (list R) :=
  (u <- random ;;
   retG (<[i := (u - 0.5) * 50]> posArray))%G.

(** [posArray] as that loop leaves it, from the stream the loop finds.
    The objects [rebuildSnowflakes] makes before and after the loop, and
    the calls that swap the mesh in the scene, are the library's and are
    left out. *)
Definition posArray (count : nat) : G (list R) :=
  for_up (count * 3) placeSnowflake (replicate (count * 3) 0).

(** The calls [createStarGeometry] makes on its [THREE.Shape]. *)
Inductive PathCommand : Type :=
  | moveTo (x y : R)
  | lineTo (x y : R).

(** The point a call is made with. *)
Definition target (c : PathCommand) : R * R :=
  match c with
  | moveTo x y => (x, y)
  | lineTo x y => (x, y)
  end.

(** The point round [i] of [for (let i = 0; i < 10; i++)] of
    [createStarGeometry] computes. *)
Definition starVertex (outerRadius innerRadius : R) (i : nat) : R * R :=
  let PI2 := PI * 2 in
  let radius := if (i mod 2 =? 0)%nat then outerRadius else innerRadius in
  let a := INR i / 10 * PI2 in
  let x := cos (a - PI / 2) * radius in
  let y := sin (a - PI / 2) * radius in
  (x, y).

(** The body of that loop, on the calls made so far. *)
Definition starPoint (outerRadius innerRadius : R) (shape : list PathCommand)
  (i : nat) : list PathCommand :=
  let '(x, y) := starVertex outerRadius innerRadius i in
  if (i =? 0)%nat then shape ++ [moveTo x y] else shape ++ [lineTo x y].

(** The outline [createStarGeometry] extrudes; the extrusion is the
    library's. *)
Definition starShape (outerRadius innerRadius : R) : list PathCommand :=
  fold_left (starPoint outerRadius innerRadius) (seq 0 10) [].

End Geometry.

(** ** The star at the start (main.js, lines 371-378) *)

Module StarStart.
Import Assembly Random.
Local Open Scope Q_scope.

(** [const starRandomOffset = new THREE.Vector3(...)]: three draws, in the
    order of the arguments. *)
Definition starRandomOffset : G Q Vector3 :=
  (a <- random ;;
   b <- random ;;
   c <- random ;;
   retG (mkVector3 ((a - 0.5) * 30) ((b - 0.5) * 30 + 15) ((c - 0.5) * 30)))%G.

End StarStart.

(** ** What [animate] sets from the clock (main.js, lines 626-629 and
    700-723) *)

Module Scene.
Import Sampler.
Local Open Scope R_scope.

(** The quotient of [a % b], cut towards 0. *)
Definition truncate (q : R) : Z :=
  if Rle_dec 0 q then Int_part q else (- Int_part (- q))%Z.

(** [a % b] on numbers: the remainder has the sign of [a]. *)
Definition remainder (a b : R) : R := a - b * IZR (truncate (a / b)).

(** The fields the last part of [animate] assigns. *)
Record Pose : Type := mkPose {
  starRotationY : R;       (* star.rotation.y *)
  starRotationZ : R;       (* star.rotation.z *)
  starLightIntensity : R;  (* starLight.intensity *)
  light1 : Vector3;        (* light1.position *)
  light2 : Vector3;        (* light2.position *)
  particlesRotationY : R;  (* particlesMesh.rotation.y *)
  particlesY : R           (* particlesMesh.position.y *)
}.

(** The assignments of [animate] from [time] and [params.lightSpeed]. *)
Definition animate (time lightSpeed : R) : Pose :=
  let speed := lightSpeed in
  {| starRotationY := time * 0.5;
     starRotationZ := sin time * 0.1;
     starLightIntensity := 2 + sin (time * 5);
     light1 := mkVector3 (cos (time * speed) * 6)
                         (sin (time * 0.5 * speed) * 6 + 6)
                         (sin (time * speed) * 6);
     light2 := mkVector3 (sin (time * 0.8 * speed) * 6)
                         (cos (time * 0.5 * speed) * 6 + 6)
                         (cos (time * 0.8 * speed) * 6);
     particlesRotationY := time * 0.05;
     particlesY := remainder (- time) 10 |}.

(** The listener of [mousemove]: [mouse.x] and [mouse.y]. *)
Definition mousemove (clientX clientY innerWidth innerHeight : R) : R * R :=
  ((clientX / innerWidth) * 2 - 1, - (clientY / innerHeight) * 2 + 1).

End Scene.

(** ** The control panel (main.js, lines 40-99 and 601-613) *)

Module Settings.
Local Open Scope Q_scope.

(** The fields of [defaults], which [params] copies. *)
Record Params : Type := mkParams {
  bloomStrength : Q;
  bloomRadius : Q;
  bloomThreshold : Q;
  focus : Q;
  aperture : Q;
  maxblur : Q;
  rotateSpeed : Q;
  lightSpeed : Q;
  snowflakeSize : Q;
  snowflakeCount : Q;
  fireworkRate : Q
}.

Definition defaults : Params :=
  {| bloomStrength := 0.9;
     bloomRadius := 0.4;
     bloomThreshold := 0.2;
     focus := 15.0;
     aperture := 0.0001;
     maxblur := 0.01;
     rotateSpeed := 0.5;
     lightSpeed := 1.0;
     snowflakeSize := 0.25;
     snowflakeCount := 1400;
     fireworkRate := 0.015 |}.

(** [params] and what the script has set from it on the passes, the
    controls and the snow. *)
Record State : Type := mkState {
  params : Params;
  bloomPass_strength : Q;
  bloomPass_radius : Q;
  bloomPass_threshold : Q;
  bokehPass_focus : Q;
  bokehPass_aperture : Q;
  bokehPass_maxblur : Q;
  autoRotateSpeed : Q;          (* controls.autoRotateSpeed *)
  particlesMaterial_size : Q;
  snowflakes : Z                (* the argument of the last [rebuildSnowflakes] *)
}.

(** The state once the script has run: [params] is a copy of [defaults];
    the bloom pass has the three values assigned after its construction,
    the bokeh pass those of its construction, the material the size and
    the snow the count [params] had. *)
Definition initial : State :=
  {| params := defaults;
     bloomPass_strength := 0.8;
     bloomPass_radius := 0.3;
     bloomPass_threshold := 0.4;
     bokehPass_focus := 15.0;
     bokehPass_aperture := 0.0001;
     bokehPass_maxblur := 0.01;
     autoRotateSpeed := 0.5;
     particlesMaterial_size := snowflakeSize defaults;
     snowflakes := 1400 |}.

(** The controllers of the panel, by the field of [params] each edits. *)
Inductive Controller : Type :=
  | c_bloomStrength | c_bloomRadius | c_bloomThreshold
  | c_focus | c_aperture | c_maxblur
  | c_rotateSpeed | c_lightSpeed
  | c_snowflakeSize | c_snowflakeCount | c_fireworkRate.

(** What the user does on the panel: press the reset button, or give a
    controller the value [v]. *)
Inductive Event : Type :=
  | reset
  | change (c : Controller) (v : Q).

(** A controller writes its field of [params]. *)
Definition write (c : Controller) (v : Q) (p : Params) : Params :=
  match c with
  | c_bloomStrength =>
      mkParams v (bloomRadius p) (bloomThreshold p) (focus p) (aperture p)
        (maxblur p) (rotateSpeed p) (lightSpeed p) (snowflakeSize p)
        (snowflakeCount p) (fireworkRate p)
  | c_bloomRadius =>
      mkParams (bloomStrength p) v (bloomThreshold p) (focus p) (aperture p)
        (maxblur p) (rotateSpeed p) (lightSpeed p) (snowflakeSize p)
        (snowflakeCount p) (fireworkRate p)
  | c_bloomThreshold =>
      mkParams (bloomStrength p) (bloomRadius p) v (focus p) (aperture p)
        (maxblur p) (rotateSpeed p) (lightSpeed p) (snowflakeSize p)
        (snowflakeCount p) (fireworkRate p)
  | c_focus =>
      mkParams (bloomStrength p) (bloomRadius p) (bloomThreshold p) v
        (aperture p) (maxblur p) (rotateSpeed p) (lightSpeed p)
        (snowflakeSize p) (snowflakeCount p) (fireworkRate p)
  | c_aperture =>
      mkParams (bloomStrength p) (bloomRadius p) (bloomThreshold p) (focus p)
        v (maxblur p) (rotateSpeed p) (lightSpeed p) (snowflakeSize p)
        (snowflakeCount p) (fireworkRate p)
  | c_maxblur =>
      mkParams (bloomStrength p) (bloomRadius p) (bloomThreshold p) (focus p)
        (aperture p) v (rotateSpeed p) (lightSpeed p) (snowflakeSize p)
        (snowflakeCount p) (fireworkRate p)
  | c_rotateSpeed =>
      mkParams (bloomStrength p) (bloomRadius p) (bloomThreshold p) (focus p)
        (aperture p) (maxblur p) v (lightSpeed p) (snowflakeSize p)
        (snowflakeCount p) (fireworkRate p)
  | c_lightSpeed =>
      mkParams (bloomStrength p) (bloomRadius p) (bloomThreshold p) (focus p)
        (aperture p) (maxblur p) (rotateSpeed p) v (snowflakeSize p)
        (snowflakeCount p) (fireworkRate p)
  | c_snowflakeSize =>
      mkParams (bloomStrength p) (bloomRadius p) (bloomThreshold p) (focus p)
        (aperture p) (maxblur p) (rotateSpeed p) (lightSpeed p) v
        (snowflakeCount p) (fireworkRate p)
  | c_snowflakeCount =>
      mkParams (bloomStrength p) (bloomRadius p) (bloomThreshold p) (focus p)
        (aperture p) (maxblur p) (rotateSpeed p) (lightSpeed p)
        (snowflakeSize p) v (fireworkRate p)
  | c_fireworkRate =>
      mkParams (bloomStrength p) (bloomRadius p) (bloomThreshold p) (focus p)
        (aperture p) (maxblur p) (rotateSpeed p) (lightSpeed p)
        (snowflakeSize p) (snowflakeCount p) v
  end.

(** The function given to [onChange] for the controller, if any, called
    with the value once [params] holds it. *)
Definition onChange (c : Controller) (v : Q) (s : State) : State :=
  match c with
  | c_bloomStrength =>
      mkState (params s) v (bloomPass_radius s) (bloomPass_threshold s)
        (bokehPass_focus s) (bokehPass_aperture s) (bokehPass_maxblur s)
        (autoRotateSpeed s) (particlesMaterial_size s) (snowflakes s)
  | c_bloomRadius =>
      mkState (params s) (bloomPass_strength s) v (bloomPass_threshold s)
        (bokehPass_focus s) (bokehPass_aperture s) (bokehPass_maxblur s)
        (autoRotateSpeed s) (particlesMaterial_size s) (snowflakes s)
  | c_bloomThreshold =>
      mkState (params s) (bloomPass_strength s) (bloomPass_radius s) v
        (bokehPass_focus s) (bokehPass_aperture s) (bokehPass_maxblur s)
        (autoRotateSpeed s) (particlesMaterial_size s) (snowflakes s)
  | c_focus =>
      mkState (params s) (bloomPass_strength s) (bloomPass_radius s)
        (bloomPass_threshold s) v (bokehPass_aperture s)
        (bokehPass_maxblur s) (autoRotateSpeed s) (particlesMaterial_size s)
        (snowflakes s)
  | c_aperture =>
      mkState (params s) (bloomPass_strength s) (bloomPass_radius s)
        (bloomPass_threshold s) (bokehPass_focus s) v (bokehPass_maxblur s)
        (autoRotateSpeed s) (particlesMaterial_size s) (snowflakes s)
  | c_maxblur =>
      mkState (params s) (bloomPass_strength s) (bloomPass_radius s)
        (bloomPass_threshold s) (bokehPass_focus s) (bokehPass_aperture s) v
        (autoRotateSpeed s) (particlesMaterial_size s) (snowflakes s)
  | c_rotateSpeed =>
      mkState (params s) (bloomPass_strength s) (bloomPass_radius s)
        (bloomPass_threshold s) (bokehPass_focus s) (bokehPass_aperture s)
        (bokehPass_maxblur s) v (particlesMaterial_size s) (snowflakes s)
  | c_snowflakeSize =>
      mkState (params s) (bloomPass_strength s) (bloomPass_radius s)
        (bloomPass_threshold s) (bokehPass_focus s) (bokehPass_aperture s)
        (bokehPass_maxblur s) (autoRotateSpeed s) v (snowflakes s)
  | c_snowflakeCount =>
      mkState (params s) (bloomPass_strength s) (bloomPass_radius s)
        (bloomPass_threshold s) (bokehPass_focus s) (bokehPass_aperture s)
        (bokehPass_maxblur s) (autoRotateSpeed s) (particlesMaterial_size s)
        (Qfloor v)
  | c_lightSpeed | c_fireworkRate => s
  end.

(** [params] replaced in the state. *)
Definition with_params (p : Params) (s : State) : State :=
  mkState p (bloomPass_strength s) (bloomPass_radius s)
    (bloomPass_threshold s) (bokehPass_focus s) (bokehPass_aperture s)
    (bokehPass_maxblur s) (autoRotateSpeed s) (particlesMaterial_size s)
    (snowflakes s).

(** What an event does: [params.reset], or a controller that writes its
    field and calls its [onChange]. *)
Definition handle (s : State) (ev : Event) : State :=
  match ev with
  | reset =>
      let p := defaults in
      mkState p (bloomStrength p) (bloomRadius p) (bloomThreshold p)
        (focus p) (aperture p) (maxblur p) (rotateSpeed p)
        (particlesMaterial_size s) (snowflakes s)
  | change c v => onChange c v (with_params (write c v (params s)) s)
  end.

(** The state after the events, oldest first. *)
Definition run (events : list Event) : State := fold_left handle events initial.

(** The three values of the bloom pass are those [params] shows; the same
    for the bokeh pass and the speed of rotation; for the snow. *)
Definition bloom_in_step (s : State) : Prop :=
  bloomPass_strength s = bloomStrength (params s) /\
  bloomPass_radius s = bloomRadius (params s) /\
  bloomPass_threshold s = bloomThreshold (params s).

Definition bokeh_in_step (s : State) : Prop :=
  bokehPass_focus s = focus (params s) /\
  bokehPass_aperture s = aperture (params s) /\
  bokehPass_maxblur s = maxblur (params s) /\
  autoRotateSpeed s = rotateSpeed (params s).

Definition snow_in_step (s : State) : Prop :=
  particlesMaterial_size s = snowflakeSize (params s) /\
  snowflakes s = Qfloor (snowflakeCount (params s)).

End Settings.

(** ** The entries of the pool between two frames, and their flight *)

Module Flight.
Import Fireworks.
Local Open Scope Q_scope.

(** What an entry of the array looks like between two frames.  A rocket is
    below the target [createRocket] chose between 8 and 16, rises by a
    speed between [0.15] and [0.25], has the colour of the palette it was
    given, and its position buffer holds its fields.  An explosion has 100
    particles in buffers of 300 numbers, life left, and a decay from
    [0.01] to less than [0.015].  The ranges of the target and of the
    speed are closed: a draw next to 1 is rounded to their upper end. *)
Definition wellformed (fw : Firework) : Prop :=
  match fw with
  | rocket r =>
      Rocket.points r = [Rocket.x r; Rocket.y r; Rocket.z r] /\
      0 <= Rocket.y r /\ Rocket.y r < Rocket.targetY r /\
      8 <= Rocket.targetY r /\ Rocket.targetY r <= 16 /\
      0.15 <= Rocket.speed r /\ Rocket.speed r <= 0.25 /\
      exists hex, Rocket.color r = Some hex /\ In hex fireworkColors
  | explosion e =>
      length (Explosion.positions e) = 300%nat /\
      length (Explosion.colors e) = 300%nat /\
      length (Explosion.velocities e) = 100%nat /\
      0 < Explosion.life e /\ Explosion.life e <= 1 /\
      0.01 <= Explosion.decay e /\ Explosion.decay e < 0.015
  end.

(** The entry is an explosion no round has touched yet: it has the life
    and the opacity [createExplosion] gave it. *)
Definition fresh (fw : Firework) : Prop :=
  exists e, fw = explosion e /\
            Explosion.life e = 1 /\ Explosion.opacity e = 1.

(** Coordinate [c] (0, 1, 2 for x, y, z) of a velocity. *)
Definition coordinate (c : nat) (v : Velocity.t) : Q :=
  match c with
  | O => Velocity.x v
  | 1%nat => Velocity.y v
  | _ => Velocity.z v
  end.

(** What the constant [0.003] of the particle loop has taken from
    coordinate [c] of a position after [n] rounds. *)
Definition fallen (c n : nat) : Q :=
  match c with
  | 1%nat => 0.003 * inject_Z (Z.of_nat n)
  | _ => 0
  end.

(** A rocket after [n] rounds of its branch, or nothing once a round has
    found it at its target. *)
Fixpoint climb (n : nat) (r : Rocket.t) : option Rocket.t :=
  match n with
  | O => Some r
  | S k => if reaches r then None else climb k (ascend r)
  end.

(** The entry has at most [n] frames to stay in the array, the explosion
    it may burst into counted in: an explosion is gone after [n] rounds; a
    rocket is at its target 100 rounds before that. *)
Definition expires (n : nat) (fw : Firework) : Prop :=
  match fw with
  | rocket r =>
      (101 <= n)%nat /\ 0 < Rocket.speed r /\
      Rocket.targetY r
        <= Rocket.y r + inject_Z (Z.of_nat (n - 100)) * Rocket.speed r
  | explosion e => age n e = None
  end.

(** No frame of [rates] launches a rocket, whatever is drawn in
    [[0, 1)]. *)
Definition quiet (rates : list Q) : Prop := Forall (fun rate => rate <= 0) rates.

End Flight.

(** * Facts *)

(** ** Frames and tests *)

Lemma frames_add {St : Type} (step : St -> St) (n m : nat) (s : St) :
  frames step (n + m) s = frames step n (frames step m s).
Proof.
  induction n as [|n IH]; simpl; [reflexivity|]. now rewrite IH.
Qed.

Section Tests.
Local Open Scope Q_scope.

Lemma ltb_spec (a b : Q) : ltb a b = true <-> a < b.
Proof.
  unfold ltb. rewrite negb_true_iff. split.
  - intros H. apply Qnot_le_lt. intros Hle.
    apply Qle_bool_iff in Hle. congruence.
  - intros H. destruct (Qle_bool b a) eqn:E; [|reflexivity].
    apply Qle_bool_iff in E. lra.
Qed.

Lemma ltb_false (a b : Q) : ltb a b = false <-> b <= a.
Proof. unfold ltb. rewrite negb_false_iff. apply Qle_bool_iff. Qed.

Lemma geb_spec (a b : Q) : geb a b = true <-> b <= a.
Proof. apply Qle_bool_iff. Qed.

Lemma geb_false (a b : Q) : geb a b = false <-> a < b.
Proof.
  unfold geb. split.
  - intros H. apply Qnot_le_lt. intros Hle.
    apply Qle_bool_iff in Hle. congruence.
  - intros H. destruct (Qle_bool b a) eqn:E; [|reflexivity].
    apply Qle_bool_iff in E. lra.
Qed.

Lemma leb_spec (a b : Q) : leb a b = true <-> a <= b.
Proof. apply Qle_bool_iff. Qed.

Lemma leb_false (a b : Q) : leb a b = false <-> b < a.
Proof. apply (geb_false b a). Qed.

Lemma inject_nat_succ (n : nat) :
  inject_Z (Z.of_nat (S n)) == inject_Z (Z.of_nat n) + 1.
Proof.
  rewrite Nat2Z.inj_succ. unfold Z.succ. rewrite inject_Z_plus. reflexivity.
Qed.

Lemma inject_nat_bounds (n m : nat) :
  (n <= m)%nat ->
  0 <= inject_Z (Z.of_nat n) /\
  inject_Z (Z.of_nat n) <= inject_Z (Z.of_nat m).
Proof.
  intros H. split.
  - unfold Qle; simpl. lia.
  - unfold Qle; simpl. lia.
Qed.

End Tests.

(** ** Loops that draw random numbers *)

Section Loops.
Import Random.
Context {num : Type}.

Lemma for_up_S {St : Type} (k : nat) (body : nat -> St -> G num St)
  (acc : St) (g : Rng num) :
  for_up (S k) body acc g =
  body k (for_up k body acc g).1 (for_up k body acc g).2.
Proof.
  simpl. unfold bindG. now destruct (for_up k body acc g).
Qed.

(** A loop whose round [i] draws [c] numbers and stores at index [i] of an
    array a value made from them: it leaves the length of the array alone
    and, below its bound, each slot holds the value of its round. *)
Lemma for_up_insert {A : Type} (c : nat) (f : nat -> Rng num -> A)
  (body : nat -> list A -> G num (list A)) :
  (forall i arr g,
     body i arr g = (<[i := f i g]> arr, mkRng (draws g) (c + cursor g))) ->
  forall n arr g,
    (for_up n body arr g).2 = mkRng (draws g) (c * n + cursor g) /\
    length (for_up n body arr g).1 = length arr /\
    (forall j, (j < n)%nat -> (j < length arr)%nat ->
       (for_up n body arr g).1 !! j
       = Some (f j (mkRng (draws g) (c * j + cursor g)))).
Proof.
  intros Hbody n arr g. induction n as [|n IH].
  - simpl. split; [destruct g; simpl; f_equal; lia|].
    split; [reflexivity|]. intros j Hj. lia.
  - destruct IH as (Hg & Hlen & Hslot).
    rewrite for_up_S, Hbody. cbn [fst snd].
    rewrite length_insert, Hg. cbn [draws cursor].
    split; [f_equal; lia|]. split; [exact Hlen|].
    intros j Hj Hin. destruct (decide (j = n)) as [->|Hne].
    + rewrite list_lookup_insert_eq by lia. reflexivity.
    + rewrite list_lookup_insert_ne by lia. apply Hslot; lia.
Qed.

End Loops.

(** ** The assembly animation *)

Module AssemblyFacts.
Import Assembly.
Local Open Scope Q_scope.

Section Animate.
Variable starRandomOffset : Vector3.
Local Abbreviation animate := (animate starRandomOffset).
Local Abbreviation run := (run starRandomOffset).
Local Abbreviation initial := (initial starRandomOffset).

Lemma run_S (n : nat) : run (S n) = animate (run n).
Proof. reflexivity. Qed.

Lemma run_add (n m : nat) : run (n + m) = frames animate n (run m).
Proof. unfold Assembly.run. apply frames_add. Qed.

Lemma initial_inv : reachable_inv initial.
Proof. unfold reachable_inv; simpl. lra. Qed.

Lemma animate_inv (s : State) : reachable_inv s -> reachable_inv (animate s).
Proof.
  intros (H0 & H1 & Hs). unfold Assembly.animate.
  destruct (ltb (uProgress s) 1) eqn:Elt; [|repeat split; assumption].
  apply ltb_spec in Elt.
  assert (Hacc : explosionAcceleration == 1 # 4000) by reflexivity.
  destruct (geb _ 1) eqn:Ege; unfold reachable_inv; simpl.
  - lra.
  - apply geb_false in Ege. lra.
Qed.

Lemma run_inv (n : nat) : reachable_inv (run n).
Proof.
  induction n as [|n IH]; [apply initial_inv|].
  rewrite run_S. now apply animate_inv.
Qed.

Lemma animate_monotone (s : State) :
  reachable_inv s -> uProgress s <= uProgress (animate s).
Proof.
  intros (H0 & H1 & Hs). unfold Assembly.animate.
  destruct (ltb (uProgress s) 1) eqn:Elt; [|lra].
  apply ltb_spec in Elt.
  assert (Hacc : explosionAcceleration == 1 # 4000) by reflexivity.
  destruct (geb _ 1) eqn:Ege; simpl; lra.
Qed.

(** A settled state is a fixed point of the frame function. *)
Lemma animate_settled (s : State) : 1 <= uProgress s -> animate s = s.
Proof.
  intros H. unfold Assembly.animate.
  apply ltb_false in H. now rewrite H.
Qed.

Lemma frames_settled (n : nat) (s : State) :
  1 <= uProgress s -> frames animate n s = s.
Proof.
  intros H. induction n as [|n IH]; simpl; [reflexivity|].
  rewrite IH. now apply animate_settled.
Qed.

(** Before it saturates, the progress after [n] frames is
    [n/1000 + n(n+1)/8000] and the speed is [1/1000 + n/4000]. *)
Lemma run_closed_form (n : nat) :
  (n <= 85)%nat ->
  uProgress (run n) ==
    inject_Z (Z.of_nat n) * (1 # 1000)
    + inject_Z (Z.of_nat n) * (inject_Z (Z.of_nat n) + 1) * (1 # 8000)
  /\ explosionSpeed (run n) == (1 # 1000) + inject_Z (Z.of_nat n) * (1 # 4000).
Proof.
  induction n as [|n IH]; intros Hn.
  - simpl. split; reflexivity.
  - destruct IH as [IHp IHs]; [lia|].
    pose proof (inject_nat_succ n) as Hk.
    destruct (inject_nat_bounds n 84) as [Hk0 Hk84]; [lia|].
    change (inject_Z (Z.of_nat 84)) with 84 in Hk84.
    assert (Hacc : explosionAcceleration == 1 # 4000) by reflexivity.
    set (k := inject_Z (Z.of_nat n)) in *.
    assert (Hlt : uProgress (run n) < 1) by (rewrite IHp; nra).
    assert (Hnew : uProgress (run n)
                   + (explosionSpeed (run n) + explosionAcceleration) < 1).
    { rewrite IHp, IHs, Hacc. nra. }
    apply ltb_spec in Hlt. apply geb_false in Hnew.
    rewrite run_S. unfold Assembly.animate. rewrite Hlt, Hnew. simpl.
    rewrite IHp, IHs, Hacc, Hk. split; ring.
Qed.

(** The progress is still below 1 after 85 frames and is clamped to 1 on
    the 86th: [85/1000 + 85*86/8000 = 0.99875] and
    [86/1000 + 86*87/8000 = 1.02125]. *)
Lemma run_85_below : uProgress (run 85) == 0.99875.
Proof.
  destruct (run_closed_form 85) as [Hp _]; [lia|].
  rewrite Hp. reflexivity.
Qed.

Lemma run_86_settled : uProgress (run 86) = 1.
Proof.
  destruct (run_closed_form 85) as [Hp Hs]; [lia|].
  assert (Hacc : explosionAcceleration == 1 # 4000) by reflexivity.
  assert (Hlt : uProgress (run 85) < 1) by (rewrite Hp; reflexivity).
  assert (Hge : 1 <= uProgress (run 85)
                     + (explosionSpeed (run 85) + explosionAcceleration)).
  { rewrite Hp, Hs, Hacc. discriminate. }
  apply ltb_spec in Hlt. apply geb_spec in Hge.
  rewrite (run_S 85). unfold Assembly.animate. rewrite Hlt, Hge. reflexivity.
Qed.

Lemma run_monotone (n : nat) : uProgress (run n) <= uProgress (run (S n)).
Proof. rewrite run_S. apply animate_monotone, run_inv. Qed.

Lemma run_monotone_le (n m : nat) :
  (n <= m)%nat -> uProgress (run n) <= uProgress (run m).
Proof.
  induction 1 as [|m Hle IH]; [lra|].
  pose proof (run_monotone m). lra.
Qed.

Lemma run_settled_from (m n : nat) :
  1 <= uProgress (run m) -> (m <= n)%nat -> run n = run m.
Proof.
  intros Hm Hn. replace n with ((n - m) + m)%nat by lia.
  rewrite run_add. now apply frames_settled.
Qed.

End Animate.

(** C5.  From the state the script starts in, the assembly progress never
    decreases from one frame to the next, is at most 1 at the end of every
    frame, is below 1 for the first 85 frames and exactly 1 from the 86th
    on; and a frame that starts with the progress at 1 (or above) leaves the
    whole animation state, the progress included, as it was. *)
Theorem progress_monotone_saturates (starRandomOffset : Vector3) :
  (forall n, uProgress (run starRandomOffset n)
             <= uProgress (run starRandomOffset (S n))) /\
  (forall n, uProgress (run starRandomOffset n) <= 1) /\
  (forall n, (n < 86)%nat -> uProgress (run starRandomOffset n) < 1) /\
  (forall n, (86 <= n)%nat -> uProgress (run starRandomOffset n) = 1) /\
  (forall n, uProgress (run starRandomOffset n) == 1 ->
             run starRandomOffset (S n) = run starRandomOffset n) /\
  (forall s, 1 <= uProgress s -> animate starRandomOffset s = s).
Proof.
  split; [|split; [|split; [|split; [|split]]]].
  - apply run_monotone.
  - apply run_inv.
  - intros n Hn.
    pose proof (run_monotone_le starRandomOffset n 85 ltac:(lia)) as Hle.
    pose proof (run_85_below starRandomOffset) as H85.
    rewrite H85 in Hle.
    apply Qle_lt_trans with (1 := Hle). reflexivity.
  - intros n Hn.
    rewrite (run_settled_from starRandomOffset 86 n);
      [apply run_86_settled| |exact Hn].
    rewrite run_86_settled. lra.
  - intros n H. rewrite run_S. apply animate_settled. rewrite H. lra.
  - apply animate_settled.
Qed.

(** The theorem at the offset [(3, 20, -7)]: frame 85 is still short of 1,
    frame 86 and frame 1000 are at 1. *)
Lemma progress_monotone_saturates_witness :
  uProgress (run (mkVector3 3 20 (-7)) 85) < 1 /\
  uProgress (run (mkVector3 3 20 (-7)) 86) = 1 /\
  uProgress (run (mkVector3 3 20 (-7)) 1000) = 1.
Proof.
  destruct (progress_monotone_saturates (mkVector3 3 20 (-7)))
    as (_ & _ & Hlt & Heq & _).
  split; [apply Hlt; lia|].
  split; apply Heq; lia.
Defined.

End AssemblyFacts.

(** ** The firework pool *)

Module FireworksFacts.
Import Fireworks.
Local Open Scope Q_scope.

Section Pool.
Context {math : MathLib}.

(** *** The two constructors *)

Lemma createRocket_spec (g : Rng) :
  let r := (createRocket g).1 in
  (createRocket g).2 = mkRng (draws g) (5 + cursor g) /\
  Rocket.y r = 0 /\
  Rocket.targetY r = 8 + draws g (2 + cursor g) * 8 /\
  Rocket.speed r = 0.15 + draws g (4 + cursor g) * 0.1.
Proof. repeat split. Qed.

Lemma createParticle_rng (x y z : Q) (i : nat) (b : Buffers) (g : Rng) :
  (createParticle x y z i b g).2 = mkRng (draws g) (4 + cursor g).
Proof. reflexivity. Qed.

Lemma createParticle_positions (x y z : Q) (i : nat) (b : Buffers) (g : Rng) :
  b_positions (createParticle x y z i b g).1 =
  <[(i * 3 + 2)%nat := z]>
    (<[(i * 3 + 1)%nat := y]> (<[(i * 3)%nat := x]> (b_positions b))).
Proof. reflexivity. Qed.

Lemma createParticle_velocities (x y z : Q) (i : nat) (b : Buffers) (g : Rng) :
  length (b_velocities (createParticle x y z i b g).1) =
  S (length (b_velocities b)).
Proof.
  unfold createParticle, bindG, random, retG; simpl.
  rewrite length_app; simpl. lia.
Qed.

(** What [k] rounds of the particle loop have done. *)
Lemma for_up_createParticle (x y z : Q) (k : nat) (b : Buffers) (g : Rng) :
  let r := for_up k (createParticle x y z) b g in
  r.2 = mkRng (draws g) (4 * k + cursor g) /\
  length (b_positions r.1) = length (b_positions b) /\
  length (b_velocities r.1) = (k + length (b_velocities b))%nat /\
  (forall j, (j < k)%nat -> (j * 3 + 2 < length (b_positions b))%nat ->
     b_positions r.1 !! (j * 3)%nat = Some x /\
     b_positions r.1 !! (j * 3 + 1)%nat = Some y /\
     b_positions r.1 !! (j * 3 + 2)%nat = Some z).
Proof.
  induction k as [|k IH]; cbv zeta.
  - simpl. repeat split; [destruct g; reflexivity | lia..].
  - cbv zeta in IH. destruct IH as (Hg & Hlen & Hvel & Hpos).
    rewrite for_up_S.
    set (r := for_up k (createParticle x y z) b g) in *.
    rewrite createParticle_rng, createParticle_positions,
      createParticle_velocities.
    rewrite !length_insert, Hg, Hlen, Hvel. cbn [draws cursor].
    split; [f_equal; lia|]. split; [reflexivity|]. split; [lia|].
    intros j Hj Hin.
    destruct (decide (j = k)) as [->|Hne].
    + rewrite list_lookup_insert_ne by lia.
      rewrite list_lookup_insert_ne by lia.
      rewrite list_lookup_insert_eq by lia.
      rewrite list_lookup_insert_ne by lia.
      rewrite list_lookup_insert_eq by (rewrite length_insert; lia).
      rewrite list_lookup_insert_eq by (rewrite !length_insert; lia).
      repeat split.
    + rewrite !list_lookup_insert_ne by lia.
      apply Hpos; lia.
Qed.

(** [createExplosion] with its binds unfolded. *)
Lemma createExplosion_eq (x y z : Q) (g : Rng) :
  createExplosion x y z g =
  let r := for_up particleCount (createParticle x y z)
             (mkBuffers (replicate (particleCount * 3) 0) []
                        (replicate (particleCount * 3) 0)) g in
  ({| Explosion.positions := b_positions r.1;
      Explosion.colors := b_colors r.1;
      Explosion.opacity := 1;
      Explosion.velocities := b_velocities r.1;
      Explosion.life := 1;
      Explosion.decay := 0.01 + draws r.2 (cursor r.2) * 0.005 |},
   mkRng (draws r.2) (S (cursor r.2))).
Proof.
  unfold createExplosion, bindG, random, retG. cbv zeta.
  now destruct (for_up particleCount _ _ g).
Qed.

(** [createExplosion(x, y, z)] draws 401 numbers; all of its 100 particles
    start at [(x, y, z)]; its life is 1 and its decay is [0.01] plus [0.005]
    times the last draw. *)
Lemma createExplosion_spec (x y z : Q) (g : Rng) :
  let e := (createExplosion x y z g).1 in
  (createExplosion x y z g).2 = mkRng (draws g) (401 + cursor g) /\
  Explosion.life e = 1 /\
  Explosion.opacity e = 1 /\
  Explosion.decay e = 0.01 + draws g (400 + cursor g) * 0.005 /\
  length (Explosion.velocities e) = particleCount /\
  length (Explosion.positions e) = (particleCount * 3)%nat /\
  (forall j, (j < particleCount)%nat ->
     Explosion.positions e !! (j * 3)%nat = Some x /\
     Explosion.positions e !! (j * 3 + 1)%nat = Some y /\
     Explosion.positions e !! (j * 3 + 2)%nat = Some z).
Proof.
  cbv zeta. rewrite createExplosion_eq. cbv zeta.
  set (b0 := mkBuffers _ _ _).
  pose proof (for_up_createParticle x y z particleCount b0 g) as H.
  cbv zeta in H.
  set (r := for_up particleCount (createParticle x y z) b0 g) in *.
  destruct H as (Hg & Hlen & Hvel & Hpos).
  assert (Hb0 : length (b_positions b0) = (particleCount * 3)%nat).
  { unfold b0. cbn [b_positions]. now rewrite length_replicate. }
  cbn [fst snd Explosion.life Explosion.opacity Explosion.decay
       Explosion.velocities Explosion.positions].
  rewrite Hg. cbn [draws cursor].
  split; [reflexivity|]. split; [reflexivity|]. split; [reflexivity|].
  split; [reflexivity|].
  split; [rewrite Hvel; unfold b0; cbn [b_velocities length]; lia|].
  split; [now rewrite Hlen|].
  intros j Hj. apply Hpos; [assumption|]. rewrite Hb0. lia.
Qed.

(** *** The [explosion] branch *)

(** The particle loop after its first [k] rounds: the particles below [k]
    have moved and slowed down, the others are as they were. *)
Lemma moveParticles_prefix (P : list Q) (V : list Velocity.t) (k : nat) :
  (k <= length V)%nat ->
  let r := fold_left (fun pv j => moveParticle j pv) (seq 0 k) (P, V) in
  length r.2 = length V /\
  (forall j, r.2 !! j = if (j <? k)%nat then dragged <$> V !! j else V !! j) /\
  (forall j c v, (c < 3)%nat -> V !! j = Some v ->
     r.1 !! (j * 3 + c)%nat =
       if (j <? k)%nat
       then (fun p => p + displacement c v) <$> P !! (j * 3 + c)%nat
       else P !! (j * 3 + c)%nat).
Proof.
  induction k as [|k IH]; intros Hk; cbv zeta.
  - simpl. repeat split.
  - rewrite seq_S, fold_left_app. cbn [fold_left Nat.add].
    cbv zeta in IH. destruct IH as (Hlen & Hvel & Hpos); [lia|].
    destruct (fold_left _ (seq 0 k) (P, V)) as [P' V'].
    cbn [fst snd] in *.
    destruct (lookup_lt_is_Some_2 V k ltac:(lia)) as [vk Hvk].
    assert (Hvk' : V' !! k = Some vk).
    { rewrite Hvel. rewrite (proj2 (Nat.ltb_ge k k)) by lia. exact Hvk. }
    unfold moveParticle. rewrite Hvk'. cbn [fst snd].
    split; [now rewrite length_insert|]. split.
    + intros j. destruct (decide (j = k)) as [->|Hne].
      * rewrite list_lookup_insert_eq by lia.
        rewrite (proj2 (Nat.ltb_lt k (S k))) by lia. now rewrite Hvk.
      * rewrite list_lookup_insert_ne by lia. rewrite Hvel.
        destruct (j <? k)%nat eqn:E1, (j <? S k)%nat eqn:E2;
          try reflexivity;
          [apply Nat.ltb_lt in E1; apply Nat.ltb_ge in E2
          |apply Nat.ltb_ge in E1; apply Nat.ltb_lt in E2]; lia.
    + intros j c v Hc Hv. destruct (decide (j = k)) as [->|Hne].
      * rewrite (proj2 (Nat.ltb_lt k (S k))) by lia.
        assert (v = vk) by congruence. subst v.
        pose proof (Hpos k) as Hk'.
        destruct c as [|[|[|c]]]; [| | |lia].
        -- rewrite list_lookup_alter_ne by lia.
           rewrite list_lookup_alter_ne by lia.
           replace (k * 3 + 0)%nat with (k * 3)%nat by lia.
           rewrite list_lookup_alter_eq.
           specialize (Hk' 0%nat vk ltac:(lia) Hvk).
           rewrite (proj2 (Nat.ltb_ge k k)) in Hk' by lia.
           replace (k * 3 + 0)%nat with (k * 3)%nat in Hk' by lia.
           now rewrite Hk'.
        -- rewrite list_lookup_alter_ne by lia.
           rewrite list_lookup_alter_eq.
           rewrite list_lookup_alter_ne by lia.
           specialize (Hk' 1%nat vk ltac:(lia) Hvk).
           rewrite (proj2 (Nat.ltb_ge k k)) in Hk' by lia.
           now rewrite Hk'.
        -- rewrite list_lookup_alter_eq.
           rewrite list_lookup_alter_ne by lia.
           rewrite list_lookup_alter_ne by lia.
           specialize (Hk' 2%nat vk ltac:(lia) Hvk).
           rewrite (proj2 (Nat.ltb_ge k k)) in Hk' by lia.
           now rewrite Hk'.
      * rewrite !list_lookup_alter_ne by lia.
        rewrite (Hpos j c v Hc Hv).
        destruct (j <? k)%nat eqn:E1, (j <? S k)%nat eqn:E2;
          try reflexivity;
          [apply Nat.ltb_lt in E1; apply Nat.ltb_ge in E2
          |apply Nat.ltb_ge in E1; apply Nat.ltb_lt in E2]; lia.
Qed.

(** The whole particle loop. *)
Lemma moveParticles_spec (P : list Q) (V : list Velocity.t) :
  length (moveParticles P V).2 = length V /\
  (forall j, (moveParticles P V).2 !! j = dragged <$> V !! j) /\
  (forall j c v, (c < 3)%nat -> V !! j = Some v ->
     (moveParticles P V).1 !! (j * 3 + c)%nat =
       (fun p => p + displacement c v) <$> P !! (j * 3 + c)%nat).
Proof.
  unfold moveParticles.
  destruct (moveParticles_prefix P V (length V) ltac:(lia))
    as (Hlen & Hvel & Hpos).
  split; [exact Hlen|]. split.
  - intros j. rewrite Hvel. destruct (j <? length V)%nat eqn:E; [reflexivity|].
    apply Nat.ltb_ge in E. now rewrite (lookup_ge_None_2 V j).
  - intros j c v Hc Hv. rewrite (Hpos j c v Hc Hv).
    apply lookup_lt_Some in Hv.
    now rewrite (proj2 (Nat.ltb_lt j (length V))).
Qed.

Lemma burst_life (e : Explosion.t) :
  Explosion.life (burst e) = Explosion.life e - Explosion.decay e /\
  Explosion.opacity (burst e) = Explosion.life (burst e) /\
  Explosion.decay (burst e) = Explosion.decay e.
Proof. repeat split. Qed.

Lemma burst_velocities (e : Explosion.t) (j : nat) :
  Explosion.velocities (burst e) !! j =
  dragged <$> Explosion.velocities e !! j.
Proof.
  unfold burst. cbn [Explosion.velocities].
  apply (moveParticles_spec (Explosion.positions e) (Explosion.velocities e)).
Qed.

Lemma burst_positions (e : Explosion.t) (j c : nat) (v : Velocity.t) :
  (c < 3)%nat -> Explosion.velocities e !! j = Some v ->
  Explosion.positions (burst e) !! (j * 3 + c)%nat =
  (fun p => p + displacement c v) <$> Explosion.positions e !! (j * 3 + c)%nat.
Proof.
  unfold burst. cbn [Explosion.positions].
  apply (moveParticles_spec (Explosion.positions e) (Explosion.velocities e)).
Qed.

(** *** One round of the loop of [updateFireworks] *)

Lemma delete_insert_same {A : Type} (l : list A) (i : nat) (a : A) :
  delete i (<[i := a]> l) = delete i l.
Proof.
  revert i. induction l as [|b l IH]; intros [|i]; simpl; try reflexivity.
  now rewrite IH.
Qed.

(** The round at index [i], by what the entry there is and does. *)
Lemma updateAt_eq (i : nat) (w : World) :
  updateAt i w =
  match fireworks w !! i with
  | None => None
  | Some (rocket r) =>
      if reaches r then
        let eg := createExplosion (Rocket.x (ascend r)) (Rocket.y (ascend r))
                                  (Rocket.z (ascend r)) (rng w) in
        Some (tt, mkWorld eg.2 (delete i (fireworks w) ++ [explosion eg.1]))
      else
        Some (tt, mkWorld (rng w) (<[i := rocket (ascend r)]> (fireworks w)))
  | Some (explosion e) =>
      if fades e then Some (tt, mkWorld (rng w) (delete i (fireworks w)))
      else
        Some (tt, mkWorld (rng w) (<[i := explosion (burst e)]> (fireworks w)))
  end.
Proof.
  unfold updateAt, bind, pool_get.
  destruct (fireworks w !! i) as [[r|e]|]; [| |reflexivity].
  - unfold pool_set at 1. cbv zeta. fold (reaches r).
    destruct (reaches r).
    + unfold pool_splice, lift, pool_push. cbn [rng fireworks].
      rewrite delete_insert_same.
      now destruct (createExplosion _ _ _ (rng w)).
    + reflexivity.
  - unfold pool_set at 1. cbv zeta. fold (fades e).
    destruct (fades e).
    + unfold pool_splice. cbn [rng fireworks].
      now rewrite delete_insert_same.
    + reflexivity.
Qed.

Lemma for_down_S (i : nat) (body : nat -> M unit) (w : World) :
  for_down (S i) body w =
  match body i w with
  | Some (_, w') => for_down i body w'
  | None => None
  end.
Proof. simpl. unfold bind. now destruct (body i w) as [[[] w']|]. Qed.

Lemma pushed_app (l1 l2 : list Firework) (g : Rng) :
  pushed (l1 ++ l2) g =
  ((pushed l1 g).1 ++ (pushed l2 (pushed l1 g).2).1,
   (pushed l2 (pushed l1 g).2).2).
Proof.
  revert g. induction l1 as [|[r|e] l1 IH]; intros g; cbn [app pushed].
  - unfold retG. cbn [fst snd app]. now destruct (pushed l2 g).
  - destruct (reaches r); [|apply IH].
    unfold bindG, retG.
    destruct (createExplosion _ _ _ g) as [e1 g1].
    rewrite IH.
    destruct (pushed l1 g1) as [es1 g2]. cbn [fst snd].
    now destruct (pushed l2 g2).
  - apply IH.
Qed.

(** The loop refines [survive] and [pushed]: run over the first
    [length pre] entries of the array [pre ++ suf], it leaves the entries of
    [pre] that survive, then [suf] untouched, then the explosions pushed for
    the rockets of [pre], last index first.  It does not throw. *)
Lemma for_down_updateAt (pre suf : list Firework) (g : Rng) :
  for_down (length pre) updateAt (mkWorld g (pre ++ suf)) =
  Some (tt, mkWorld (pushed (rev pre) g).2
                    (omap survive pre ++ suf ++ (pushed (rev pre) g).1)).
Proof.
  revert suf g. induction pre as [|fw pre IH] using rev_ind; intros suf g.
  - simpl. unfold ret, retG. cbn [fst snd]. now rewrite app_nil_r.
  - rewrite length_app. cbn [length]. rewrite Nat.add_1_r, for_down_S.
    rewrite updateAt_eq. cbn [fireworks rng].
    rewrite <- app_assoc. cbn [app].
    rewrite list_lookup_middle by reflexivity.
    rewrite rev_app_distr. cbn [rev app].
    rewrite omap_app.
    change (omap survive [fw])
      with (match survive fw with Some fw' => [fw'] | None => [] end).
    destruct fw as [r|e]; cbn [survive pushed].
    + destruct (reaches r).
      * cbv zeta. rewrite delete_middle.
        unfold bindG, retG.
        destruct (createExplosion _ _ _ g) as [e1 g1]. cbn [fst snd].
        rewrite <- app_assoc, IH.
        destruct (pushed (rev pre) g1) as [es g2]. cbn [fst snd].
        now rewrite app_nil_r, <- !app_assoc.
      * rewrite insert_app_r_alt by lia. rewrite Nat.sub_diag. cbn [insert].
        change (<[0%nat := rocket (ascend r)]> (rocket r :: suf))
          with (rocket (ascend r) :: suf).
        rewrite IH. now rewrite <- !app_assoc.
    + destruct (fades e).
      * rewrite delete_middle, IH. now rewrite app_nil_r.
      * rewrite insert_app_r_alt by lia. rewrite Nat.sub_diag.
        change (<[0%nat := explosion (burst e)]> (explosion e :: suf))
          with (explosion (burst e) :: suf).
        rewrite IH. now rewrite <- !app_assoc.
Qed.

(** The whole loop. *)
Lemma updateAll_eq (w : World) :
  updateAll w =
  Some (tt, mkWorld (pushed (rev (fireworks w)) (rng w)).2
                    (omap survive (fireworks w)
                     ++ (pushed (rev (fireworks w)) (rng w)).1)).
Proof.
  unfold updateAll, bind, pool_length.
  pose proof (for_down_updateAt (fireworks w) [] (rng w)) as H.
  rewrite app_nil_r in H. destruct w as [g pool]. cbn [fireworks rng] in *.
  rewrite H. reflexivity.
Qed.

(** *** The frame *)

Lemma spawn_eq (rate : Q) (w : World) :
  spawn rate w =
  let u := draws (rng w) (cursor (rng w)) in
  let g := mkRng (draws (rng w)) (S (cursor (rng w))) in
  if ltb u rate && (length (fireworks w) <? 8)%nat then
    Some (tt, mkWorld (createRocket g).2
                      (fireworks w ++ [rocket (createRocket g).1]))
  else Some (tt, mkWorld g (fireworks w)).
Proof.
  unfold spawn, bind, lift, random, pool_length. cbn [fst snd rng fireworks].
  destruct (ltb _ rate && _); reflexivity.
Qed.

Lemma spawn_length (rate : Q) (w : World) :
  exists w', spawn rate w = Some (tt, w') /\
    (length (fireworks w') <= Nat.max (length (fireworks w)) 8)%nat /\
    (length (fireworks w) <= length (fireworks w'))%nat.
Proof.
  rewrite spawn_eq. cbv zeta.
  destruct (ltb _ rate) ; cbn [andb].
  - destruct (length (fireworks w) <? 8)%nat eqn:E.
    + apply Nat.ltb_lt in E. eexists; split; [reflexivity|].
      cbn [fireworks]. rewrite length_app. cbn [length]. lia.
    + eexists; split; [reflexivity|]. cbn [fireworks]. lia.
  - eexists; split; [reflexivity|]. cbn [fireworks]. lia.
Qed.

(** The entries the loop keeps and the explosions it pushes are together
    no more than the entries it visits. *)
Lemma pushed_length (l : list Firework) (g : Rng) :
  length (pushed l g).1 = length (List.filter bursting l).
Proof.
  revert g. induction l as [|[r|e] l IH]; intros g; cbn [pushed List.filter].
  - reflexivity.
  - cbn [bursting]. destruct (reaches r); [|apply IH].
    unfold bindG, retG. destruct (createExplosion _ _ _ g) as [e1 g1].
    specialize (IH g1). destruct (pushed l g1) as [es g2].
    cbn [fst length] in *. now rewrite IH.
  - cbn [bursting]. apply IH.
Qed.

Lemma survive_bursting_length (l : list Firework) :
  (length (omap survive l) + length (List.filter bursting l)
   <= length l)%nat.
Proof.
  induction l as [|[r|e] l IH]; cbn [omap list_omap List.filter length];
    [lia| |].
  - cbn [survive bursting]. destruct (reaches r); cbn [length]; lia.
  - cbn [survive bursting]. destruct (fades e); cbn [length]; lia.
Qed.

Lemma filter_rev_length {A : Type} (p : A -> bool) (l : list A) :
  length (List.filter p (rev l)) = length (List.filter p l).
Proof.
  induction l as [|a l IH]; [reflexivity|].
  cbn [rev List.filter]. rewrite List.filter_app, length_app, IH.
  cbn [List.filter]. destruct (p a); cbn [length]; lia.
Qed.

Lemma updateAll_length (w : World) :
  exists w', updateAll w = Some (tt, w') /\
             (length (fireworks w') <= length (fireworks w))%nat.
Proof.
  rewrite updateAll_eq. eexists; split; [reflexivity|].
  cbn [fireworks]. rewrite length_app, pushed_length, filter_rev_length.
  apply survive_bursting_length.
Qed.

Lemma updateFireworks_length (rate : Q) (w : World) :
  exists w', updateFireworks rate w = Some (tt, w') /\
    (length (fireworks w') <= Nat.max (length (fireworks w)) 8)%nat.
Proof.
  unfold updateFireworks, bind.
  destruct (spawn_length rate w) as (w1 & -> & H1 & _).
  destruct (updateAll_length w1) as (w2 & -> & H2).
  exists w2. split; [reflexivity|]. lia.
Qed.

Lemma run_length (rates : list Q) (w : World) :
  (length (fireworks w) <= 8)%nat ->
  exists w', run rates w = Some (tt, w') /\
             (length (fireworks w') <= 8)%nat.
Proof.
  revert w. induction rates as [|rate rates IH]; intros w Hw.
  - exists w. split; [reflexivity|assumption].
  - cbn [run]. unfold bind.
    destruct (updateFireworks_length rate w) as (w1 & -> & H1).
    apply IH. lia.
Qed.

(** *** What the frame pushes and keeps *)

Lemma createExplosion_bursts_into (r : Rocket.t) (g : Rng) :
  bursts_into r
    (createExplosion (Rocket.x (ascend r)) (Rocket.y (ascend r))
                     (Rocket.z (ascend r)) g).1.
Proof.
  destruct (createExplosion_spec (Rocket.x (ascend r)) (Rocket.y (ascend r))
              (Rocket.z (ascend r)) g) as (_ & Hl & _ & _ & Hv & _ & Hp).
  split; [exact Hl|]. split; [exact Hv|exact Hp].
Qed.

Lemma createExplosion_sound (x y z : Q) (g : Rng) :
  unit_draws g -> sound (explosion (createExplosion x y z g).1).
Proof.
  intros Hg.
  destruct (createExplosion_spec x y z g) as (_ & Hl & _ & Hd & _).
  cbn [sound]. rewrite Hl, Hd.
  destruct (Hg (400 + cursor g)%nat) as [H0 H1].
  repeat split; lra.
Qed.

Lemma createRocket_sound (g : Rng) :
  unit_draws g -> sound (rocket (createRocket g).1).
Proof.
  intros Hg. cbn.
  destruct (Hg (S (S (cursor g)))) as [H0 H1].
  destruct (Hg (S (S (S (S (cursor g)))))) as [H2 H3].
  split; lra.
Qed.

Lemma createExplosion_draws (x y z : Q) (g : Rng) :
  draws (createExplosion x y z g).2 = draws g.
Proof.
  destruct (createExplosion_spec x y z g) as (-> & _). reflexivity.
Qed.

(** The rocket branch and the explosion branch keep an entry sound. *)
Lemma survive_sound (fw fw' : Firework) :
  sound fw -> survive fw = Some fw' -> sound fw'.
Proof.
  destruct fw as [r|e]; cbn [survive sound].
  - intros [Hy Hs]. destruct (reaches r) eqn:E; [discriminate|].
    intros [= <-]. apply geb_false in E. cbn in *. split; lra.
  - intros (H0 & H1 & Hd0 & Hd1). destruct (fades e) eqn:E; [discriminate|].
    intros [= <-]. apply leb_false in E. cbn in *. repeat split; lra.
Qed.

Lemma pushed_draws (l : list Firework) (g : Rng) :
  draws (pushed l g).2 = draws g.
Proof.
  revert g. induction l as [|[r|e] l IH]; intros g; cbn [pushed].
  - reflexivity.
  - destruct (reaches r); [|apply IH].
    unfold bindG, retG.
    pose proof (createExplosion_draws (Rocket.x (ascend r))
                  (Rocket.y (ascend r)) (Rocket.z (ascend r)) g) as Hd.
    destruct (createExplosion _ _ _ g) as [e1 g1]. cbn [snd] in Hd.
    specialize (IH g1). destruct (pushed l g1) as [es g2].
    cbn [snd] in *. congruence.
  - apply IH.
Qed.

(** One explosion is pushed for each rocket that reaches its target, in the
    order of the visits, and it is where that rocket was. *)
Lemma pushed_burst_of (l : list Firework) (g : Rng) :
  Forall2 burst_of (List.filter bursting l) (pushed l g).1.
Proof.
  revert g. induction l as [|[r|e] l IH]; intros g; cbn [pushed List.filter].
  - constructor.
  - cbn [bursting]. destruct (reaches r); [|apply IH].
    unfold bindG, retG.
    pose proof (createExplosion_bursts_into r g) as Hb.
    destruct (createExplosion _ _ _ g) as [e1 g1]. cbn [fst] in Hb.
    specialize (IH g1). destruct (pushed l g1) as [es g2]. cbn [fst] in *.
    constructor; [exact Hb|exact IH].
  - cbn [bursting]. apply IH.
Qed.

Lemma pushed_sound (l : list Firework) (g : Rng) :
  unit_draws g -> Forall sound (pushed l g).1.
Proof.
  revert g. induction l as [|[r|e] l IH]; intros g Hg; cbn [pushed].
  - constructor.
  - destruct (reaches r); [|now apply IH].
    unfold bindG, retG.
    pose proof (createExplosion_sound (Rocket.x (ascend r))
                  (Rocket.y (ascend r)) (Rocket.z (ascend r)) g Hg) as Hs.
    pose proof (createExplosion_draws (Rocket.x (ascend r))
                  (Rocket.y (ascend r)) (Rocket.z (ascend r)) g) as Hd.
    destruct (createExplosion _ _ _ g) as [e1 g1]. cbn [fst snd] in *.
    assert (Hg1 : unit_draws g1) by (intros k; rewrite Hd; apply Hg).
    specialize (IH g1 Hg1). destruct (pushed l g1) as [es g2].
    cbn [fst] in *. constructor; assumption.
  - now apply IH.
Qed.

Lemma omap_survive_sound (l : list Firework) :
  Forall sound l -> Forall sound (omap survive l).
Proof.
  induction 1 as [|fw l Hfw Hl IH]; cbn [omap list_omap]; [constructor|].
  destruct (survive fw) as [fw'|] eqn:E; [|exact IH].
  constructor; [|exact IH]. eapply survive_sound; eassumption.
Qed.

(** *** Frames, entry by entry *)

Lemma omap_survive_frames_S (n : nat) (l : list Firework) :
  omap (survive_frames (S n)) l = omap (survive_frames n) (omap survive l).
Proof.
  induction l as [|fw l IH]; [reflexivity|].
  cbn [omap list_omap survive_frames] in *.
  destruct (survive fw) as [fw'|]; cbn [omap list_omap]; now rewrite IH.
Qed.

Lemma survive_frames_sound (n : nat) (fw fw' : Firework) :
  sound fw -> survive_frames n fw = Some fw' -> sound fw'.
Proof.
  revert fw. induction n as [|n IH]; intros fw Hs; cbn [survive_frames].
  - now intros [= <-].
  - destruct (survive fw) as [fw1|] eqn:E; [|discriminate].
    apply IH. eapply survive_sound; eassumption.
Qed.

(** A frame leaves the entries of the array that survive it, in their
    order, followed by the entries it made: the explosions pushed for the
    rockets that reached their target and, when it spawned one, the new
    rocket. *)
Lemma updateFireworks_decompose (rate : Q) (w : World) :
  exists (newer : list Firework) (g' : Rng),
    updateFireworks rate w
      = Some (tt, mkWorld g' (omap survive (fireworks w) ++ newer)) /\
    draws g' = draws (rng w) /\
    (unit_draws (rng w) -> Forall sound newer).
Proof.
  unfold updateFireworks, bind. rewrite spawn_eq. cbv zeta.
  set (g1 := mkRng (draws (rng w)) (S (cursor (rng w)))).
  destruct (ltb _ rate && _).
  - rewrite updateAll_eq. cbn [fireworks rng].
    pose proof (createRocket_spec g1) as (Hg2 & _).
    set (rk := (createRocket g1).1) in *.
    set (g2 := (createRocket g1).2) in *.
    rewrite omap_app, <- app_assoc.
    eexists _, _. split; [reflexivity|]. split.
    + rewrite pushed_draws, Hg2. reflexivity.
    + intros Hg. apply Forall_app. split.
      * apply omap_survive_sound. constructor; [|constructor].
        apply createRocket_sound. intros k. apply Hg.
      * apply pushed_sound. intros k. rewrite Hg2. apply Hg.
  - rewrite updateAll_eq. cbn [fireworks rng].
    eexists _, _. split; [reflexivity|]. split.
    + now rewrite pushed_draws.
    + intros Hg. apply pushed_sound. intros k. apply Hg.
Qed.

(** The same over any number of frames. *)
Lemma run_decompose (rates : list Q) (w : World) :
  exists (newer : list Firework) (g' : Rng),
    run rates w
      = Some (tt, mkWorld g'
                    (omap (survive_frames (length rates)) (fireworks w)
                     ++ newer)) /\
    draws g' = draws (rng w) /\
    (unit_draws (rng w) -> Forall sound newer).
Proof.
  revert w. induction rates as [|rate rates IH]; intros w.
  - exists [], (rng w). cbn [run length]. unfold ret.
    split; [|split; [reflexivity|constructor]].
    destruct w as [g pool]. cbn [fireworks rng survive_frames].
    f_equal. f_equal. f_equal. rewrite app_nil_r.
    induction pool as [|fw pool IHp]; [reflexivity|].
    cbn [omap list_omap]. now rewrite <- IHp.
  - cbn [run length]. unfold bind.
    destruct (updateFireworks_decompose rate w) as (n1 & g1 & -> & Hd1 & Hs1).
    destruct (IH (mkWorld g1 (omap survive (fireworks w) ++ n1)))
      as (n2 & g2 & -> & Hd2 & Hs2).
    cbn [fireworks rng] in *.
    rewrite omap_app, <- app_assoc, <- omap_survive_frames_S.
    eexists _, _. split; [reflexivity|]. split; [congruence|].
    intros Hg. apply Forall_app. split.
    + apply Forall_forall. intros fw Hin.
      apply list_elem_of_omap in Hin.
      destruct Hin as (fw0 & Hin0 & Hfw).
      eapply survive_frames_sound; [|exact Hfw].
      apply Hs1 in Hg. rewrite Forall_forall in Hg. apply Hg. exact Hin0.
    + apply Hs2. intros k. rewrite Hd1. apply Hg.
Qed.

(** Every entry of the pool is sound, in every frame, when the script
    starts with an empty pool and the draws are in range. *)
Lemma run_sound (rates : list Q) (g : Rng) :
  unit_draws g ->
  exists w', run rates (start g) = Some (tt, w') /\
             Forall sound (fireworks w') /\ unit_draws (rng w').
Proof.
  intros Hg.
  destruct (run_decompose rates (start g)) as (newer & g' & -> & Hd & Hs).
  eexists. split; [reflexivity|]. cbn [fireworks rng start omap list_omap].
  split; [now apply Hs|].
  intros k. cbn [start rng] in Hd. rewrite Hd. apply Hg.
Qed.

(** *** The life of an explosion *)

Lemma age_S (n : nat) (e : Explosion.t) :
  age (S n) e = if fades e then None else age n (burst e).
Proof. reflexivity. Qed.

Lemma fades_spec (e : Explosion.t) :
  fades e = true <-> Explosion.life e - Explosion.decay e <= 0.
Proof. unfold fades. rewrite leb_spec. reflexivity. Qed.

Lemma fades_false (e : Explosion.t) :
  fades e = false <-> 0 < Explosion.life e - Explosion.decay e.
Proof. unfold fades. rewrite leb_false. reflexivity. Qed.

Lemma age_life (n : nat) (e e' : Explosion.t) :
  age n e = Some e' ->
  Explosion.life e' ==
    Explosion.life e - inject_Z (Z.of_nat n) * Explosion.decay e /\
  Explosion.decay e' = Explosion.decay e.
Proof.
  revert e. induction n as [|n IH]; intros e.
  - intros [= <-]. split; [|reflexivity]. cbn. ring.
  - rewrite age_S. destruct (fades e); [discriminate|].
    intros H. apply IH in H. destruct H as [Hl Hd].
    rewrite Hl, Hd, inject_nat_succ. cbn [burst Explosion.life Explosion.decay].
    split; [ring|reflexivity].
Qed.

Lemma age_opacity (n : nat) (e e' : Explosion.t) :
  (1 <= n)%nat -> age n e = Some e' ->
  Explosion.opacity e' = Explosion.life e'.
Proof.
  revert e. induction n as [|n IH]; intros e Hn; [lia|].
  rewrite age_S. destruct (fades e); [discriminate|].
  destruct n as [|n].
  - intros [= <-]. reflexivity.
  - apply IH. lia.
Qed.

(** An explosion with a positive decay is still in the array after [n]
    rounds exactly when [n] decrements leave its life positive. *)
Lemma age_None_iff (n : nat) (e : Explosion.t) :
  0 < Explosion.decay e -> (1 <= n)%nat ->
  (age n e = None <->
   Explosion.life e - inject_Z (Z.of_nat n) * Explosion.decay e <= 0).
Proof.
  intros Hd. revert e Hd. induction n as [|n IH]; intros e Hd Hn; [lia|].
  rewrite age_S, inject_nat_succ.
  destruct (inject_nat_bounds n n (le_n n)) as [Hn0 _].
  destruct (fades e) eqn:E.
  - apply fades_spec in E. split; [intros _|reflexivity]. nra.
  - apply fades_false in E. destruct n as [|n].
    + cbn [age]. split; [discriminate|]. intros H. exfalso.
      change (inject_Z (Z.of_nat 0)) with 0 in H. lra.
    + rewrite IH by (first [exact Hd|lia]).
      cbn [burst Explosion.life Explosion.decay].
      split; intros H; lra.
Qed.

Lemma age_None_mono (n m : nat) (e : Explosion.t) :
  (n <= m)%nat -> age n e = None -> age m e = None.
Proof.
  revert m e. induction n as [|n IH]; intros m e Hm; [discriminate|].
  destruct m as [|m]; [lia|]. rewrite !age_S.
  destruct (fades e); [reflexivity|]. apply IH. lia.
Qed.

(** Between a round the explosion outlives and a round it does not, there
    is the round that removes it. *)
Lemma age_last_round (a b : nat) (e : Explosion.t) :
  (a <= b)%nat -> is_Some (age a e) -> age b e = None ->
  exists n, (a < n <= b)%nat /\ is_Some (age (n - 1) e) /\ age n e = None.
Proof.
  intros Hab Ha. induction Hab as [|b Hab IH]; intros Hb.
  - rewrite Hb in Ha. destruct Ha; discriminate.
  - destruct (age b e) as [eb|] eqn:E.
    + exists (S b). split; [lia|].
      replace (S b - 1)%nat with b by lia. rewrite E. split; [eauto|exact Hb].
    + destruct (IH eq_refl) as (n & Hn & Hs & Hnone).
      exists n. split; [lia|]. split; assumption.
Qed.

Lemma survive_frames_explosion (n : nat) (e : Explosion.t) :
  survive_frames n (explosion e) = explosion <$> age n e.
Proof.
  revert e. induction n as [|n IH]; intros e; [reflexivity|].
  cbn [survive_frames survive]. rewrite age_S.
  destruct (fades e); [reflexivity|apply IH].
Qed.

Lemma age_velocities (n : nat) (e e' : Explosion.t) (j : nat)
  (v : Velocity.t) :
  age n e = Some e' -> Explosion.velocities e !! j = Some v ->
  exists v', Explosion.velocities e' !! j = Some v' /\
    Velocity.x v' == Velocity.x v * 0.97 ^ Z.of_nat n /\
    Velocity.y v' == Velocity.y v * 0.97 ^ Z.of_nat n /\
    Velocity.z v' == Velocity.z v * 0.97 ^ Z.of_nat n.
Proof.
  revert e v. induction n as [|n IH]; intros e v.
  - intros [= <-] Hv. exists v. split; [exact Hv|].
    change (0.97 ^ Z.of_nat 0) with 1. repeat split; ring.
  - rewrite age_S. destruct (fades e); [discriminate|].
    intros Hage Hv.
    assert (Hv1 : Explosion.velocities (burst e) !! j = Some (dragged v)).
    { rewrite burst_velocities, Hv. reflexivity. }
    destruct (IH _ _ Hage Hv1) as (v' & Hv' & Hx & Hy & Hz).
    exists v'. split; [exact Hv'|].
    rewrite Nat2Z.inj_succ. unfold Z.succ.
    rewrite Qpower_plus by discriminate.
    rewrite Hx, Hy, Hz. cbn [dragged Velocity.x Velocity.y Velocity.z].
    change (0.97 ^ 1) with 0.97.
    repeat split; ring.
Qed.

(** Every entry of a pool the script can be in is sound. *)
Lemma reachable_sound (rates : list Q) (g : Rng) (w : World) (i : nat)
  (fw : Firework) :
  unit_draws g -> run rates (start g) = Some (tt, w) ->
  fireworks w !! i = Some fw ->
  sound fw.
Proof.
  intros Hg Hrun Hi.
  destruct (run_sound rates g Hg) as (w' & Hrun' & Hs & _).
  rewrite Hrun in Hrun'. injection Hrun' as <-.
  eapply Forall_lookup_1; eassumption.
Qed.

(** *** A rocket that reaches its target, in its frame *)

Lemma reaches_spec (r : Rocket.t) :
  reaches r = true <-> Rocket.targetY r <= Rocket.y r + Rocket.speed r.
Proof. unfold reaches. rewrite geb_spec. reflexivity. Qed.

(** The loop run on an array that holds the rocket [r], which reaches its
    target, between [pre] and [suf]: the rocket is not among the entries
    kept, and one explosion is pushed for it, after those pushed for [suf]
    and before those pushed for [pre]. *)
Lemma updateAll_bursting_rocket (pre suf : list Firework) (r : Rocket.t)
  (g : Rng) :
  reaches r = true ->
  let g1 := (pushed (rev suf) g).2 in
  let eg := createExplosion (Rocket.x r) (Rocket.y r + Rocket.speed r)
                            (Rocket.z r) g1 in
  updateAll (mkWorld g (pre ++ rocket r :: suf)) =
  Some (tt, mkWorld (pushed (rev pre) eg.2).2
              (omap survive pre ++ omap survive suf
               ++ (pushed (rev suf) g).1
               ++ explosion eg.1 :: (pushed (rev pre) eg.2).1)).
Proof.
  intros Hr. cbv zeta. rewrite updateAll_eq. cbn [fireworks rng].
  rewrite rev_app_distr. cbn [rev]. rewrite <- app_assoc. cbn [app].
  rewrite pushed_app.
  destruct (pushed (rev suf) g) as [es1 g1]. cbn [fst snd pushed].
  rewrite Hr. unfold bindG, retG.
  change (Rocket.x (ascend r)) with (Rocket.x r).
  change (Rocket.y (ascend r)) with (Rocket.y r + Rocket.speed r).
  change (Rocket.z (ascend r)) with (Rocket.z r).
  destruct (createExplosion _ _ _ g1) as [e g2]. cbn [fst snd].
  destruct (pushed (rev pre) g2) as [es2 g3]. cbn [fst snd].
  rewrite omap_app.
  change (omap survive (rocket r :: suf))
    with (match survive (rocket r) with
          | Some fw => fw :: omap survive suf
          | None => omap survive suf
          end).
  cbn [survive]. rewrite Hr. now rewrite <- !app_assoc.
Qed.

(** C2, as the code has it.  When the rocket [r] at index [i] rises to its
    target or above, its round of the loop splices it out and pushes, in
    its place in the count, one explosion, all of whose particles start at
    [(r.x, r.y + r.speed, r.z)]: the height the rocket has risen to, which
    is the target or above it, by less than [r.speed] in every pool the
    script can reach, where a rocket is below its target at the start of a
    frame.  The length of the array is unchanged.  At the end of
    the loop the array holds the surviving entries other than the rocket
    and one explosion for it, among those pushed for the other rockets. *)
Theorem rocket_bursts_where_it_is (w : World) (i : nat) (r : Rocket.t) :
  fireworks w !! i = Some (rocket r) ->
  Rocket.targetY r <= Rocket.y r + Rocket.speed r ->
  let eg := createExplosion (Rocket.x r) (Rocket.y r + Rocket.speed r)
                            (Rocket.z r) (rng w) in
  updateAt i w
    = Some (tt, mkWorld eg.2 (delete i (fireworks w) ++ [explosion eg.1])) /\
  length (delete i (fireworks w) ++ [explosion eg.1])
    = length (fireworks w) /\
  bursts_into r eg.1 /\
  (forall rates g w0,
     unit_draws g -> run rates (start g) = Some (tt, w0) ->
     fireworks w0 !! i = Some (rocket r) ->
     Rocket.y r < Rocket.targetY r /\
     Rocket.y r + Rocket.speed r < Rocket.targetY r + Rocket.speed r) /\
  survive (rocket r) = None /\
  exists (es1 es2 : list Firework) (e : Explosion.t) (g' : Rng),
    updateAll w
      = Some (tt, mkWorld g'
                    (omap survive (take i (fireworks w))
                     ++ omap survive (drop (S i) (fireworks w))
                     ++ es1 ++ explosion e :: es2)) /\
    bursts_into r e /\
    Forall2 burst_of
      (List.filter bursting (rev (drop (S i) (fireworks w)))) es1 /\
    Forall2 burst_of (List.filter bursting (rev (take i (fireworks w)))) es2.
Proof.
  intros Hi Hy. apply reaches_spec in Hy. cbv zeta.
  split; [|split; [|split; [|split; [|split]]]].
  - rewrite updateAt_eq, Hi, Hy. reflexivity.
  - rewrite length_app, length_delete by eauto. cbn [length].
    apply lookup_lt_Some in Hi. lia.
  - apply (createExplosion_bursts_into r (rng w)).
  - intros rates g w0 Hg Hrun Hi0.
    destruct (reachable_sound rates g w0 i (rocket r) Hg Hrun Hi0) as [H _].
    lra.
  - cbn [survive]. now rewrite Hy.
  - pose proof (updateAll_bursting_rocket (take i (fireworks w))
                  (drop (S i) (fireworks w)) r (rng w) Hy) as H.
    cbv zeta in H. rewrite take_drop_middle in H by exact Hi.
    destruct w as [g pool]. cbn [fireworks rng] in *.
    eexists _, _, _, _. split; [exact H|].
    split; [apply (createExplosion_bursts_into r)|].
    split; apply pushed_burst_of.
Qed.

(** *** An explosion in the pool *)

Lemma age_S_last (n : nat) (e : Explosion.t) :
  age (S n) e =
  match age n e with
  | Some e' => if fades e' then None else Some (burst e')
  | None => None
  end.
Proof.
  revert e. induction n as [|n IH]; intros e; [reflexivity|].
  rewrite age_S. destruct (fades e) eqn:E.
  - rewrite age_S, E. reflexivity.
  - rewrite IH. rewrite (age_S n e), E. reflexivity.
Qed.

(** Any number of frames run on an array that holds the entry [fw] between
    [pre] and [suf]: what is left of [pre], then of [fw], then of [suf],
    then the entries made since. *)
Lemma run_around (rates : list Q) (pre suf : list Firework) (fw : Firework)
  (g : Rng) :
  exists (newer : list Firework) (g' : Rng),
    run rates (mkWorld g (pre ++ fw :: suf))
    = Some (tt, mkWorld g'
                  (omap (survive_frames (length rates)) pre
                   ++ match survive_frames (length rates) fw with
                      | Some fw' => [fw']
                      | None => []
                      end
                   ++ omap (survive_frames (length rates)) suf ++ newer)).
Proof.
  destruct (run_decompose rates (mkWorld g (pre ++ fw :: suf)))
    as (newer & g' & H & _).
  exists newer, g'. rewrite H. cbn [fireworks].
  rewrite omap_app.
  change (omap (survive_frames (length rates)) (fw :: suf))
    with (match survive_frames (length rates) fw with
          | Some fw' => fw' :: omap (survive_frames (length rates)) suf
          | None => omap (survive_frames (length rates)) suf
          end).
  destruct (survive_frames (length rates) fw);
    now rewrite <- ?app_assoc.
Qed.

(** C6.  Over any frames, at any rates, the loop of a frame does not throw
    and the pool holds at most 8 entries at the end of each frame, when it
    did at the start, as it does when the script starts.  With 8 entries or
    more in the pool the first statement of [updateFireworks] only draws
    its random number: nothing is pushed, and nothing but the cursor of the
    random stream has changed for a later frame to see.  The round of a
    rocket that reaches its target leaves the array as long as it was. *)
Theorem pool_within_capacity :
  (forall rates g, exists w',
      run rates (start g) = Some (tt, w') /\
      (length (fireworks w') <= 8)%nat) /\
  (forall rates w, (length (fireworks w) <= 8)%nat ->
    exists w', run rates w = Some (tt, w') /\
               (length (fireworks w') <= 8)%nat) /\
  (forall rate w, (8 <= length (fireworks w))%nat ->
    spawn rate w
    = Some (tt, mkWorld (mkRng (draws (rng w)) (S (cursor (rng w))))
                        (fireworks w))) /\
  (forall i w r, fireworks w !! i = Some (rocket r) -> reaches r = true ->
    exists w', updateAt i w = Some (tt, w') /\
               length (fireworks w') = length (fireworks w)).
Proof.
  split; [|split; [|split]].
  - intros rates g. apply run_length. cbn. lia.
  - apply run_length.
  - intros rate w Hw. rewrite spawn_eq. cbv zeta.
    rewrite (proj2 (Nat.ltb_ge _ _) Hw), andb_false_r. reflexivity.
  - intros i w r Hi Hr. rewrite updateAt_eq, Hi, Hr. cbv zeta.
    eexists. split; [reflexivity|]. cbn [fireworks].
    rewrite length_app, length_delete by eauto. cbn [length].
    apply lookup_lt_Some in Hi. lia.
Qed.

(** The explosions the pool is rid of for good: 100 rounds remove any
    sound explosion. *)
Lemma sound_explosion_gone (e : Explosion.t) :
  sound (explosion e) -> age 100 e = None.
Proof.
  intros (H0 & H1 & Hd0 & Hd1).
  apply age_None_iff; [lra|lia|].
  change (inject_Z (Z.of_nat 100)) with 100. lra.
Qed.


(** C10.  [createExplosion] gives an explosion the life 1 and a decay of
    at least [0.01] and less than [0.015], whatever is drawn in [[0, 1)];
    [n] rounds bring its life to [1 - n * decay]; so the round that
    removes it is one of the rounds 67 to 100, and no run of 100 frames or
    more on a pool that holds it leaves it in the pool.  Every explosion
    of a pool the script has reached has such a decay and a life of at
    most 1, and 100 rounds remove it. *)
Theorem explosion_lifetime_bounded (x y z : Q) (g : Rng) :
  unit_draws g ->
  let e := (createExplosion x y z g).1 in
  Explosion.life e = 1 /\
  0.01 <= Explosion.decay e /\ Explosion.decay e < 0.015 /\
  (forall n e', age n e = Some e' ->
     Explosion.life e' == 1 - inject_Z (Z.of_nat n) * Explosion.decay e) /\
  (exists n, (67 <= n <= 100)%nat /\
             is_Some (age (n - 1) e) /\ age n e = None) /\
  age 100 e = None /\
  (forall rates pre suf g0, (100 <= length rates)%nat ->
   exists newer g',
     run rates (mkWorld g0 (pre ++ explosion e :: suf))
     = Some (tt, mkWorld g'
                   (omap (survive_frames (length rates)) pre
                    ++ omap (survive_frames (length rates)) suf ++ newer))) /\
  (forall rates w i e',
     run rates (start g) = Some (tt, w) ->
     fireworks w !! i = Some (explosion e') ->
     0.01 <= Explosion.decay e' /\ Explosion.decay e' < 0.015 /\
     Explosion.life e' <= 1 /\ age 100 e' = None).
Proof.
  intros Hg e.
  pose proof (createExplosion_sound x y z g Hg) as Hs.
  destruct (createExplosion_spec x y z g) as (_ & Hl & _).
  fold e in Hs, Hl. cbn [sound] in Hs.
  destruct Hs as (_ & _ & Hd0 & Hd1).
  assert (Hpos : 0 < Explosion.decay e) by lra.
  assert (H100 : age 100 e = None).
  { apply age_None_iff; [exact Hpos|lia|]. rewrite Hl.
    change (inject_Z (Z.of_nat 100)) with 100. lra. }
  assert (H66 : is_Some (age 66 e)).
  { destruct (age 66 e) eqn:E; [eauto|].
    apply age_None_iff in E; [|exact Hpos|lia]. rewrite Hl in E.
    change (inject_Z (Z.of_nat 66)) with 66 in E. lra. }
  split; [exact Hl|]. split; [exact Hd0|]. split; [exact Hd1|].
  split; [|split; [|split; [|split]]].
  - intros n e' Hage. destruct (age_life n e e' Hage) as [H _].
    now rewrite Hl in H.
  - destruct (age_last_round 66 100 e ltac:(lia) H66 H100)
      as (n & Hn & Hsome & Hnone).
    exists n. split; [lia|]. split; assumption.
  - exact H100.
  - intros rates pre suf g0 Hlen.
    destruct (run_around rates pre suf (explosion e) g0) as (newer & g' & H).
    exists newer, g'. rewrite H, survive_frames_explosion.
    now rewrite (age_None_mono 100 (length rates) e Hlen H100).
  - intros rates w i e' Hrun Hi.
    pose proof (reachable_sound rates g w i (explosion e') Hg Hrun Hi) as Hs.
    pose proof (sound_explosion_gone e' Hs) as Hgone.
    destruct Hs as (_ & H1 & Hs0 & Hs1). tauto.
Qed.

End Pool.

(** *** The particle step, and the pool run on examples *)

(** C1, as the code has it.  In every round of its branch, a particle of
    velocity [v] moves by [v.x] and [v.z] along x and z and by
    [v.y - 0.003] along y: the gravity decrement lowers the step taken
    along y and is not stored in the velocity.  The three components of the
    velocity are multiplied by [0.97], nothing else is done to them, so
    that after [n] rounds the velocity is the first one times [0.97 ^ n]. *)
Theorem burst_moves_and_drags (e : Explosion.t) (j : nat) (v : Velocity.t) :
  Explosion.velocities e !! j = Some v ->
  Explosion.positions (burst e) !! (j * 3)%nat
    = (fun p => p + Velocity.x v) <$> Explosion.positions e !! (j * 3)%nat /\
  Explosion.positions (burst e) !! (j * 3 + 1)%nat
    = (fun p => p + (Velocity.y v - 0.003))
        <$> Explosion.positions e !! (j * 3 + 1)%nat /\
  Explosion.positions (burst e) !! (j * 3 + 2)%nat
    = (fun p => p + Velocity.z v)
        <$> Explosion.positions e !! (j * 3 + 2)%nat /\
  Explosion.velocities (burst e) !! j
    = Some {| Velocity.x := Velocity.x v * 0.97;
              Velocity.y := Velocity.y v * 0.97;
              Velocity.z := Velocity.z v * 0.97 |} /\
  (forall n e', age n e = Some e' ->
     exists v', Explosion.velocities e' !! j = Some v' /\
       Velocity.x v' == Velocity.x v * 0.97 ^ Z.of_nat n /\
       Velocity.y v' == Velocity.y v * 0.97 ^ Z.of_nat n /\
       Velocity.z v' == Velocity.z v * 0.97 ^ Z.of_nat n).
Proof.
  intros Hv.
  pose proof (burst_positions e j 0 v ltac:(lia) Hv) as H0.
  pose proof (burst_positions e j 1 v ltac:(lia) Hv) as H1.
  pose proof (burst_positions e j 2 v ltac:(lia) Hv) as H2.
  replace (j * 3 + 0)%nat with (j * 3)%nat in H0 by lia.
  split; [exact H0|]. split; [exact H1|]. split; [exact H2|].
  split; [rewrite burst_velocities, Hv; reflexivity|].
  intros n e' Hage. eapply age_velocities; eassumption.
Qed.

(** The theorem at particle 7 of [spark]: it goes from [(0, 8, 0)] to
    [(0.06, 8.117, -0.04)]. *)
Lemma burst_moves_and_drags_witness :
  Explosion.velocities spark !! 7%nat = Some (Velocity.mk 0.06 0.12 (-0.04)) /\
  Explosion.positions (burst spark) !! 21%nat = Some (0 + 0.06) /\
  Explosion.positions (burst spark) !! 22%nat = Some (8 + (0.12 - 0.003)) /\
  Explosion.positions (burst spark) !! 23%nat = Some (0 + -0.04).
Proof.
  assert (Hv : Explosion.velocities spark !! 7%nat
               = Some (Velocity.mk 0.06 0.12 (-0.04))) by reflexivity.
  destruct (burst_moves_and_drags spark 7 _ Hv) as (Hx & Hy & Hz & _).
  split; [exact Hv|].
  split; [exact Hx|]. split; [exact Hy|exact Hz].
Defined.

(** C1 as the specification words it fails on particle 0 of [spark], which
    is at height 8 with the vertical velocity [0.12]: the round moves it to
    [8.117], not to [8.12], and leaves it the vertical velocity
    [0.12 * 0.97], which is what drag alone gives: no positive decrement
    was taken from it, before or after the drag. *)
Lemma burst_gravity_not_in_velocity :
  exists p v p' v',
    Explosion.positions spark !! 1%nat = Some p /\
    Explosion.velocities spark !! 0%nat = Some v /\
    Explosion.positions (burst spark) !! 1%nat = Some p' /\
    Explosion.velocities (burst spark) !! 0%nat = Some v' /\
    ~ p' == p + Velocity.y v /\
    ~ (exists gravity, 0 < gravity /\
         (Velocity.y v' == (Velocity.y v - gravity) * 0.97 \/
          Velocity.y v' == Velocity.y v * 0.97 - gravity)).
Proof.
  exists 8, (Velocity.mk 0.06 0.12 (-0.04)),
         (8 + (0.12 - 0.003)), (dragged (Velocity.mk 0.06 0.12 (-0.04))).
  split; [reflexivity|]. split; [reflexivity|].
  split; [vm_compute; reflexivity|]. split; [vm_compute; reflexivity|].
  split.
  - cbn [Velocity.y]. intros H. lra.
  - intros (gravity & Hpos & [H|H]); cbn [dragged Velocity.y] in H; lra.
Qed.

(** The theorem at [flare], alone in the array: it is replaced by an
    explosion whose particles are at height [7.95 + 0.15]. *)
Lemma rocket_bursts_where_it_is_witness :
  exists e g',
    updateAt (math := rational_math) 0 (mkWorld g_half [rocket flare])
      = Some (tt, mkWorld g' [explosion e]) /\
    Explosion.positions e !! 1%nat = Some (7.95 + 0.15).
Proof.
  assert (Hi : fireworks (mkWorld g_half [rocket flare]) !! 0%nat
               = Some (rocket flare)) by reflexivity.
  assert (Hy : Rocket.targetY flare <= Rocket.y flare + Rocket.speed flare)
    by (vm_compute; discriminate).
  destruct (rocket_bursts_where_it_is (math := rational_math) _ _ _ Hi Hy)
    as (Hu & _ & (_ & _ & Hp) & _).
  eexists _, _. split; [exact Hu|].
  apply (Hp 0%nat). unfold particleCount. lia.
Defined.

(** C2 as the specification words it fails on the first rocket of the
    stream [g_launch] at the rate [0.015]: its target is 8 and it rises by
    [0.15] a frame, so that after 53 frames it is at [7.95] and the 54th
    frame makes it burst at [8.1], where the particles of the explosion
    start, not at the target. *)
Lemma rocket_bursts_above_target :
  exists r e g g' p,
    run (math := rational_math) (repeat 0.015 53) (start g_launch)
      = Some (tt, mkWorld g [rocket r]) /\
    run (math := rational_math) (repeat 0.015 54) (start g_launch)
      = Some (tt, mkWorld g' [explosion e]) /\
    Rocket.targetY r == 8 /\
    Explosion.positions e !! 1%nat = Some p /\
    p == 8.1 /\
    ~ p == Rocket.targetY r.
Proof.
  eexists _, _, _, _, _.
  split; [vm_compute; reflexivity|].
  split; [vm_compute; reflexivity|].
  split; [vm_compute; reflexivity|].
  split; [vm_compute; reflexivity|].
  split; [vm_compute; reflexivity|vm_compute; discriminate].
Qed.

(** C6 at twelve frames of certain launch (every draw is [1/2], the rate
    is 1): the pool is within its capacity; and it is indeed full. *)
Lemma pool_within_capacity_witness :
  exists w',
    run (math := rational_math) (repeat 1 12) (start g_half) = Some (tt, w') /\
    (length (fireworks w') <= 8)%nat.
Proof.
  apply (proj1 (proj2 (pool_within_capacity (math := rational_math)))).
  cbn. lia.
Defined.

Lemma pool_fills_to_capacity :
  (length <$> (fireworks <$> (snd <$>
     run (math := rational_math) (repeat 1 12) (start g_half)))) = Some 8%nat.
Proof. vm_compute. reflexivity. Qed.

Lemma launch_draws_in_range : unit_draws g_launch.
Proof.
  intros k. cbn [g_launch draws]. destruct (k <? 6)%nat; lra.
Defined.


Lemma half_draws_in_range : unit_draws g_half.
Proof. intros k. cbn. split; [discriminate|reflexivity]. Defined.

(** C10 at the explosion [createExplosion(0, 8, 0)] makes when every draw
    is [1/2]: it is gone after 100 rounds. *)
Lemma explosion_lifetime_bounded_witness :
  unit_draws g_half /\
  age 100 (createExplosion (math := rational_math) 0 8 0 g_half).1 = None.
Proof.
  split; [exact half_draws_in_range|].
  apply (explosion_lifetime_bounded (math := rational_math) 0 8 0 g_half
           half_draws_in_range).
Defined.

End FireworksFacts.
(** ** The instanced meshes *)

Module SamplerFacts.
Import Sampler.
Local Open Scope R_scope.

(** *** The foliage loop *)

Lemma growLeaf_eq (N i : nat) (treeMesh : list Instance) (g : Rng) :
  growLeaf N i treeMesh g =
  (<[i := leafAt N i (draw g 0) (draw g 1) (draw g 2) (draw g 3)
                     (draw g 4) (draw g 5)]> treeMesh,
   mkRng (draws g) (6 + cursor g)).
Proof. reflexivity. Qed.

Lemma draw_shift (g : Rng) (a k : nat) :
  draw (mkRng (draws g) (a + cursor g)) k = draw g (a + k).
Proof. unfold draw. cbn [draws cursor]. f_equal. lia. Qed.

(** Slot [j] of the foliage mesh holds what round [j] made of the draws
    [6 j] to [6 j + 5]. *)
Lemma populateTree_slot (N j : nat) (g : Rng) :
  (j < N)%nat ->
  (populateTree N g).1 !! j =
  Some (leafAt N j (draw g (6 * j)) (draw g (6 * j + 1)) (draw g (6 * j + 2))
                   (draw g (6 * j + 3)) (draw g (6 * j + 4))
                   (draw g (6 * j + 5))).
Proof.
  intros Hj. unfold populateTree.
  destruct (for_up_insert 6
              (fun i g => leafAt N i (draw g 0) (draw g 1) (draw g 2)
                                 (draw g 3) (draw g 4) (draw g 5))
              (growLeaf N) (growLeaf_eq N) N (replicate N blank) g)
    as (_ & _ & Hslot).
  rewrite Hslot by (rewrite ?length_replicate; lia).
  rewrite !draw_shift, Nat.add_0_r. reflexivity.
Qed.

Lemma populateTree_length (N : nat) (g : Rng) :
  length (populateTree N g).1 = N.
Proof.
  unfold populateTree.
  destruct (for_up_insert 6
              (fun i g => leafAt N i (draw g 0) (draw g 1) (draw g 2)
                                 (draw g 3) (draw g 4) (draw g 5))
              (growLeaf N) (growLeaf_eq N) N (replicate N blank) g)
    as (_ & Hlen & _).
  now rewrite Hlen, length_replicate.
Qed.

(** *** Points on circles around the axis *)

Lemma radial_polar (angle dist h : R) :
  0 <= dist ->
  radial (mkVector3 (cos angle * dist) h (sin angle * dist)) = dist.
Proof.
  intros Hd. unfold radial. cbn [x z].
  replace (cos angle * dist * (cos angle * dist)
           + sin angle * dist * (sin angle * dist))
    with ((Rsqr (sin angle) + Rsqr (cos angle)) * (dist * dist))
    by (unfold Rsqr; ring).
  rewrite sin2_cos2, Rmult_1_l. now apply sqrt_square.
Qed.

Lemma ratio_bounds (i N : nat) :
  (i < N)%nat -> 0 <= INR i / INR N /\ INR i / INR N < 1.
Proof.
  intros Hi.
  assert (HN : 0 < INR N) by (apply lt_0_INR; lia).
  assert (Hi0 : 0 <= INR i) by apply pos_INR.
  assert (HiN : INR i < INR N) by now apply lt_INR.
  split.
  - apply Rmult_le_pos; [exact Hi0|]. left. now apply Rinv_0_lt_compat.
  - apply (Rmult_lt_reg_r (INR N)); [exact HN|].
    unfold Rdiv. rewrite Rmult_assoc, Rinv_l by lra. lra.
Qed.

Lemma unit_draw (g : Rng) (k : nat) :
  unit_draws g -> 0 <= draw g k /\ draw g k < 1.
Proof. intros Hg. apply Hg. Qed.

Lemma g_zero_unit_draws : unit_draws g_zero.
Proof. intros k. cbn. lra. Defined.

Lemma g_half_unit_draws : unit_draws g_half.
Proof. intros k. cbn. lra. Defined.

(** *** The ornament loop and the box loop *)

(** A draw in [[0, 1)] picks an entry of the palette. *)
Lemma palette_pick (u : R) :
  0 <= u -> u < 1 ->
  exists color,
    index colorPalette (Int_part (u * INR (length colorPalette)))
      = Some color /\
    In color colorPalette.
Proof.
  intros H0 H1.
  replace (INR (length colorPalette)) with 5 by (cbn; lra).
  destruct (base_Int_part (u * 5)) as [Hlo Hhi].
  set (k := Int_part (u * 5)) in *.
  assert (Hk0 : (-1 < k)%Z) by (apply lt_IZR; lra).
  assert (Hk5 : (k < 5)%Z) by (apply lt_IZR; lra).
  assert (Hk : k = 0%Z \/ k = 1%Z \/ k = 2%Z \/ k = 3%Z \/ k = 4%Z) by lia.
  destruct Hk as [->|[->|[->|[->| ->]]]]; eexists;
    (split; [reflexivity|]); cbn; tauto.
Qed.

Lemma hangOrnament_eq (i : nat) (st : Ornaments) (g : Rng) :
  0 <= draw g 3 -> draw g 3 < 1 ->
  exists color, In color colorPalette /\
    hangOrnament i (Some st) g =
    (Some (mkOrnaments
             (<[i := ornamentAt (draw g 0) (draw g 1) (draw g 2)]>
                (ornaments st))
             (colors st ++ [r color; Sampler.g color; b color])
             (<[(i * 3 + 2)%nat := b color]>
                (<[(i * 3 + 1)%nat := Sampler.g color]>
                   (<[(i * 3)%nat := r color]> (originalColors st))))),
     mkRng (draws g) (4 + cursor g)).
Proof.
  intros H0 H1. destruct (palette_pick _ H0 H1) as (color & Hpick & Hin).
  exists color. split; [exact Hin|].
  unfold hangOrnament, bindG, random. cbn [draws cursor].
  unfold draw in Hpick. cbn [Nat.add] in Hpick. rewrite Hpick.
  reflexivity.
Qed.

Lemma placeBox_eq (i : nat) (st : Boxes) (g : Rng) :
  0 <= draw g 6 -> draw g 6 < 1 ->
  exists color, In color colorPalette /\
    placeBox i (Some st) g =
    (Some (mkBoxes
             (<[i := boxAt (draw g 0) (draw g 1) (draw g 2) (draw g 3)
                           (draw g 4) (draw g 5)]> (boxes st))
             (boxColors st ++ [r color; Sampler.g color; b color])),
     mkRng (draws g) (7 + cursor g)).
Proof.
  intros H0 H1. destruct (palette_pick _ H0 H1) as (color & Hpick & Hin).
  exists color. split; [exact Hin|].
  unfold placeBox, bindG, random. cbn [draws cursor].
  unfold draw in Hpick. cbn [Nat.add] in Hpick. rewrite Hpick.
  reflexivity.
Qed.

(** The ornament loop after [n] rounds, under draws in range: it has not
    thrown; the slots below [n] hold the instances of their rounds; the
    array [colors] has grown by what [originalColors] holds below [3 n],
    three channels of a colour of the palette for each instance. *)
Lemma populateOrnaments_loop (n : nat) (st0 : Ornaments) (g : Rng) :
  unit_draws g ->
  exists st,
    for_up n hangOrnament (Some st0) g
      = (Some st, mkRng (draws g) (4 * n + cursor g)) /\
    length (ornaments st) = length (ornaments st0) /\
    length (originalColors st) = length (originalColors st0) /\
    (forall j, (j < n)%nat -> (j < length (ornaments st0))%nat ->
       ornaments st !! j
       = Some (ornamentAt (draw g (4 * j)) (draw g (4 * j + 1))
                          (draw g (4 * j + 2)))) /\
    ((3 * n <= length (originalColors st0))%nat ->
       colors st = colors st0 ++ take (3 * n) (originalColors st)) /\
    (forall j, (j < n)%nat -> (j * 3 + 2 < length (originalColors st0))%nat ->
       exists color, In color colorPalette /\
         originalColors st !! (j * 3)%nat = Some (r color) /\
         originalColors st !! (j * 3 + 1)%nat = Some (Sampler.g color) /\
         originalColors st !! (j * 3 + 2)%nat = Some (b color)).
Proof.
  intros Hg. induction n as [|n IH].
  - exists st0. cbn [for_up]. unfold retG.
    split; [destruct g; reflexivity|].
    split; [reflexivity|]. split; [reflexivity|].
    split; [intros j Hj; lia|].
    split; [intros _; cbn [Nat.mul take]; now rewrite app_nil_r|].
    intros j Hj; lia.
  - destruct IH as (st & Hrun & Hmesh & Horig & Hslot & Hcol & Hpal).
    rewrite for_up_S, Hrun. cbn [fst snd].
    set (g1 := mkRng (draws g) (4 * n + cursor g)).
    destruct (unit_draw g1 3) as [H0 H1];
      [intros k; apply Hg|].
    destruct (hangOrnament_eq n st g1 H0 H1) as (color & Hin & ->).
    eexists. split;
      [apply (f_equal2 pair); [reflexivity|]; unfold g1;
       cbn [draws cursor]; f_equal; lia|].
    cbn [ornaments colors originalColors].
    rewrite !length_insert.
    split; [exact Hmesh|]. split; [exact Horig|].
    split; [|split].
    + intros j Hj Hlt. destruct (decide (j = n)) as [->|Hne].
      * rewrite list_lookup_insert_eq by lia.
        unfold g1. rewrite !draw_shift, Nat.add_0_r. reflexivity.
      * rewrite list_lookup_insert_ne by lia. apply Hslot; lia.
    + intros Hlen. rewrite Hcol by lia. rewrite <- app_assoc. f_equal.
      replace (3 * S n)%nat with (S (S (S (3 * n)))) by lia.
      set (orig := <[(n * 3 + 2)%nat := _]> _).
      assert (Ha : orig !! (3 * n)%nat = Some (r color)).
      { unfold orig. rewrite !list_lookup_insert_ne by lia.
        replace (3 * n)%nat with (n * 3)%nat by lia.
        apply list_lookup_insert_eq. lia. }
      assert (Hb : orig !! (S (3 * n)) = Some (Sampler.g color)).
      { unfold orig. rewrite list_lookup_insert_ne by lia.
        replace (S (3 * n)) with (n * 3 + 1)%nat by lia.
        apply list_lookup_insert_eq. rewrite length_insert. lia. }
      assert (Hc : orig !! (S (S (3 * n))) = Some (b color)).
      { unfold orig. replace (S (S (3 * n))) with (n * 3 + 2)%nat by lia.
        apply list_lookup_insert_eq. rewrite !length_insert. lia. }
      rewrite (take_S_r _ _ _ Hc), (take_S_r _ _ _ Hb), (take_S_r _ _ _ Ha).
      rewrite <- !app_assoc. cbn [app]. f_equal.
      unfold orig. rewrite !take_insert_ge by lia. reflexivity.
    + intros j Hj Hlt. destruct (decide (j = n)) as [->|Hne].
      * exists color. split; [exact Hin|].
        split; [|split].
        -- rewrite !list_lookup_insert_ne by lia.
           apply list_lookup_insert_eq. lia.
        -- rewrite list_lookup_insert_ne by lia.
           apply list_lookup_insert_eq. rewrite length_insert. lia.
        -- apply list_lookup_insert_eq. rewrite !length_insert. lia.
      * destruct (Hpal j ltac:(lia) Hlt) as (c & Hc & Hr & Hgc & Hb).
        exists c. split; [exact Hc|].
        rewrite !list_lookup_insert_ne by lia. tauto.
Qed.

(** The box loop after [n] rounds, under draws in range. *)
Lemma populateBoxes_loop (n : nat) (st0 : Boxes) (g : Rng) :
  unit_draws g ->
  exists st,
    for_up n placeBox (Some st0) g
      = (Some st, mkRng (draws g) (7 * n + cursor g)) /\
    length (boxes st) = length (boxes st0) /\
    (forall j, (j < n)%nat -> (j < length (boxes st0))%nat ->
       boxes st !! j
       = Some (boxAt (draw g (7 * j)) (draw g (7 * j + 1))
                     (draw g (7 * j + 2)) (draw g (7 * j + 3))
                     (draw g (7 * j + 4)) (draw g (7 * j + 5)))).
Proof.
  intros Hg. induction n as [|n IH].
  - exists st0. cbn [for_up]. unfold retG.
    split; [destruct g; reflexivity|].
    split; [reflexivity|]. intros j Hj; lia.
  - destruct IH as (st & Hrun & Hmesh & Hslot).
    rewrite for_up_S, Hrun. cbn [fst snd].
    set (g1 := mkRng (draws g) (7 * n + cursor g)).
    destruct (unit_draw g1 6) as [H0 H1];
      [intros k; apply Hg|].
    destruct (placeBox_eq n st g1 H0 H1) as (color & Hin & ->).
    eexists. split;
      [apply (f_equal2 pair); [reflexivity|]; unfold g1;
       cbn [draws cursor]; f_equal; lia|].
    cbn [boxes]. rewrite length_insert.
    split; [exact Hmesh|].
    intros j Hj Hlt. destruct (decide (j = n)) as [->|Hne].
    + rewrite list_lookup_insert_eq by lia.
      unfold g1. rewrite !draw_shift, Nat.add_0_r. reflexivity.
    + rewrite list_lookup_insert_ne by lia. apply Hslot; lia.
Qed.

(** *** Where the instances are *)

Lemma leafAt_spec (N i : nat) (u0 u1 u2 u3 u4 u5 : R) :
  (i < N)%nat -> 0 <= u0 -> u0 < 1 -> 0 <= u1 -> u1 < 1 ->
  let inst := leafAt N i u0 u1 u2 u3 u4 u5 in
  let ratio := INR i / INR N in
  let dist := (1 - ratio) * treeRadius * (0.5 + u1 * 0.5) in
  0 <= ratio /\ ratio < 1 /\
  y (position inst) = ratio * treeHeight /\
  0.5 * ((1 - ratio) * treeRadius) <= dist /\
  dist <= (1 - ratio) * treeRadius /\
  x (position inst) = cos (ratio * PI * 40 + u0 * 0.5) * dist /\
  z (position inst) = sin (ratio * PI * 40 + u0 * 0.5) * dist /\
  radial (position inst) = dist.
Proof.
  intros Hi Ha0 Ha1 Hb0 Hb1. cbv zeta.
  destruct (ratio_bounds i N Hi) as [Hr0 Hr1].
  set (ratio := INR i / INR N) in *.
  assert (HR : treeRadius = 4) by reflexivity.
  unfold leafAt. fold ratio. cbn [position x y z].
  split; [exact Hr0|]. split; [exact Hr1|].
  split; [reflexivity|].
  split; [rewrite HR; nra|]. split; [rewrite HR; nra|].
  split; [reflexivity|]. split; [reflexivity|].
  apply radial_polar. rewrite HR. nra.
Qed.

Lemma ornamentAt_spec (u0 u1 u2 : R) :
  0 <= u0 -> u0 < 1 ->
  y (position (ornamentAt u0 u1 u2)) = u0 * treeHeight /\
  radial (position (ornamentAt u0 u1 u2)) = (1 - u0) * treeRadius.
Proof.
  intros H0 H1. unfold ornamentAt. cbn [position y].
  split; [reflexivity|]. apply radial_polar.
  assert (HR : treeRadius = 4) by reflexivity. rewrite HR. lra.
Qed.

Lemma boxAt_spec (u0 u1 u2 u3 u4 u5 : R) :
  0 <= u0 -> u0 < 1 ->
  y (position (boxAt u0 u1 u2 u3 u4 u5)) = u0 * treeHeight /\
  radial (position (boxAt u0 u1 u2 u3 u4 u5)) = (1 - u0) * treeRadius + 0.2.
Proof.
  intros H0 H1. unfold boxAt. cbn [position y].
  split; [reflexivity|]. apply radial_polar.
  assert (HR : treeRadius = 4) by reflexivity. rewrite HR. lra.
Qed.

(** C3, as the code has it.  The foliage instance of index [i] is at the
    height [(i/N) * treeHeight], at a distance from the axis between half
    of [r = (1 - i/N) * treeRadius] and [r], and at the angle
    [(i/N) * 40 * PI], twenty turns from the base to the apex, plus a
    jitter of at least 0 and less than [0.5]. *)
Theorem foliage_on_cone_spiral (N i : nat) (g : Rng) :
  unit_draws g -> (i < N)%nat ->
  exists inst jitter dist,
    (populateTree N g).1 !! i = Some inst /\
    y (position inst) = INR i / INR N * treeHeight /\
    0 <= jitter /\ jitter < 0.5 /\
    0.5 * ((1 - INR i / INR N) * treeRadius) <= dist /\
    dist <= (1 - INR i / INR N) * treeRadius /\
    x (position inst) = cos (INR i / INR N * PI * 40 + jitter) * dist /\
    z (position inst) = sin (INR i / INR N * PI * 40 + jitter) * dist /\
    radial (position inst) = dist.
Proof.
  intros Hg Hi. rewrite (populateTree_slot N i g Hi).
  destruct (unit_draw g (6 * i) Hg) as [Ha0 Ha1].
  destruct (unit_draw g (6 * i + 1) Hg) as [Hb0 Hb1].
  pose proof (leafAt_spec N i _ _ (draw g (6 * i + 2)) (draw g (6 * i + 3))
                (draw g (6 * i + 4)) (draw g (6 * i + 5))
                Hi Ha0 Ha1 Hb0 Hb1) as H.
  cbv zeta in H. destruct H as (_ & _ & Hy & Hd0 & Hd1 & Hx & Hz & Hrad).
  eexists _, (draw g (6 * i) * 0.5), _.
  split; [reflexivity|]. split; [exact Hy|].
  split; [lra|]. split; [lra|].
  split; [exact Hd0|]. split; [exact Hd1|].
  split; [exact Hx|]. split; [exact Hz|exact Hrad].
Qed.

(** The theorem at leaf 75 of the 3000, every draw being [1/2]. *)
Lemma foliage_on_cone_spiral_witness :
  unit_draws g_half /\ (75 < leafCount)%nat /\
  exists inst,
    (populateTree leafCount g_half).1 !! 75%nat = Some inst /\
    y (position inst) = INR 75 / INR leafCount * treeHeight.
Proof.
  assert (Hi : (75 < leafCount)%nat) by (unfold leafCount; lia).
  split; [exact g_half_unit_draws|]. split; [exact Hi|].
  destruct (foliage_on_cone_spiral leafCount 75 g_half g_half_unit_draws Hi)
    as (inst & _ & _ & Hslot & Hy & _).
  exists inst. split; [exact Hslot|exact Hy].
Defined.

Lemma INR_75_3000 : INR 75 / INR leafCount = 1 / 40.
Proof.
  rewrite !INR_IZR_INZ.
  replace (Z.of_nat 75) with 75%Z by (vm_compute; reflexivity).
  replace (Z.of_nat leafCount) with 3000%Z by (vm_compute; reflexivity).
  lra.
Qed.

(** C3 as the specification words it fails at leaf 75 of the 3000 when
    every draw is 0: [75/3000 * 40 * PI] is [PI], so that the leaf is at
    [x = -1.95], on the far side of the axis from any point at the angle
    [75/3000 * 40 * 2 PI], a whole number of turns, plus a jitter below
    [0.5]. *)
Lemma foliage_turns_twenty_times :
  exists inst,
    (populateTree leafCount g_zero).1 !! 75%nat = Some inst /\
    ~ (exists jitter dist,
         0 <= jitter /\ jitter < 0.5 /\
         0.5 * ((1 - INR 75 / INR leafCount) * treeRadius) <= dist /\
         dist <= (1 - INR 75 / INR leafCount) * treeRadius /\
         x (position inst)
           = cos (INR 75 / INR leafCount * 40 * (2 * PI) + jitter) * dist /\
         z (position inst)
           = sin (INR 75 / INR leafCount * 40 * (2 * PI) + jitter) * dist).
Proof.
  eexists. split.
  - apply populateTree_slot. unfold leafCount. lia.
  - intros (jitter & dist & Hj0 & Hj1 & Hd0 & _ & Hx & _).
    revert Hd0 Hx. unfold leafAt, draw. cbn [position x draws g_zero].
    rewrite INR_75_3000.
    replace (1 / 40 * PI * 40 + 0 * 0.5) with PI by lra.
    replace (1 / 40 * 40 * (2 * PI) + jitter) with (2 * PI + jitter) by lra.
    rewrite cos_PI, cos_plus, cos_2PI, sin_2PI.
    assert (HR : treeRadius = 4) by reflexivity. rewrite HR.
    intros Hd0 Hx.
    pose proof PI2_1 as Hpi.
    assert (Hc : 0 < cos jitter) by (apply cos_gt_0; lra).
    nra.
Qed.

(** C4, as the code has it.  Each of the three loops, run for a mesh of
    [N] slots, leaves a mesh of [N] instances, and does not throw.  Every
    instance is at a height [ratio * treeHeight] with [0 <= ratio < 1]; its
    distance from the axis is between half of
    [(1 - ratio) * treeRadius] and [(1 - ratio) * treeRadius] for the
    foliage, [(1 - ratio) * treeRadius] for an ornament, and
    [(1 - ratio) * treeRadius + 0.2] for a gift box, which stands out of
    the cone by [0.2]. *)
Theorem populate_counts_and_bounds (N : nat) (g : Rng) :
  unit_draws g ->
  (length (populateTree N g).1 = N /\
   forall i inst, (populateTree N g).1 !! i = Some inst ->
     exists ratio, 0 <= ratio /\ ratio < 1 /\
       y (position inst) = ratio * treeHeight /\
       0.5 * ((1 - ratio) * treeRadius) <= radial (position inst) /\
       radial (position inst) <= (1 - ratio) * treeRadius) /\
  (exists o, (populateOrnaments N g).1 = Some o /\
     length (ornaments o) = N /\
     forall i inst, ornaments o !! i = Some inst ->
       exists ratio, 0 <= ratio /\ ratio < 1 /\
         y (position inst) = ratio * treeHeight /\
         radial (position inst) = (1 - ratio) * treeRadius) /\
  (exists bx, (populateBoxes N g).1 = Some bx /\
     length (boxes bx) = N /\
     forall i inst, boxes bx !! i = Some inst ->
       exists ratio, 0 <= ratio /\ ratio < 1 /\
         y (position inst) = ratio * treeHeight /\
         radial (position inst) = (1 - ratio) * treeRadius + 0.2).
Proof.
  intros Hg. split; [|split].
  - split; [apply populateTree_length|].
    intros i inst Hslot.
    assert (Hi : (i < N)%nat).
    { apply lookup_lt_Some in Hslot. now rewrite populateTree_length in Hslot. }
    rewrite (populateTree_slot N i g Hi) in Hslot. apply (inj Some) in Hslot. subst inst.
    destruct (unit_draw g (6 * i) Hg) as [Ha0 Ha1].
    destruct (unit_draw g (6 * i + 1) Hg) as [Hb0 Hb1].
    pose proof (leafAt_spec N i _ _ (draw g (6 * i + 2)) (draw g (6 * i + 3))
                  (draw g (6 * i + 4)) (draw g (6 * i + 5))
                  Hi Ha0 Ha1 Hb0 Hb1) as H.
    cbv zeta in H. destruct H as (Hr0 & Hr1 & Hy & Hd0 & Hd1 & _ & _ & Hrad).
    exists (INR i / INR N). rewrite Hrad. tauto.
  - unfold populateOrnaments.
    destruct (populateOrnaments_loop N
                (mkOrnaments (replicate N blank) [] (replicate (N * 3) 0))
                g Hg) as (o & Hrun & Hlen & _ & Hslot & _).
    cbn [ornaments] in Hlen, Hslot. rewrite length_replicate in Hlen, Hslot.
    exists o. rewrite Hrun. split; [reflexivity|]. split; [exact Hlen|].
    intros i inst Hi.
    assert (Hlt : (i < N)%nat) by (apply lookup_lt_Some in Hi; lia).
    rewrite (Hslot i Hlt Hlt) in Hi. apply (inj Some) in Hi. subst inst.
    destruct (unit_draw g (4 * i) Hg) as [H0 H1].
    destruct (ornamentAt_spec (draw g (4 * i)) (draw g (4 * i + 1))
                (draw g (4 * i + 2)) H0 H1) as [Hy Hrad].
    exists (draw g (4 * i)). tauto.
  - unfold populateBoxes.
    destruct (populateBoxes_loop N (mkBoxes (replicate N blank) []) g Hg)
      as (bx & Hrun & Hlen & Hslot).
    cbn [boxes] in Hlen, Hslot. rewrite length_replicate in Hlen, Hslot.
    exists bx. rewrite Hrun. split; [reflexivity|]. split; [exact Hlen|].
    intros i inst Hi.
    assert (Hlt : (i < N)%nat) by (apply lookup_lt_Some in Hi; lia).
    rewrite (Hslot i Hlt Hlt) in Hi. apply (inj Some) in Hi. subst inst.
    destruct (unit_draw g (7 * i) Hg) as [H0 H1].
    destruct (boxAt_spec (draw g (7 * i)) (draw g (7 * i + 1))
                (draw g (7 * i + 2)) (draw g (7 * i + 3))
                (draw g (7 * i + 4)) (draw g (7 * i + 5)) H0 H1)
      as [Hy Hrad].
    exists (draw g (7 * i)). tauto.
Qed.

(** The theorem at the 200 slots of the box mesh, every draw being
    [1/2]. *)
Lemma populate_counts_and_bounds_witness :
  unit_draws g_half /\
  length (populateTree boxCount g_half).1 = boxCount /\
  exists bx, (populateBoxes boxCount g_half).1 = Some bx /\
             length (boxes bx) = boxCount.
Proof.
  destruct (populate_counts_and_bounds boxCount g_half g_half_unit_draws)
    as ((Htree & _) & _ & (bx & Hrun & Hlen & _)).
  split; [exact g_half_unit_draws|]. split; [exact Htree|].
  exists bx. split; [exact Hrun|exact Hlen].
Defined.

(** C4 as the specification words it fails at the first gift box when
    every draw is 0: the box is at the height 0, where the cone has the
    radius 4, and at [4.2] from the axis. *)
Lemma gift_box_off_the_cone :
  exists bx inst,
    (populateBoxes boxCount g_zero).1 = Some bx /\
    boxes bx !! 0%nat = Some inst /\
    ~ (exists ratio,
         y (position inst) = ratio * treeHeight /\
         radial (position inst) = (1 - ratio) * treeRadius).
Proof.
  unfold populateBoxes.
  destruct (populateBoxes_loop boxCount (mkBoxes (replicate boxCount blank) [])
              g_zero g_zero_unit_draws) as (bx & Hrun & _ & Hslot).
  specialize (Hslot 0%nat). cbn [boxes] in Hslot.
  rewrite length_replicate in Hslot.
  assert (H0 : (0 < boxCount)%nat) by (unfold boxCount; lia).
  specialize (Hslot H0 H0).
  eexists _, _. rewrite Hrun. split; [reflexivity|]. split; [exact Hslot|].
  intros (ratio & Hy & Hrad).
  destruct (boxAt_spec (draw g_zero (7 * 0)) (draw g_zero (7 * 0 + 1))
              (draw g_zero (7 * 0 + 2)) (draw g_zero (7 * 0 + 3))
              (draw g_zero (7 * 0 + 4)) (draw g_zero (7 * 0 + 5)))
    as [Hy' Hrad']; [cbn; lra..|].
  rewrite Hy' in Hy. rewrite Hrad' in Hrad.
  assert (Hd : draw g_zero (7 * 0) = 0) by reflexivity. rewrite Hd in Hy, Hrad.
  assert (HH : treeHeight = 12) by reflexivity.
  assert (HR : treeRadius = 4) by reflexivity.
  rewrite HH in Hy. rewrite HR in Hrad. nra.
Qed.

End SamplerFacts.
(** ** The vertex displacement *)

Module ShaderFacts.
Import Shader.
Local Open Scope R_scope.

Lemma clamp_range (x : R) : 0 <= clamp x 0 1 /\ clamp x 0 1 <= 1.
Proof.
  unfold clamp, Rmin, Rmax.
  destruct (Rle_dec x 0); destruct (Rle_dec _ 1); lra.
Qed.

Lemma clamp_inside (x : R) : 0 <= x -> x <= 1 -> clamp x 0 1 = x.
Proof.
  intros H0 H1. unfold clamp, Rmin, Rmax.
  destruct (Rle_dec x 0); destruct (Rle_dec _ 1); lra.
Qed.

Lemma smoothstep_range (u : R) :
  0 <= smoothstep 0 1 u /\ smoothstep 0 1 u <= 1.
Proof.
  unfold smoothstep. cbv zeta.
  destruct (clamp_range ((u - 0) / (1 - 0))) as [H0 H1].
  set (t := clamp _ 0 1) in *.
  assert (Ht2 : 0 <= t * t) by nra.
  assert (Hlo : 0 <= t * t * (3 - 2 * t)) by (apply Rmult_le_pos; lra).
  assert (Hs2 : 0 <= (1 - t) * (1 - t)) by nra.
  assert (Hhi : 0 <= (1 - t) * (1 - t) * (1 + 2 * t))
    by (apply Rmult_le_pos; lra).
  split; [exact Hlo|]. nra.
Qed.

Lemma smoothstep_0 : smoothstep 0 1 0 = 0.
Proof.
  unfold smoothstep. cbv zeta.
  replace ((0 - 0) / (1 - 0)) with 0 by lra.
  rewrite clamp_inside by lra. lra.
Qed.

Lemma smoothstep_1 : smoothstep 0 1 1 = 1.
Proof.
  unfold smoothstep. cbv zeta.
  replace ((1 - 0) / (1 - 0)) with 1 by lra.
  rewrite clamp_inside by lra. lra.
Qed.

(** On a base that is not negative, [pow(x, 0.5)] is the square root. *)
Lemma pow_half (x : R) : 0 <= x -> pow x 0.5 = sqrt x.
Proof.
  intros Hx. unfold pow. destruct (Req_dec_T x 0) as [->|Hne].
  - now rewrite sqrt_0.
  - replace 0.5 with (/ 2) by lra. apply Rpower_sqrt. lra.
Qed.

(** C8.  The displacement factor is 1 minus the power [0.5], the square
    root, of the smoothstep of the progress; it is 1 at progress 0 and 0
    at progress 1, so that a vertex is moved by 20 times its random offset
    at progress 0 and is not moved at all at progress 1. *)
Theorem explodeFactor_ends :
  (forall u, explodeFactor u = 1 - pow (smoothstep 0 1 u) 0.5) /\
  (forall u, explodeFactor u = 1 - sqrt (smoothstep 0 1 u)) /\
  explodeFactor 0 = 1 /\
  explodeFactor 1 = 0 /\
  (forall transformed aRandomOffset,
     displace transformed aRandomOffset 0 = transformed + aRandomOffset * 20 /\
     displace transformed aRandomOffset 1 = transformed).
Proof.
  assert (Hsqrt : forall u, explodeFactor u = 1 - sqrt (smoothstep 0 1 u)).
  { intros u. unfold explodeFactor. cbv zeta.
    rewrite pow_half by apply smoothstep_range. reflexivity. }
  assert (H0 : explodeFactor 0 = 1).
  { rewrite Hsqrt, smoothstep_0, sqrt_0. lra. }
  assert (H1 : explodeFactor 1 = 0).
  { rewrite Hsqrt, smoothstep_1, sqrt_1. lra. }
  split; [reflexivity|]. split; [exact Hsqrt|].
  split; [exact H0|]. split; [exact H1|].
  intros t o. unfold displace. rewrite H0, H1. split; lra.
Qed.

End ShaderFacts.

(** ** The hover highlight *)

Module HighlightFacts.
Import Sampler Highlight.
Local Open Scope Z_scope.

(** *** Typed arrays *)

Lemma store_length (arr : list R) (k : Z) (v : R) :
  length (store arr k v) = length arr.
Proof. unfold store. destruct (k <? 0); [reflexivity|apply length_insert]. Qed.

Lemma index_store_eq (arr : list R) (k : Z) (v : R) :
  0 <= k -> (Z.to_nat k < length arr)%nat ->
  index (store arr k v) k = Some v.
Proof.
  intros Hk Hlen. unfold index, store.
  rewrite (proj2 (Z.ltb_ge k 0)) by lia.
  now apply list_lookup_insert_eq.
Qed.

Lemma index_store_ne (arr : list R) (k k' : Z) (v : R) :
  k <> k' -> index (store arr k v) k' = index arr k'.
Proof.
  intros Hne. unfold index, store.
  destruct (k <? 0) eqn:Ek; [reflexivity|].
  destruct (k' <? 0) eqn:Ek'; [reflexivity|].
  apply Z.ltb_ge in Ek, Ek'. apply list_lookup_insert_ne. lia.
Qed.

Lemma setColorAt_length (arr : list R) (h : Z) (c : Color) :
  length (setColorAt arr h c) = length arr.
Proof. unfold setColorAt. cbv zeta. now rewrite !store_length. Qed.

(** The instance written reads back the colour written. *)
Lemma readColor_setColorAt_same (arr : list R) (h : nat) (c : Color) :
  (h * 3 + 2 < length arr)%nat ->
  readColor (setColorAt arr (Z.of_nat h) c) (Z.of_nat h * 3) = c.
Proof.
  intros Hlen. unfold readColor, setColorAt. cbv zeta.
  rewrite (index_store_ne _ (Z.of_nat h * 3 + 2) (Z.of_nat h * 3)) by lia.
  rewrite (index_store_ne _ (Z.of_nat h * 3 + 1) (Z.of_nat h * 3)) by lia.
  rewrite index_store_eq by lia.
  rewrite (index_store_ne _ (Z.of_nat h * 3 + 2) (Z.of_nat h * 3 + 1)) by lia.
  rewrite index_store_eq by (rewrite ?store_length; lia).
  rewrite index_store_eq by (rewrite ?store_length; lia).
  now destruct c.
Qed.

(** Every other instance reads as before. *)
Lemma readColor_setColorAt_other (arr : list R) (h j : Z) (c : Color) :
  h <> j ->
  readColor (setColorAt arr h c) (j * 3) = readColor arr (j * 3).
Proof.
  intros Hne. unfold readColor, setColorAt. cbv zeta.
  now rewrite !index_store_ne by lia.
Qed.

Lemma index_of_nat (arr : list R) (k : nat) :
  index arr (Z.of_nat k) = arr !! k.
Proof.
  unfold index. rewrite (proj2 (Z.ltb_ge _ 0)) by lia.
  now rewrite Nat2Z.id.
Qed.

(** Reading the colour of instance [j] in an array that holds the three
    channels of [c] at [3 j]. *)
Lemma readColor_channels (arr : list R) (j : nat) (c : Color) :
  arr !! (j * 3)%nat = Some (r c) ->
  arr !! (j * 3 + 1)%nat = Some (g c) ->
  arr !! (j * 3 + 2)%nat = Some (b c) ->
  readColor arr (Z.of_nat j * 3) = c.
Proof.
  intros Hr Hg Hb. unfold readColor.
  replace (Z.of_nat j * 3) with (Z.of_nat (j * 3)) by lia.
  replace (Z.of_nat (j * 3) + 1) with (Z.of_nat (j * 3 + 1)) by lia.
  replace (Z.of_nat (j * 3) + 2) with (Z.of_nat (j * 3 + 2)) by lia.
  rewrite !index_of_nat, Hr, Hg, Hb. now destruct c.
Qed.

(** *** One frame *)

Lemma animate_originalColors (intersection : list nat) (s : State) :
  originalColors (animate intersection s) = originalColors s.
Proof.
  unfold animate. destruct intersection as [|hit rest].
  - now destruct (negb (hoveredInstanceId s =? -1)).
  - now destruct (negb (Z.of_nat hit =? hoveredInstanceId s)).
Qed.

(** The colours after [setColorAt] restored the hovered instance. *)
Lemma restored_colorOf (N : nat) (s : State) (j : nat) :
  coherent N s -> (j < N)%nat ->
  readColor
    (setColorAt (instanceColor s) (hoveredInstanceId s)
       (readColor (originalColors s) (hoveredInstanceId s * 3)))
    (Z.of_nat j * 3)
  = originalOf s j.
Proof.
  intros [Hlen Hinv] Hj.
  destruct (Z.eq_dec (hoveredInstanceId s) (Z.of_nat j)) as [->|Hne].
  - apply readColor_setColorAt_same. lia.
  - rewrite readColor_setColorAt_other by exact Hne.
    specialize (Hinv j Hj). unfold colorOf in Hinv. rewrite Hinv.
    now rewrite (proj2 (Z.eqb_neq _ _) Hne).
Qed.

Lemma animate_coherent (N : nat) (intersection : list nat) (s : State) :
  coherent N s -> coherent N (animate intersection s).
Proof.
  intros Hs. pose proof Hs as [Hlen Hinv].
  unfold animate. destruct intersection as [|hit rest].
  - destruct (hoveredInstanceId s =? -1) eqn:E; cbn [negb]; [exact Hs|].
    split; cbn [instanceColor hoveredInstanceId].
    + now rewrite setColorAt_length.
    + intros j Hj. unfold colorOf, originalOf.
      cbn [instanceColor originalColors hoveredInstanceId].
      rewrite (proj2 (Z.eqb_neq (-1) (Z.of_nat j))) by lia.
      now apply (restored_colorOf N).
  - destruct (Z.of_nat hit =? hoveredInstanceId s) eqn:E; cbn [negb];
      [exact Hs|].
    set (array := if negb (hoveredInstanceId s =? -1) then _ else _).
    assert (Harr : length array = (N * 3)%nat /\
                    forall j, (j < N)%nat ->
                      Z.of_nat hit <> Z.of_nat j ->
                      readColor array (Z.of_nat j * 3) = originalOf s j).
    { unfold array. destruct (hoveredInstanceId s =? -1) eqn:E1; cbn [negb].
      - split; [exact Hlen|]. intros j Hj Hne.
        specialize (Hinv j Hj). unfold colorOf in Hinv. rewrite Hinv.
        apply Z.eqb_eq in E1. rewrite E1.
        now rewrite (proj2 (Z.eqb_neq (-1) (Z.of_nat j))) by lia.
      - split; [now rewrite setColorAt_length|].
        intros j Hj _. now apply (restored_colorOf N). }
    destruct Harr as [Hlen' Hother].
    split; cbn [instanceColor hoveredInstanceId].
    + now rewrite setColorAt_length.
    + intros j Hj. unfold colorOf, originalOf.
      cbn [instanceColor originalColors hoveredInstanceId].
      destruct (Z.of_nat hit =? Z.of_nat j) eqn:E2.
      * apply Z.eqb_eq in E2. rewrite E2.
        apply readColor_setColorAt_same. lia.
      * apply Z.eqb_neq in E2.
        rewrite readColor_setColorAt_other by exact E2.
        now apply Hother.
Qed.

(** The instance hovered after a frame is the nearest hit of the frame, or
    none when the ray hit nothing. *)
Lemma animate_hovered (intersection : list nat) (s : State) :
  hoveredInstanceId (animate intersection s)
  = match intersection with
    | hit :: _ => Z.of_nat hit
    | [] => -1
    end.
Proof.
  unfold animate. destruct intersection as [|hit rest].
  - destruct (hoveredInstanceId s =? -1) eqn:E; cbn [negb]; [|reflexivity].
    now apply Z.eqb_eq in E.
  - destruct (Z.of_nat hit =? hoveredInstanceId s) eqn:E; cbn [negb];
      [|reflexivity].
    apply Z.eqb_eq in E. now rewrite E.
Qed.

(** *** Any number of frames *)

Lemma run_snoc (frames : list (list nat)) (intersection : list nat)
  (s : State) :
  run (frames ++ [intersection]) s = animate intersection (run frames s).
Proof. unfold run. now rewrite fold_left_app. Qed.

Lemma run_coherent (N : nat) (frames : list (list nat)) (s : State) :
  coherent N s -> coherent N (run frames s).
Proof.
  intros Hs. induction frames as [|f frames IH] using rev_ind; [exact Hs|].
  rewrite run_snoc. now apply animate_coherent.
Qed.

Lemma run_originalColors (frames : list (list nat)) (s : State) :
  originalColors (run frames s) = originalColors s.
Proof.
  induction frames as [|f frames IH] using rev_ind; [reflexivity|].
  now rewrite run_snoc, animate_originalColors.
Qed.

Lemma run_hovered (frames : list (list nat)) (s : State) :
  hoveredInstanceId s = -1 ->
  hoveredInstanceId (run frames s) = -1 \/
  exists j, hoveredInstanceId (run frames s) = Z.of_nat j /\ was_hit frames j.
Proof.
  intros Hs. destruct frames as [|f frames] using rev_ind; [now left|].
  rewrite run_snoc, animate_hovered. destruct f as [|hit rest]; [now left|].
  right. exists hit. split; [reflexivity|].
  exists (hit :: rest). split; [|reflexivity].
  apply in_or_app. right. now left.
Qed.

(** Three ornaments drawn red, gold and blue, and the frames whose nearest
    hits are 0, 0, 1, none: ornament 0 is white in the first two frames and
    red again in the third, ornament 1 is white in the third and gold again
    in the fourth, ornament 2 is blue throughout. *)
Example hover_scenario (red gold blue : Color) :
  let table := [r red; g red; b red; r gold; g gold; b gold;
                r blue; g blue; b blue] in
  let s0 := mkState table false table (-1) in
  colorOf (run [[0%nat]] s0) 0 = whiteColor /\
  colorOf (run [[0%nat]; [0%nat]] s0) 0 = whiteColor /\
  colorOf (run [[0%nat]; [0%nat]; [1%nat]] s0) 0 = red /\
  colorOf (run [[0%nat]; [0%nat]; [1%nat]] s0) 1 = whiteColor /\
  colorOf (run [[0%nat]; [0%nat]; [1%nat]; []] s0) 1 = gold /\
  colorOf (run [[0%nat]; [0%nat]; [1%nat]; []] s0) 2 = blue /\
  hoveredInstanceId (run [[0%nat]; [0%nat]; [1%nat]; []] s0) = -1.
Proof. destruct red, gold, blue. repeat split. Qed.

(** *** The ornaments as built *)

(** Under draws in range the ornament loop does not throw; it leaves in
    [colors] what it leaves in [originalColors], the three channels of a
    colour of the palette for each of the [N] instances. *)
Lemma built_ornaments (N : nat) (g : Rng) :
  unit_draws g ->
  exists o,
    (populateOrnaments N g).1 = Some o /\
    colors o = Sampler.originalColors o /\
    length (Sampler.originalColors o) = (N * 3)%nat /\
    forall j, (j < N)%nat ->
      In (readColor (Sampler.originalColors o) (Z.of_nat j * 3)) colorPalette.
Proof.
  intros Hg. unfold populateOrnaments.
  destruct (SamplerFacts.populateOrnaments_loop N
              (mkOrnaments (replicate N blank) [] (replicate (N * 3) 0%R))
              g Hg) as (o & Hrun & _ & Hlen & _ & Hcol & Hpal).
  cbn [Sampler.originalColors colors] in Hlen, Hcol, Hpal.
  rewrite length_replicate in Hlen, Hcol, Hpal.
  exists o. rewrite Hrun. split; [reflexivity|].
  split; [|split; [exact Hlen|]].
  - rewrite Hcol by lia. cbn [app]. apply take_ge. lia.
  - intros j Hj.
    destruct (Hpal j Hj ltac:(lia)) as (c & Hin & Hr & Hgc & Hb).
    now rewrite (readColor_channels _ j c Hr Hgc Hb).
Qed.

Lemma initial_coherent (N : nat) (o : Ornaments) :
  colors o = Sampler.originalColors o ->
  length (Sampler.originalColors o) = (N * 3)%nat ->
  coherent N (initial o).
Proof.
  intros Hcol Hlen. split; cbn [initial instanceColor hoveredInstanceId].
  - now rewrite Hcol.
  - intros j Hj. rewrite (proj2 (Z.eqb_neq (-1) (Z.of_nat j))) by lia.
    unfold colorOf, originalOf. cbn [initial instanceColor originalColors].
    now rewrite Hcol.
Qed.

(** No colour of the palette is the white of the highlight. *)
Lemma palette_not_white (c : Color) : In c colorPalette -> c <> whiteColor.
Proof.
  unfold colorPalette, whiteColor, hexColor.
  intros [<-|[<-|[<-|[<-|[<-|[]]]]]] H; apply (f_equal b) in H;
    cbn [b] in H;
    repeat match type of H with
           | context [Z.land ?h ?m] =>
               let v := eval vm_compute in (Z.land h m) in
               change (Z.land h m) with v in H
           end;
    lra.
Qed.

(** C9.  The ornaments being built from draws in range and the highlight
    run on any frames from there: the table [originalColors] is as the
    build left it, and holds for each instance the colour of the palette
    the instance was first drawn in, which is not white; every instance but
    the hovered one is drawn in the colour the table holds for it, and the
    hovered one in white; an instance that was never the nearest hit is
    drawn as it first was; and a frame that leaves the hovered instance,
    for another one or for none, draws it in the colour of the table
    again. *)
Theorem highlight_restores_original (N : nat) (g : Rng)
  (frames : list (list nat)) :
  unit_draws g ->
  exists o,
    (populateOrnaments N g).1 = Some o /\
    let s := run frames (initial o) in
    originalColors s = Sampler.originalColors o /\
    (forall j, (j < N)%nat ->
       In (originalOf s j) colorPalette /\
       originalOf s j <> whiteColor /\
       originalOf s j = colorOf (initial o) j) /\
    (forall j, (j < N)%nat ->
       colorOf s j = if hoveredInstanceId s =? Z.of_nat j then whiteColor
                     else originalOf s j) /\
    (forall j, (j < N)%nat -> ~ was_hit frames j ->
       colorOf s j = colorOf (initial o) j) /\
    (forall intersection h, (h < N)%nat ->
       hoveredInstanceId s = Z.of_nat h ->
       head intersection <> Some h ->
       colorOf (animate intersection s) h = originalOf s h).
Proof.
  intros Hg.
  destruct (built_ornaments N g Hg) as (o & Hbuilt & Hcol & Hlen & Hpal).
  exists o. split; [exact Hbuilt|]. cbv zeta.
  pose proof (run_coherent N frames (initial o)
                (initial_coherent N o Hcol Hlen)) as Hco.
  pose proof (run_originalColors frames (initial o)) as Horig.
  cbn [initial originalColors] in Horig.
  set (s := run frames (initial o)) in *.
  assert (Hof : forall j, originalOf s j = colorOf (initial o) j).
  { intros j. unfold originalOf, colorOf. rewrite Horig.
    cbn [initial instanceColor]. now rewrite Hcol. }
  split; [exact Horig|]. split; [|split; [|split]].
  - intros j Hj. split; [|split; [|apply Hof]].
    + unfold originalOf. rewrite Horig. now apply Hpal.
    + apply palette_not_white. unfold originalOf. rewrite Horig.
      now apply Hpal.
  - apply Hco.
  - intros j Hj Hnot. destruct Hco as [_ Hinv]. rewrite (Hinv j Hj).
    destruct (run_hovered frames (initial o) eq_refl) as [H|(k & Hk & Hhit)];
      fold s in H || fold s in Hk.
    + rewrite H, (proj2 (Z.eqb_neq (-1) (Z.of_nat j))) by lia. apply Hof.
    + rewrite Hk. destruct (Z.of_nat k =? Z.of_nat j) eqn:E; [|apply Hof].
      apply Z.eqb_eq, Nat2Z.inj in E. subst k. contradiction.
  - intros intersection h Hh Hhov Hhead.
    pose proof (animate_coherent N intersection s Hco) as [_ Hinv'].
    rewrite (Hinv' h Hh), animate_hovered.
    unfold originalOf. rewrite animate_originalColors.
    destruct intersection as [|hit rest].
    + now rewrite (proj2 (Z.eqb_neq (-1) (Z.of_nat h))) by lia.
    + destruct (Z.of_nat hit =? Z.of_nat h) eqn:E; [|reflexivity].
      apply Z.eqb_eq, Nat2Z.inj in E. subst hit. now contradiction Hhead.
Qed.

(** The theorem at a mesh of 3 ornaments, every draw being [1/2], and the
    frames whose nearest hits are 0, 0, 1, none: nothing is hovered in the
    end and the three instances are drawn as they first were. *)
Lemma highlight_restores_original_witness :
  unit_draws g_half /\
  exists o,
    (populateOrnaments 3 g_half).1 = Some o /\
    forall j, (j < 3)%nat ->
      colorOf (run [[0%nat]; [0%nat]; [1%nat]; []] (initial o)) j
      = colorOf (initial o) j.
Proof.
  split; [exact SamplerFacts.g_half_unit_draws|].
  destruct (highlight_restores_original 3 g_half
              [[0%nat]; [0%nat]; [1%nat]; []]
              SamplerFacts.g_half_unit_draws)
    as (o & Hbuilt & _ & Hpal & Hinv & _).
  exists o. split; [exact Hbuilt|]. intros j Hj.
  rewrite (Hinv j Hj).
  replace (hoveredInstanceId (run [[0%nat]; [0%nat]; [1%nat]; []] (initial o)))
    with (-1) by (symmetry; apply (animate_hovered [])).
  rewrite (proj2 (Z.eqb_neq (-1) (Z.of_nat j))) by lia.
  apply (Hpal j Hj).
Defined.

End HighlightFacts.
(** * Further facts *)

(** ** The assembly animation, frame by frame *)

Module AssemblyMore.
Import Assembly AssemblyFacts.
Local Open Scope Q_scope.

Section Animate.
Variable starRandomOffset : Vector3.
Local Abbreviation animate := (animate starRandomOffset).
Local Abbreviation run := (run starRandomOffset).

(** A frame that does not bring the progress to 1 takes the branch that
    leaves [controls.autoRotate] alone and moves the star and its light
    together. *)
Lemma animate_below (s : State) :
  reachable_inv s ->
  uProgress s + (explosionSpeed s + explosionAcceleration) < 1 ->
  animate s =
  {| uProgress := uProgress s + (explosionSpeed s + explosionAcceleration);
     explosionSpeed := explosionSpeed s + explosionAcceleration;
     starPosition :=
       lerpVectors (add starFinalPosition starRandomOffset) starFinalPosition
         (1 - (1 - (uProgress s
                    + (explosionSpeed s + explosionAcceleration))) ^ 2);
     starLightPosition :=
       lerpVectors (add starFinalPosition starRandomOffset) starFinalPosition
         (1 - (1 - (uProgress s
                    + (explosionSpeed s + explosionAcceleration))) ^ 2);
     autoRotate := autoRotate s |}.
Proof.
  intros (H0 & H1 & Hs) Hnew.
  assert (Hacc : explosionAcceleration == 1 # 4000) by reflexivity.
  assert (Hlt : uProgress s < 1) by lra.
  apply ltb_spec in Hlt. apply geb_false in Hnew.
  unfold Assembly.animate. rewrite Hlt, Hnew. reflexivity.
Qed.

Lemma run_next_below (n : nat) :
  (n < 85)%nat ->
  uProgress (run n) + (explosionSpeed (run n) + explosionAcceleration) < 1.
Proof.
  intros Hn.
  destruct (run_closed_form starRandomOffset n) as [Hp Hs]; [lia|].
  destruct (inject_nat_bounds n 84) as [Hk0 Hk84]; [lia|].
  change (inject_Z (Z.of_nat 84)) with 84 in Hk84.
  assert (Hacc : explosionAcceleration == 1 # 4000) by reflexivity.
  rewrite Hp, Hs, Hacc. set (k := inject_Z (Z.of_nat n)) in *. nra.
Qed.

Lemma run_S_below (n : nat) :
  (n < 85)%nat ->
  autoRotate (run (S n)) = autoRotate (run n) /\
  starLightPosition (run (S n)) = starPosition (run (S n)) /\
  starPosition (run (S n)) =
    lerpVectors (add starFinalPosition starRandomOffset) starFinalPosition
      (1 - (1 - uProgress (run (S n))) ^ 2).
Proof.
  intros Hn. rewrite run_S.
  rewrite (animate_below (run n) (run_inv starRandomOffset n)
             (run_next_below n Hn)).
  repeat split.
Qed.

Lemma autoRotate_below (n : nat) :
  (n <= 85)%nat -> autoRotate (run n) = false.
Proof.
  induction n as [|n IH]; intros Hn; [reflexivity|].
  destruct (run_S_below n ltac:(lia)) as (-> & _). apply IH. lia.
Qed.

(** The 86th frame: the progress would be [1.02125]; it is clamped, the
    star is put at its final position and [controls.autoRotate] is set;
    the light has been copied from the star before that. *)
Lemma run_86 :
  run 86 =
  {| uProgress := 1;
     explosionSpeed := explosionSpeed (run 85) + explosionAcceleration;
     starPosition := starFinalPosition;
     starLightPosition :=
       lerpVectors (add starFinalPosition starRandomOffset) starFinalPosition
         (1 - (1 - (uProgress (run 85)
                    + (explosionSpeed (run 85) + explosionAcceleration))) ^ 2);
     autoRotate := true |}.
Proof.
  destruct (run_closed_form starRandomOffset 85) as [Hp Hs]; [lia|].
  assert (Hacc : explosionAcceleration == 1 # 4000) by reflexivity.
  assert (Hlt : uProgress (run 85) < 1) by (rewrite Hp; reflexivity).
  assert (Hge : 1 <= uProgress (run 85)
                     + (explosionSpeed (run 85) + explosionAcceleration)).
  { rewrite Hp, Hs, Hacc. discriminate. }
  apply ltb_spec in Hlt. apply geb_spec in Hge.
  rewrite (run_S starRandomOffset 85). unfold Assembly.animate.
  rewrite Hlt, Hge. reflexivity.
Qed.

Lemma run_from_86 (n : nat) : (86 <= n)%nat -> run n = run 86.
Proof.
  intros Hn. apply run_settled_from; [|exact Hn].
  rewrite run_86. cbn [uProgress]. lra.
Qed.

End Animate.

(** [controls.autoRotate] is off for the first 85 frames and on from the
    86th frame, the one that brings the progress to 1, for ever. *)
Theorem autoRotate_iff_settled (starRandomOffset : Vector3) (n : nat) :
  autoRotate (run starRandomOffset n) = true <-> (86 <= n)%nat.
Proof.
  split.
  - intros H. destruct (le_lt_dec 86 n) as [Hle|Hlt]; [exact Hle|].
    rewrite autoRotate_below in H by lia. discriminate.
  - intros Hn. rewrite run_from_86 by exact Hn. now rewrite run_86.
Qed.

Lemma autoRotate_iff_settled_witness :
  autoRotate (run (mkVector3 3 20 (-7)) 86) = true /\
  autoRotate (run (mkVector3 3 20 (-7)) 85) <> true.
Proof.
  split.
  - apply (autoRotate_iff_settled (mkVector3 3 20 (-7)) 86). lia.
  - intros H. apply (autoRotate_iff_settled (mkVector3 3 20 (-7)) 85) in H.
    lia.
Defined.

(** The speed grows by [0.00025] a frame up to the 86th frame and stays at
    [0.0225] afterwards; until the 85th frame the progress is
    [n/1000 + n(n+1)/8000]. *)
Theorem speed_and_progress_closed_form (starRandomOffset : Vector3)
  (n : nat) :
  ((n <= 85)%nat ->
   uProgress (run starRandomOffset n)
   == inject_Z (Z.of_nat n) * (1 # 1000)
      + inject_Z (Z.of_nat n) * (inject_Z (Z.of_nat n) + 1) * (1 # 8000)) /\
  ((n <= 86)%nat ->
   explosionSpeed (run starRandomOffset n)
   == 0.001 + inject_Z (Z.of_nat n) * 0.00025) /\
  ((86 <= n)%nat -> explosionSpeed (run starRandomOffset n) == 0.0225).
Proof.
  assert (H86 : explosionSpeed (run starRandomOffset 86) == 0.0225).
  { rewrite run_86. cbn [explosionSpeed].
    destruct (run_closed_form starRandomOffset 85) as [_ Hs]; [lia|].
    rewrite Hs. reflexivity. }
  split; [|split].
  - intros Hn. now apply run_closed_form.
  - intros Hn. destruct (le_lt_dec n 85) as [Hle|Hlt].
    + destruct (run_closed_form starRandomOffset n Hle) as [_ Hs].
      rewrite Hs. ring.
    + assert (n = 86%nat) by lia. subst n. rewrite H86. reflexivity.
  - intros Hn. rewrite run_from_86 by exact Hn. exact H86.
Qed.

Lemma speed_and_progress_closed_form_witness :
  uProgress (run (mkVector3 3 20 (-7)) 40) == 0.245 /\
  explosionSpeed (run (mkVector3 3 20 (-7)) 40) == 0.011 /\
  explosionSpeed (run (mkVector3 3 20 (-7)) 500) == 0.0225.
Proof.
  destruct (speed_and_progress_closed_form (mkVector3 3 20 (-7)) 40)
    as (Hp & Hs & _).
  destruct (speed_and_progress_closed_form (mkVector3 3 20 (-7)) 500)
    as (_ & _ & Hf).
  split; [rewrite Hp by lia; reflexivity|].
  split; [rewrite Hs by lia; reflexivity|].
  apply Hf. lia.
Defined.

(** While the animation runs the star is at its final position plus the
    fraction [(1 - progress)^2] of its random offset, and its light is on
    it.  The frame that settles the animation puts the star exactly at its
    final position, but it has copied the position of the light before: the
    light stays at the final position plus [(17/800)^2] of the offset, in
    that frame and in every later one. *)
Theorem star_snaps_light_trails (starRandomOffset : Vector3) (n : nat) :
  ((1 <= n <= 85)%nat ->
   starLightPosition (run starRandomOffset n)
   = starPosition (run starRandomOffset n) /\
   let rest := (1 - uProgress (run starRandomOffset n)) ^ 2 in
   vx (starPosition (run starRandomOffset n))
   == vx starFinalPosition + vx starRandomOffset * rest /\
   vy (starPosition (run starRandomOffset n))
   == vy starFinalPosition + vy starRandomOffset * rest /\
   vz (starPosition (run starRandomOffset n))
   == vz starFinalPosition + vz starRandomOffset * rest) /\
  ((86 <= n)%nat ->
   starPosition (run starRandomOffset n) = starFinalPosition /\
   vx (starLightPosition (run starRandomOffset n))
   == vx starFinalPosition + vx starRandomOffset * (289 # 640000) /\
   vy (starLightPosition (run starRandomOffset n))
   == vy starFinalPosition + vy starRandomOffset * (289 # 640000) /\
   vz (starLightPosition (run starRandomOffset n))
   == vz starFinalPosition + vz starRandomOffset * (289 # 640000)).
Proof.
  split.
  - intros Hn. destruct n as [|n]; [lia|].
    destruct (run_S_below starRandomOffset n ltac:(lia)) as (_ & Hl & Hs).
    split; [exact Hl|]. cbv zeta. rewrite Hs.
    cbn [lerpVectors add vx vy vz]. repeat split; ring.
  - intros Hn. rewrite run_from_86 by exact Hn. rewrite run_86.
    cbn [starPosition starLightPosition]. split; [reflexivity|].
    destruct (run_closed_form starRandomOffset 85) as [Hp Hs]; [lia|].
    assert (Hacc : explosionAcceleration == 1 # 4000) by reflexivity.
    assert (Hrest : (1 - (uProgress (run starRandomOffset 85)
                          + (explosionSpeed (run starRandomOffset 85)
                             + explosionAcceleration))) ^ 2
                    == 289 # 640000).
    { rewrite Hp, Hs, Hacc. reflexivity. }
    cbn [lerpVectors add vx vy vz]. rewrite Hrest. repeat split; ring.
Qed.

Lemma star_snaps_light_trails_witness :
  starPosition (run (mkVector3 3 20 (-7)) 100) = starFinalPosition /\
  vy (starLightPosition (run (mkVector3 3 20 (-7)) 100))
  == 12.2 + 20 * (289 # 640000).
Proof.
  destruct (star_snaps_light_trails (mkVector3 3 20 (-7)) 100) as (_ & H).
  destruct (H ltac:(lia)) as (Hs & _ & Hy & _).
  split; [exact Hs|]. rewrite Hy. reflexivity.
Defined.

End AssemblyMore.

(** ** The displacement factor over the whole range of the progress *)

Module ShaderMore.
Import Shader ShaderFacts.
Local Open Scope R_scope.

Lemma clamp_monotone (x y : R) : x <= y -> clamp x 0 1 <= clamp y 0 1.
Proof.
  intros H. unfold clamp.
  apply Rle_min_compat_r, Rle_max_compat_r, H.
Qed.

Lemma hermite_monotone (a b : R) :
  0 <= a -> a <= b -> b <= 1 ->
  a * a * (3 - 2 * a) <= b * b * (3 - 2 * b).
Proof.
  intros H0 Hab H1.
  assert (Hd : 0 <= (b - a) * (3 * (a + b) - 2 * (a * a + a * b + b * b))).
  { apply Rmult_le_pos; [lra|]. nra. }
  nra.
Qed.

Lemma smoothstep_unit (u : R) :
  smoothstep 0 1 u = clamp u 0 1 * clamp u 0 1 * (3 - 2 * clamp u 0 1).
Proof.
  unfold smoothstep. cbv zeta.
  replace ((u - 0) / (1 - 0)) with u by (field; lra). reflexivity.
Qed.

Lemma smoothstep_monotone (u v : R) :
  u <= v -> smoothstep 0 1 u <= smoothstep 0 1 v.
Proof.
  intros H. rewrite !smoothstep_unit.
  pose proof (clamp_monotone u v H) as Hc.
  destruct (clamp_range u) as [Hu0 Hu1].
  destruct (clamp_range v) as [Hv0 Hv1].
  now apply hermite_monotone.
Qed.

Lemma clamp_below (x : R) : x <= 0 -> clamp x 0 1 = 0.
Proof.
  intros H. unfold clamp, Rmin, Rmax.
  destruct (Rle_dec x 0); destruct (Rle_dec _ 1); lra.
Qed.

Lemma clamp_above (x : R) : 1 <= x -> clamp x 0 1 = 1.
Proof.
  intros H. unfold clamp, Rmin, Rmax.
  destruct (Rle_dec x 0); destruct (Rle_dec _ 1); lra.
Qed.

Lemma explodeFactor_sqrt (u : R) :
  explodeFactor u = 1 - sqrt (smoothstep 0 1 u).
Proof.
  unfold explodeFactor. cbv zeta.
  rewrite pow_half by apply smoothstep_range. reflexivity.
Qed.

Lemma explodeFactor_bounds (u : R) :
  0 <= explodeFactor u /\ explodeFactor u <= 1.
Proof.
  rewrite explodeFactor_sqrt.
  destruct (smoothstep_range u) as [H0 H1].
  pose proof (sqrt_pos (smoothstep 0 1 u)) as Hs0.
  assert (Hs1 : sqrt (smoothstep 0 1 u) <= 1).
  { apply Rle_trans with (sqrt 1);
      [now apply sqrt_le_1_alt | rewrite sqrt_1; lra]. }
  lra.
Qed.

Lemma explodeFactor_above (u : R) : 1 <= u -> explodeFactor u = 0.
Proof.
  intros Hu. rewrite explodeFactor_sqrt, smoothstep_unit.
  rewrite clamp_above by lra.
  replace (1 * 1 * (3 - 2 * 1)) with 1 by lra. rewrite sqrt_1. lra.
Qed.

Lemma explodeFactor_below (u : R) : u <= 0 -> explodeFactor u = 1.
Proof.
  intros Hu. rewrite explodeFactor_sqrt, smoothstep_unit.
  rewrite clamp_below by lra.
  replace (0 * 0 * (3 - 2 * 0)) with 0 by lra. rewrite sqrt_0. lra.
Qed.

Lemma explodeFactor_antitone (u v : R) :
  u <= v -> explodeFactor v <= explodeFactor u.
Proof.
  intros Huv. rewrite !explodeFactor_sqrt.
  pose proof (smoothstep_monotone u v Huv) as Hm.
  apply sqrt_le_1_alt in Hm. lra.
Qed.

(** The displacement factor is between 0 and 1; it is 1 for a progress of 0
    or less and 0 for a progress of 1 or more; and it never grows with the
    progress: the instances only come closer to their places. *)
Theorem explodeFactor_range_monotone :
  (forall u, 0 <= explodeFactor u /\ explodeFactor u <= 1) /\
  (forall u, u <= 0 -> explodeFactor u = 1) /\
  (forall u, 1 <= u -> explodeFactor u = 0) /\
  (forall u v, u <= v -> explodeFactor v <= explodeFactor u).
Proof.
  split; [|split; [|split]].
  - apply explodeFactor_bounds.
  - apply explodeFactor_below.
  - apply explodeFactor_above.
  - apply explodeFactor_antitone.
Qed.

Lemma explodeFactor_range_monotone_witness :
  explodeFactor (-3) = 1 /\ explodeFactor 7 = 0 /\
  explodeFactor (3 / 4) <= explodeFactor (1 / 4).
Proof.
  destruct explodeFactor_range_monotone as (_ & Hlo & Hhi & Hmono).
  split; [apply Hlo; lra|]. split; [apply Hhi; lra|]. apply Hmono. lra.
Defined.

End ShaderMore.

(** ** The hover highlight, frame against frame *)

Module HighlightMore.
Import Sampler Highlight HighlightFacts.
Local Open Scope Z_scope.

(** A frame run twice on the same hits does the second time nothing: no
    colour is written and [needsUpdate] is not set again. *)
Theorem animate_idempotent (intersection : list nat) (s : State) :
  animate intersection (animate intersection s) = animate intersection s.
Proof.
  unfold animate. destruct intersection as [|hit rest].
  - destruct (hoveredInstanceId s =? -1) eqn:E; cbn [negb hoveredInstanceId].
    + now rewrite E.
    + reflexivity.
  - destruct (Z.of_nat hit =? hoveredInstanceId s) eqn:E;
      cbn [negb hoveredInstanceId].
    + now rewrite E.
    + now rewrite Z.eqb_refl.
Qed.

Lemma store_other (arr : list R) (k : Z) (v : R) (n : nat) :
  k <> Z.of_nat n -> store arr k v !! n = arr !! n.
Proof.
  intros Hne. unfold store. destruct (k <? 0) eqn:E; [reflexivity|].
  apply Z.ltb_ge in E. apply list_lookup_insert_ne. lia.
Qed.

Lemma setColorAt_other (arr : list R) (h : Z) (c : Color) (n : nat) :
  Z.of_nat n <> h * 3 -> Z.of_nat n <> h * 3 + 1 ->
  Z.of_nat n <> h * 3 + 2 ->
  setColorAt arr h c !! n = arr !! n.
Proof.
  intros H0 H1 H2. unfold setColorAt. cbv zeta.
  now rewrite !store_other by lia.
Qed.

(** A frame leaves the colour buffer as long as it was and writes no slot
    of it but the three channels of the instance that was hovered and the
    three of the nearest hit. *)
Theorem animate_writes_two_instances (intersection : list nat) (s : State)
  (n : nat) :
  (Z.of_nat n / 3 <> hoveredInstanceId s) ->
  head intersection <> Some (Nat.div n 3) ->
  length (instanceColor (animate intersection s))
    = length (instanceColor s) /\
  instanceColor (animate intersection s) !! n = instanceColor s !! n.
Proof.
  intros Hhov Hhit.
  assert (Hslots : forall h : Z, Z.of_nat n / 3 <> h ->
            Z.of_nat n <> h * 3 /\ Z.of_nat n <> h * 3 + 1 /\
            Z.of_nat n <> h * 3 + 2).
  { intros h Hne. repeat split; intros Heq; apply Hne; rewrite Heq;
      symmetry.
    - apply Z.div_unique with 0; lia.
    - apply Z.div_unique with 1; lia.
    - apply Z.div_unique with 2; lia. }
  destruct (Hslots _ Hhov) as (Ha & Hb & Hc).
  unfold animate. destruct intersection as [|hit rest].
  - destruct (hoveredInstanceId s =? -1); cbn [negb instanceColor];
      [split; reflexivity|].
    split; [apply setColorAt_length|now apply setColorAt_other].
  - destruct (Z.of_nat hit =? hoveredInstanceId s); cbn [negb instanceColor];
      [split; reflexivity|].
    assert (Hne : Z.of_nat n / 3 <> Z.of_nat hit).
    { intros Heq. apply Hhit. cbn [head]. f_equal.
      apply Nat2Z.inj. rewrite <- Heq. now rewrite Nat2Z.inj_div. }
    destruct (Hslots _ Hne) as (Ha' & Hb' & Hc').
    rewrite setColorAt_length, setColorAt_other by assumption.
    destruct (hoveredInstanceId s =? -1); cbn [negb]; [split; reflexivity|].
    split; [apply setColorAt_length|now apply setColorAt_other].
Qed.

Lemma animate_writes_two_instances_witness :
  let table := [1; 0; 0; 1; 1; 0; 0; 0; 1]%R in
  let s0 := mkState table true table 0 in
  instanceColor (animate [1%nat] s0) !! 7%nat = Some 0%R /\
  length (instanceColor (animate [1%nat] s0)) = 9%nat.
Proof.
  intros table s0.
  destruct (animate_writes_two_instances [1%nat] s0 7) as [Hlen Hslot].
  - vm_compute. discriminate.
  - discriminate.
  - split; [rewrite Hslot; reflexivity | rewrite Hlen; reflexivity].
Defined.

End HighlightMore.

(** ** The pool, frame after frame *)

Module FlightFacts.
Import Fireworks FireworksFacts Flight.
Local Open Scope Q_scope.

Section Pool.
Context {math : MathLib}.

(** *** Invariants of the pool *)

Lemma omap_survive_invariant' (P R : Firework -> Prop) (l : list Firework) :
  (forall fw fw', P fw -> survive fw = Some fw' -> R fw') ->
  Forall P l -> Forall R (omap survive l).
Proof.
  intros HR.
  induction 1 as [|fw l Hfw Hl IH]; cbn [omap list_omap]; [constructor|].
  destruct (survive fw) as [fw'|] eqn:E; [|exact IH].
  constructor; [|exact IH]. eapply HR; eassumption.
Qed.

Lemma omap_survive_invariant (P : Firework -> Prop) (l : list Firework) :
  (forall fw fw', P fw -> survive fw = Some fw' -> P fw') ->
  Forall P l -> Forall P (omap survive l).
Proof. apply omap_survive_invariant'. Qed.

(** The explosions a frame pushes, from what holds of the rockets it
    visits. *)
Lemma pushed_Forall (P R : Firework -> Prop) (l : list Firework) (g : Rng) :
  (forall r g, unit_draws g -> P (rocket r) -> reaches r = true ->
     R (explosion (createExplosion (Rocket.x (ascend r)) (Rocket.y (ascend r))
                                   (Rocket.z (ascend r)) g).1)) ->
  unit_draws g -> Forall P l -> Forall R (pushed l g).1.
Proof.
  intros HR. revert g.
  induction l as [|[r|e] l IH]; intros g Hg Hl; cbn [pushed].
  - constructor.
  - apply Forall_cons in Hl. destruct Hl as [Hr Hl].
    destruct (reaches r) eqn:E; [|now apply IH].
    unfold bindG, retG.
    pose proof (HR r g Hg Hr E) as He.
    pose proof (createExplosion_draws (Rocket.x (ascend r))
                  (Rocket.y (ascend r)) (Rocket.z (ascend r)) g) as Hd.
    destruct (createExplosion _ _ _ g) as [e1 g1]. cbn [fst snd] in *.
    assert (Hg1 : unit_draws g1) by (intros k; rewrite Hd; apply Hg).
    specialize (IH g1 Hg1 Hl). destruct (pushed l g1) as [es g2].
    cbn [fst] in *. constructor; assumption.
  - apply Forall_cons in Hl. destruct Hl as [_ Hl]. now apply IH.
Qed.

Lemma Forall_rev' {A : Type} (P : A -> Prop) (l : list A) :
  Forall P l -> Forall P (rev l).
Proof.
  induction 1 as [|a l Ha Hl IH]; cbn [rev]; [constructor|].
  apply Forall_app. split; [exact IH|]. constructor; [exact Ha|constructor].
Qed.

(** A frame keeps what [createRocket] establishes, [survive] keeps and a
    burst hands down. *)
Lemma updateFireworks_invariant (P : Firework -> Prop) (rate : Q) (w : World) :
  (forall g, unit_draws g -> P (rocket (createRocket g).1)) ->
  (forall fw fw', P fw -> survive fw = Some fw' -> P fw') ->
  (forall r g, unit_draws g -> P (rocket r) -> reaches r = true ->
     P (explosion (createExplosion (Rocket.x (ascend r)) (Rocket.y (ascend r))
                                   (Rocket.z (ascend r)) g).1)) ->
  unit_draws (rng w) -> Forall P (fireworks w) ->
  exists w', updateFireworks rate w = Some (tt, w') /\
             unit_draws (rng w') /\ Forall P (fireworks w').
Proof.
  intros Hlaunch Hsurv Hburst Hg Hw.
  unfold updateFireworks, bind. rewrite spawn_eq. cbv zeta.
  set (g1 := mkRng (draws (rng w)) (S (cursor (rng w)))).
  assert (Hg1 : unit_draws g1) by (intros k; apply Hg).
  destruct (ltb _ rate && _).
  - rewrite updateAll_eq. cbn [fireworks rng].
    pose proof (createRocket_spec g1) as (Hg2 & _).
    pose proof (Hlaunch g1 Hg1) as Hrk.
    set (rk := (createRocket g1).1) in *.
    set (g2 := (createRocket g1).2) in *.
    assert (Hu2 : unit_draws g2) by (intros k; rewrite Hg2; apply Hg).
    assert (Hall : Forall P (fireworks w ++ [rocket rk])).
    { apply Forall_app. split; [exact Hw|]. constructor; [exact Hrk|constructor]. }
    eexists. split; [reflexivity|]. cbn [rng fireworks]. split.
    + intros k. rewrite pushed_draws. apply Hu2.
    + apply Forall_app. split.
      * now apply omap_survive_invariant.
      * apply (pushed_Forall P P); [exact Hburst|exact Hu2|].
        now apply Forall_rev'.
  - rewrite updateAll_eq. cbn [fireworks rng].
    eexists. split; [reflexivity|]. cbn [rng fireworks]. split.
    + intros k. rewrite pushed_draws. apply Hg1.
    + apply Forall_app. split.
      * now apply omap_survive_invariant.
      * apply (pushed_Forall P P); [exact Hburst|exact Hg1|].
        now apply Forall_rev'.
Qed.

Lemma run_invariant (P : Firework -> Prop) (rates : list Q) (w : World) :
  (forall g, unit_draws g -> P (rocket (createRocket g).1)) ->
  (forall fw fw', P fw -> survive fw = Some fw' -> P fw') ->
  (forall r g, unit_draws g -> P (rocket r) -> reaches r = true ->
     P (explosion (createExplosion (Rocket.x (ascend r)) (Rocket.y (ascend r))
                                   (Rocket.z (ascend r)) g).1)) ->
  unit_draws (rng w) -> Forall P (fireworks w) ->
  exists w', run rates w = Some (tt, w') /\
             unit_draws (rng w') /\ Forall P (fireworks w').
Proof.
  intros Hlaunch Hsurv Hburst. revert w.
  induction rates as [|rate rates IH]; intros w Hg Hw.
  - exists w. cbn [run]. unfold ret. auto.
  - cbn [run]. unfold bind.
    destruct (updateFireworks_invariant P rate w Hlaunch Hsurv Hburst Hg Hw)
      as (w1 & -> & Hg1 & Hw1).
    now apply IH.
Qed.

(** *** Well-formed entries *)

(** The index [Math.floor(Math.random() * fireworkColors.length)] is
    inside the palette. *)
Lemma firework_color_pick (u : Q) :
  0 <= u -> u < 1 ->
  exists hex,
    index fireworkColors
          (Qfloor (u * inject_Z (Z.of_nat (length fireworkColors))))
      = Some hex /\
    In hex fireworkColors.
Proof.
  intros H0 H1.
  change (inject_Z (Z.of_nat (length fireworkColors))) with 9.
  set (k := Qfloor (u * 9)).
  assert (Hk0 : (0 <= k)%Z).
  { change 0%Z with (Qfloor 0). apply Qfloor_resp_le. lra. }
  assert (Hk9 : (k < 9)%Z).
  { pose proof (Qfloor_le (u * 9)) as Hle. fold k in Hle.
    rewrite Zlt_Qlt. change (inject_Z 9) with 9. lra. }
  assert (Hk : (k = 0 \/ k = 1 \/ k = 2 \/ k = 3 \/ k = 4 \/ k = 5 \/
                k = 6 \/ k = 7 \/ k = 8)%Z) by lia.
  destruct Hk as [->|[->|[->|[->|[->|[->|[->|[->| ->]]]]]]]];
    (eexists; split; [reflexivity|cbn; tauto]).
Qed.

Lemma createRocket_wellformed (g : Rng) :
  unit_draws g -> wellformed (rocket (createRocket g).1).
Proof.
  intros Hg.
  destruct (Hg (S (S (cursor g)))) as [H0 H1].
  destruct (Hg (S (S (S (S (cursor g)))))) as [H2 H3].
  destruct (Hg (S (S (S (cursor g))))) as [H4 H5].
  destruct (firework_color_pick _ H4 H5) as (hex & Hhex & Hin).
  cbn. split; [reflexivity|].
  repeat (split; [lra|]).
  exists hex. split; [exact Hhex|exact Hin].
Qed.

Lemma moveParticle_length (j : nat) (pv : list Q * list Velocity.t) :
  length (moveParticle j pv).1 = length pv.1.
Proof.
  destruct pv as [P V]. unfold moveParticle.
  destruct (V !! j); [|reflexivity].
  cbn [fst]. now rewrite !length_alter.
Qed.

Lemma moveParticles_length (P : list Q) (V : list Velocity.t) :
  length (moveParticles P V).1 = length P.
Proof.
  unfold moveParticles.
  change P with (P, V).1 at 2.
  generalize (P, V). induction (seq 0 (length V)) as [|j js IH]; intros pv.
  - reflexivity.
  - cbn [fold_left]. rewrite IH. apply moveParticle_length.
Qed.

Lemma survive_wellformed (fw fw' : Firework) :
  wellformed fw -> survive fw = Some fw' -> wellformed fw'.
Proof.
  destruct fw as [r|e]; cbn [survive wellformed].
  - intros (Hp & Hy0 & Hy & Ht0 & Ht1 & Hs0 & Hs1 & Hc).
    destruct (reaches r) eqn:E; [discriminate|].
    intros [= <-]. apply geb_false in E.
    cbn [wellformed ascend Rocket.points Rocket.x Rocket.y Rocket.z
         Rocket.targetY Rocket.speed Rocket.color] in *.
    split; [rewrite Hp; reflexivity|].
    repeat (split; [lra|]). exact Hc.
  - intros (Hlp & Hlc & Hlv & H0 & H1 & Hd0 & Hd1).
    destruct (fades e) eqn:E; [discriminate|].
    intros [= <-]. apply leb_false in E.
    cbn [wellformed burst Explosion.positions Explosion.colors
         Explosion.velocities Explosion.life Explosion.decay] in *.
    split; [now rewrite moveParticles_length|]. split; [exact Hlc|].
    split; [now rewrite (proj1 (moveParticles_spec _ _))|].
    repeat split; lra.
Qed.

Lemma createParticle_colors_length (x y z : Q) (i : nat) (b : Buffers)
  (g : Rng) :
  length (b_colors (createParticle x y z i b g).1) = length (b_colors b).
Proof.
  unfold createParticle, bindG, retG, random. cbn [fst b_colors].
  now rewrite !length_insert.
Qed.

(** The particle loop leaves the colour buffer as long as it was. *)
Lemma for_up_createParticle_colors (x y z : Q) (k : nat) (b : Buffers)
  (g : Rng) :
  length (b_colors (for_up k (createParticle x y z) b g).1)
  = length (b_colors b).
Proof.
  induction k as [|k IH]; [reflexivity|].
  rewrite for_up_S, createParticle_colors_length. exact IH.
Qed.

Lemma createExplosion_wellformed (x y z : Q) (g : Rng) :
  unit_draws g -> wellformed (explosion (createExplosion x y z g).1).
Proof.
  intros Hg.
  pose proof (createExplosion_sound x y z g Hg) as (H0 & H1 & Hd0 & Hd1).
  destruct (createExplosion_spec x y z g) as (_ & _ & _ & _ & Hlv & Hlp & _).
  pose proof (for_up_createParticle_colors x y z particleCount
                (mkBuffers (replicate (particleCount * 3) 0) []
                           (replicate (particleCount * 3) 0)) g) as Hlc.
  cbn [b_colors] in Hlc. rewrite length_replicate in Hlc.
  assert (Hc : Explosion.colors (createExplosion x y z g).1 =
               b_colors (for_up particleCount (createParticle x y z)
                   (mkBuffers (replicate (particleCount * 3) 0) []
                         (replicate (particleCount * 3) 0)) g).1).
  { rewrite createExplosion_eq. reflexivity. }
  cbn [wellformed]. rewrite Hc.
  split; [exact Hlp|]. split; [exact Hlc|]. split; [exact Hlv|].
  repeat split; assumption.
Qed.

Lemma wellformed_sound (fw : Firework) : wellformed fw -> sound fw.
Proof.
  destruct fw as [r|e]; cbn [wellformed sound].
  - intros (_ & _ & Hy & _ & _ & Hs & _). split; [exact Hy|lra].
  - intros (_ & _ & _ & H0 & H1 & Hd0 & Hd1). tauto.
Qed.

(** Every entry of a pool the script can be in is well formed. *)
Lemma run_wellformed (rates : list Q) (w : World) :
  unit_draws (rng w) -> Forall wellformed (fireworks w) ->
  exists w', run rates w = Some (tt, w') /\
             unit_draws (rng w') /\ Forall wellformed (fireworks w').
Proof.
  apply run_invariant.
  - apply createRocket_wellformed.
  - apply survive_wellformed.
  - intros r g Hg _ _. now apply createExplosion_wellformed.
Qed.

(** *** The flight of a rocket *)

Lemma climb_S (n : nat) (r : Rocket.t) :
  climb (S n) r = if reaches r then None else climb n (ascend r).
Proof. reflexivity. Qed.

Lemma survive_frames_rocket (n : nat) (r : Rocket.t) :
  survive_frames n (rocket r) = rocket <$> climb n r.
Proof.
  revert r. induction n as [|n IH]; intros r; [reflexivity|].
  cbn [survive_frames survive]. rewrite climb_S.
  destruct (reaches r); [reflexivity|apply IH].
Qed.

Lemma climb_fields (n : nat) (r r' : Rocket.t) :
  climb n r = Some r' ->
  Rocket.y r' == Rocket.y r + inject_Z (Z.of_nat n) * Rocket.speed r /\
  Rocket.speed r' = Rocket.speed r /\
  Rocket.targetY r' = Rocket.targetY r /\
  Rocket.x r' = Rocket.x r /\ Rocket.z r' = Rocket.z r /\
  Rocket.color r' = Rocket.color r.
Proof.
  revert r. induction n as [|n IH]; intros r.
  - intros [= <-]. split; [cbn; ring|]. repeat split.
  - rewrite climb_S. destruct (reaches r); [discriminate|].
    intros H. apply IH in H. destruct H as (Hy & Hs & Ht & Hx & Hz & Hc).
    rewrite Hy, Hs, Ht, Hx, Hz, Hc, inject_nat_succ.
    cbn [ascend Rocket.y Rocket.speed Rocket.targetY Rocket.x Rocket.z
         Rocket.color].
    split; [ring|]. repeat split.
Qed.

(** A rocket that rises is still in the array after [n] rounds exactly
    when [n] rises leave it below its target. *)
Lemma climb_None_iff (n : nat) (r : Rocket.t) :
  0 < Rocket.speed r -> (1 <= n)%nat ->
  (climb n r = None <->
   Rocket.targetY r
     <= Rocket.y r + inject_Z (Z.of_nat n) * Rocket.speed r).
Proof.
  intros Hs. revert r Hs. induction n as [|n IH]; intros r Hs Hn; [lia|].
  rewrite climb_S, inject_nat_succ.
  destruct (inject_nat_bounds n n (le_n n)) as [Hn0 _].
  destruct (reaches r) eqn:E.
  - apply reaches_spec in E. split; [intros _|reflexivity]. nra.
  - assert (E' : Rocket.y r + Rocket.speed r < Rocket.targetY r).
    { apply Qnot_le_lt. intros H. apply reaches_spec in H. congruence. }
    destruct n as [|n].
    + cbn [climb]. split; [discriminate|]. intros H. exfalso.
      change (inject_Z (Z.of_nat 0)) with 0 in H. lra.
    + rewrite IH by (first [exact Hs|lia]).
      cbn [ascend Rocket.y Rocket.speed Rocket.targetY].
      split; intros H; lra.
Qed.

Lemma climb_None_mono (n m : nat) (r : Rocket.t) :
  (n <= m)%nat -> climb n r = None -> climb m r = None.
Proof.
  revert m r. induction n as [|n IH]; intros m r Hm; [discriminate|].
  destruct m as [|m]; [lia|]. rewrite !climb_S.
  destruct (reaches r); [reflexivity|]. apply IH. lia.
Qed.

Lemma climb_last_round (a b : nat) (r : Rocket.t) :
  (a <= b)%nat -> is_Some (climb a r) -> climb b r = None ->
  exists n, (a < n <= b)%nat /\ is_Some (climb (n - 1) r) /\
            climb n r = None.
Proof.
  intros Hab Ha. induction Hab as [|b Hab IH]; intros Hb.
  - rewrite Hb in Ha. destruct Ha; discriminate.
  - destruct (climb b r) as [rb|] eqn:E.
    + exists (S b). split; [lia|].
      replace (S b - 1)%nat with b by lia. rewrite E. split; [eauto|exact Hb].
    + destruct (IH eq_refl) as (n & Hn & Hs & Hnone).
      exists n. split; [lia|]. split; assumption.
Qed.

(** The rocket [createRocket] returns starts on the ground, aims at a
    height between 8 and 16 and rises by a speed between [0.15] and
    [0.25] a frame, the ends of both ranges included.  After [n] frames in
    the array it is at [n] times its speed.  It is still in the array
    after 31 frames and no longer after 107: the frame that makes it burst
    is one of its frames 32 to 107, and no run of 107 frames or more on a
    pool that holds it leaves it in the pool. *)
Theorem rocket_flight_bounded (g : Rng) :
  unit_draws g ->
  let r := (createRocket g).1 in
  Rocket.y r = 0 /\
  8 <= Rocket.targetY r /\ Rocket.targetY r <= 16 /\
  0.15 <= Rocket.speed r /\ Rocket.speed r <= 0.25 /\
  (forall n r', climb n r = Some r' ->
     Rocket.y r' == inject_Z (Z.of_nat n) * Rocket.speed r) /\
  is_Some (climb 31 r) /\
  climb 107 r = None /\
  (exists n, (32 <= n <= 107)%nat /\
     is_Some (climb (n - 1) r) /\ climb n r = None) /\
  (forall rates pre suf g0, (107 <= length rates)%nat ->
   exists newer g',
     run rates (mkWorld g0 (pre ++ rocket r :: suf))
     = Some (tt, mkWorld g'
                   (omap (survive_frames (length rates)) pre
                    ++ omap (survive_frames (length rates)) suf ++ newer))).
Proof.
  intros Hg r.
  pose proof (createRocket_wellformed g Hg) as Hwf. fold r in Hwf.
  cbn [wellformed] in Hwf.
  destruct Hwf as (_ & _ & _ & Ht0 & Ht1 & Hs0 & Hs1 & _).
  assert (Hy : Rocket.y r = 0) by reflexivity.
  assert (Hpos : 0 < Rocket.speed r) by lra.
  assert (H107 : climb 107 r = None).
  { apply climb_None_iff; [exact Hpos|lia|]. rewrite Hy.
    change (inject_Z (Z.of_nat 107)) with 107. lra. }
  assert (H31 : is_Some (climb 31 r)).
  { destruct (climb 31 r) eqn:E; [eauto|].
    apply climb_None_iff in E; [|exact Hpos|lia]. rewrite Hy in E.
    change (inject_Z (Z.of_nat 31)) with 31 in E. lra. }
  split; [exact Hy|]. do 4 (split; [assumption|]).
  split; [|split; [exact H31|split; [exact H107|split]]].
  - intros n r' Hc. destruct (climb_fields n r r' Hc) as (Hy' & _).
    rewrite Hy in Hy'. rewrite Hy'. ring.
  - destruct (climb_last_round 31 107 r ltac:(lia) H31 H107)
      as (n & Hn & Hsome & Hnone).
    exists n. split; [lia|]. split; assumption.
  - intros rates pre suf g0 Hlen.
    destruct (run_around rates pre suf (rocket r) g0) as (newer & g' & H).
    exists newer, g'. rewrite H, survive_frames_rocket.
    now rewrite (climb_None_mono 107 (length rates) r Hlen H107).
Qed.

(** *** A frame, entry by entry *)

Lemma pushed_fresh (l : list Firework) (g : Rng) :
  unit_draws g -> Forall fresh (pushed l g).1.
Proof.
  intros Hg. apply (pushed_Forall (fun _ => True) fresh); [|exact Hg|].
  - intros r g0 _ _ _. eexists. split; [reflexivity|].
    destruct (createExplosion_spec (Rocket.x (ascend r)) (Rocket.y (ascend r))
                (Rocket.z (ascend r)) g0) as (_ & Hl & Ho & _).
    split; assumption.
  - apply Forall_forall. intros; exact I.
Qed.

Lemma createRocket_on_the_ground (g : Rng) :
  unit_draws g -> reaches (createRocket g).1 = false.
Proof.
  intros Hg. pose proof (createRocket_wellformed g Hg) as Hwf.
  destruct (reaches (createRocket g).1) eqn:E; [|reflexivity].
  apply reaches_spec in E. cbn [wellformed] in Hwf.
  assert (Hy : Rocket.y (createRocket g).1 = 0) by reflexivity.
  rewrite Hy in E.
  destruct Hwf as (_ & _ & _ & Ht0 & _ & _ & Hs1 & _). lra.
Qed.

(** A frame leaves in the array, in this order: the entries it found that
    survive it, each updated once; the rocket it launched, if it launched
    one, already risen once; and one explosion for each rocket that
    reached its target, as [createExplosion] returned it.  It launches a
    rocket when its first draw is below the rate and it found fewer than 8
    entries. *)
Theorem frame_keeps_order (rate : Q) (w : World) :
  unit_draws (rng w) ->
  let u := draws (rng w) (cursor (rng w)) in
  let g1 := mkRng (draws (rng w)) (S (cursor (rng w))) in
  let r0 := (createRocket g1).1 in
  exists (es : list Firework) (g' : Rng),
    updateFireworks rate w
    = Some (tt, mkWorld g'
                  (omap survive (fireworks w)
                   ++ (if ltb u rate && (length (fireworks w) <? 8)%nat
                       then [rocket (ascend r0)] else [])
                   ++ es)) /\
    Rocket.y (ascend r0) = 0 + Rocket.speed r0 /\
    Forall fresh es /\
    length es = length (List.filter bursting (fireworks w)).
Proof.
  intros Hg u g1 r0.
  assert (Hg1 : unit_draws g1) by (intros k; apply Hg).
  unfold updateFireworks, bind. rewrite spawn_eq. cbv zeta.
  fold u g1 r0.
  destruct (ltb u rate && _).
  - rewrite updateAll_eq. cbn [fireworks rng].
    pose proof (createRocket_spec g1) as (Hg2 & _).
    pose proof (createRocket_sound g1 Hg1) as Hsound.
    pose proof (createRocket_wellformed g1 Hg1) as Hwf.
    fold r0 in Hsound, Hwf.
    set (g2 := (createRocket g1).2) in *.
    assert (Hu2 : unit_draws g2) by (intros k; rewrite Hg2; apply Hg).
    pose proof (createRocket_on_the_ground g1 Hg1) as Hr0. fold r0 in Hr0.
    rewrite omap_app, <- app_assoc, rev_app_distr.
    change (omap survive [rocket r0])
      with (match survive (rocket r0) with
            | Some fw => [fw] | None => [] end).
    cbn [survive rev app pushed]. rewrite Hr0.
    eexists _, _. split; [reflexivity|]. split; [reflexivity|].
    split; [now apply pushed_fresh|].
    now rewrite pushed_length, filter_rev_length.
  - rewrite updateAll_eq. cbn [fireworks rng app].
    eexists _, _. split; [reflexivity|]. split; [reflexivity|].
    split; [now apply pushed_fresh|].
    now rewrite pushed_length, filter_rev_length.
Qed.

(** *** Frames that launch nothing *)

Lemma expires_survive (n : nat) (fw fw' : Firework) :
  expires (S n) fw -> survive fw = Some fw' -> expires n fw'.
Proof.
  destruct fw as [r|e]; cbn [survive expires].
  - intros (Hn & Hs & Ht). destruct (reaches r) eqn:E; [discriminate|].
    intros [= <-].
    assert (E' : Rocket.y r + Rocket.speed r < Rocket.targetY r).
    { apply Qnot_le_lt. intros H. apply reaches_spec in H. congruence. }
    cbn [expires ascend Rocket.y Rocket.speed Rocket.targetY].
    replace (S n - 100)%nat with (S (n - 100)) in Ht by lia.
    rewrite inject_nat_succ in Ht.
    assert (Hn' : (101 <= n)%nat).
    { destruct (le_lt_dec 101 n) as [H|H]; [exact H|].
      replace (n - 100)%nat with 0%nat in Ht by lia.
      change (inject_Z (Z.of_nat 0)) with 0 in Ht. lra. }
    split; [exact Hn'|]. split; [exact Hs|]. lra.
  - rewrite age_S. destruct (fades e); [discriminate|].
    intros H [= <-]. exact H.
Qed.

Lemma expires_0 (fw : Firework) : ~ expires 0 fw.
Proof.
  destruct fw as [r|e]; cbn [expires age].
  - intros (H & _). lia.
  - discriminate.
Qed.

Lemma expires_mono (n m : nat) (fw : Firework) :
  (n <= m)%nat -> expires n fw -> expires m fw.
Proof.
  intros Hnm. destruct fw as [r|e]; cbn [expires].
  - intros (Hn & Hs & Ht). split; [lia|]. split; [exact Hs|].
    destruct (inject_nat_bounds (n - 100) (m - 100) ltac:(lia)) as [_ Hle].
    nra.
  - now apply age_None_mono.
Qed.

Lemma wellformed_expires (fw : Firework) : wellformed fw -> expires 207 fw.
Proof.
  intros Hwf. destruct fw as [r|e]; cbn [expires].
  - destruct Hwf as (_ & Hy0 & _ & _ & Ht1 & Hs0 & _).
    split; [lia|]. split; [lra|].
    change (inject_Z (Z.of_nat (207 - 100))) with 107. lra.
  - apply (age_None_mono 100); [lia|].
    apply sound_explosion_gone. now apply wellformed_sound.
Qed.

(** A frame that launches nothing takes a frame off the time each entry
    has left. *)
Lemma quiet_frame (rate : Q) (n : nat) (w : World) :
  rate <= 0 -> unit_draws (rng w) ->
  Forall (expires (S n)) (fireworks w) ->
  exists w', updateFireworks rate w = Some (tt, w') /\
             unit_draws (rng w') /\ Forall (expires n) (fireworks w').
Proof.
  intros Hrate Hg Hw.
  unfold updateFireworks, bind. rewrite spawn_eq. cbv zeta.
  set (g1 := mkRng (draws (rng w)) (S (cursor (rng w)))).
  assert (Hg1 : unit_draws g1) by (intros k; apply Hg).
  assert (Hno : ltb (draws (rng w) (cursor (rng w))) rate = false).
  { apply ltb_false. destruct (Hg (cursor (rng w))) as [H0 _]. lra. }
  rewrite Hno, andb_false_l, updateAll_eq. cbn [fireworks rng].
  eexists. split; [reflexivity|]. cbn [rng fireworks]. split.
  - intros k. rewrite pushed_draws. apply Hg1.
  - apply Forall_app. split.
    + apply (omap_survive_invariant' (expires (S n)) (expires n));
        [apply expires_survive|exact Hw].
    + apply (pushed_Forall (expires (S n)) (expires n));
        [|exact Hg1|now apply Forall_rev'].
      intros r g0 Hg0 (Hn & _) _. cbn [expires].
      apply (age_None_mono 100); [lia|].
      apply sound_explosion_gone. now apply createExplosion_sound.
Qed.

Lemma quiet_run (rates : list Q) (w : World) :
  quiet rates -> unit_draws (rng w) ->
  Forall (expires (length rates)) (fireworks w) ->
  exists w', run rates w = Some (tt, w') /\ fireworks w' = [].
Proof.
  revert w. induction rates as [|rate rates IH]; intros w Hq Hg Hw.
  - exists w. split; [reflexivity|].
    destruct (fireworks w) as [|fw pool]; [reflexivity|].
    apply Forall_cons in Hw. destruct Hw as [H _].
    now apply expires_0 in H.
  - apply Forall_cons in Hq. destruct Hq as [Hrate Hq].
    cbn [run length] in *. unfold bind.
    destruct (quiet_frame rate (length rates) w Hrate Hg Hw)
      as (w1 & -> & Hg1 & Hw1).
    now apply IH.
Qed.

(** Once the rate is 0 or less in every frame, so that no frame launches
    a rocket, 207 frames empty any pool the script has reached: 107 for
    the last rocket to burst and 100 for its explosion to fade. *)
Theorem pool_drains_when_quiet (rates more : list Q) (g : Rng) (w : World) :
  unit_draws g ->
  run rates (start g) = Some (tt, w) ->
  quiet more -> (207 <= length more)%nat ->
  exists w', run more w = Some (tt, w') /\ fireworks w' = [].
Proof.
  intros Hg Hrun Hq Hlen.
  destruct (run_wellformed rates (start g) Hg (Forall_nil_2 _))
    as (w0 & Hrun0 & Hg0 & Hwf).
  rewrite Hrun in Hrun0. injection Hrun0 as <-.
  apply quiet_run; [exact Hq|exact Hg0|].
  eapply Forall_impl; [exact Hwf|].
  intros fw Hfw. apply (expires_mono 207); [exact Hlen|].
  now apply wellformed_expires.
Qed.


End Pool.

(** *** The path of a particle *)

Lemma drag_power_S (n : nat) :
  0.97 ^ Z.of_nat (S n) == 0.97 * 0.97 ^ Z.of_nat n.
Proof.
  rewrite Nat2Z.inj_succ. unfold Z.succ.
  rewrite Qpower_plus by discriminate.
  change (0.97 ^ 1) with 0.97. ring.
Qed.

Lemma drag_power_range (n : nat) :
  0 < 0.97 ^ Z.of_nat n /\ 0.97 ^ Z.of_nat n <= 1.
Proof.
  induction n as [|n [IH0 IH1]].
  - change (0.97 ^ Z.of_nat 0) with 1. lra.
  - rewrite drag_power_S. split; nra.
Qed.

Lemma age_positions (n : nat) (e e' : Explosion.t) (j c : nat)
  (v : Velocity.t) (p : Q) :
  (c < 3)%nat ->
  age n e = Some e' ->
  Explosion.velocities e !! j = Some v ->
  Explosion.positions e !! (j * 3 + c)%nat = Some p ->
  exists p', Explosion.positions e' !! (j * 3 + c)%nat = Some p' /\
    p' == p + coordinate c v * (1 - 0.97 ^ Z.of_nat n) * (100 # 3)
          - fallen c n.
Proof.
  intros Hc. revert e v p. induction n as [|n IH]; intros e v p.
  - intros [= <-] _ Hp. exists p. split; [exact Hp|].
    change (0.97 ^ Z.of_nat 0) with 1.
    destruct c as [|[|c]]; cbn [fallen];
      change (inject_Z (Z.of_nat 0)) with 0; ring.
  - rewrite age_S. destruct (fades e); [discriminate|].
    intros Hage Hv Hp.
    assert (Hv1 : Explosion.velocities (burst e) !! j = Some (dragged v)).
    { rewrite burst_velocities, Hv. reflexivity. }
    assert (Hp1 : Explosion.positions (burst e) !! (j * 3 + c)%nat
                  = Some (p + displacement c v)).
    { rewrite (burst_positions e j c v Hc Hv), Hp. reflexivity. }
    destruct (IH _ _ _ Hage Hv1 Hp1) as (p' & Hp' & Heq).
    exists p'. split; [exact Hp'|].
    rewrite Heq, drag_power_S.
    destruct c as [|[|[|c]]]; [| | |lia];
      cbn [coordinate fallen displacement dragged
           Velocity.x Velocity.y Velocity.z];
      rewrite ?inject_nat_succ; ring.
Qed.

(** A particle of velocity [v] is, after [n] rounds of its explosion,
    where it was plus [v * (1 - 0.97^n) / 0.03], and lower by [0.003 * n]:
    the drag bounds what its velocity carries it over by [100/3] times
    that velocity, in the direction of that velocity, while it sinks by
    the same [0.003] in every round. *)
Theorem particle_path_closed_form (e : Explosion.t) (j : nat)
  (v : Velocity.t) :
  Explosion.velocities e !! j = Some v ->
  forall n e' c p, (c < 3)%nat ->
    age n e = Some e' ->
    Explosion.positions e !! (j * 3 + c)%nat = Some p ->
    exists p', Explosion.positions e' !! (j * 3 + c)%nat = Some p' /\
      p' == p + coordinate c v * (1 - 0.97 ^ Z.of_nat n) * (100 # 3)
            - fallen c n /\
      (0 <= coordinate c v ->
         p - fallen c n <= p' /\
         p' <= p - fallen c n + coordinate c v * (100 # 3)) /\
      (coordinate c v <= 0 ->
         p - fallen c n + coordinate c v * (100 # 3) <= p' /\
         p' <= p - fallen c n).
Proof.
  intros Hv n e' c p Hc Hage Hp.
  destruct (age_positions n e e' j c v p Hc Hage Hv Hp) as (p' & Hp' & Heq).
  exists p'. split; [exact Hp'|]. split; [exact Heq|].
  destruct (drag_power_range n) as [Ha0 Ha1].
  split; intros Hsign; rewrite Heq; split; nra.
Qed.

(** The theorem at particle 7 of [spark], after 2 rounds: it has moved by
    [0.12 * (1 + 0.97)] upwards and sunk by [0.006]. *)
Lemma particle_path_closed_form_witness :
  exists e' p',
    age 2 spark = Some e' /\
    Explosion.positions e' !! 22%nat = Some p' /\
    p' == 8 + 0.12 * 1.97 - 0.006.
Proof.
  assert (Hv : Explosion.velocities spark !! 7%nat
               = Some (Velocity.mk 0.06 0.12 (-0.04))) by reflexivity.
  assert (Hage : age 2 spark = Some (burst (burst spark))) by reflexivity.
  assert (Hp : Explosion.positions spark !! (7 * 3 + 1)%nat = Some 8)
    by reflexivity.
  destruct (particle_path_closed_form spark 7 _ Hv 2 _ 1 8 ltac:(lia) Hage Hp)
    as (p' & Hp' & Heq & _).
  exists (burst (burst spark)), p'. split; [reflexivity|].
  split; [exact Hp'|].
  rewrite Heq. vm_compute. reflexivity.
Defined.

(** The flight of the rocket [createRocket] returns when every draw is
    [1/2]: it starts on the ground and one of its frames 32 to 107 makes
    it burst. *)
Lemma rocket_flight_bounded_witness :
  unit_draws g_half /\
  Rocket.y (createRocket (math := rational_math) g_half).1 = 0 /\
  exists n, (32 <= n <= 107)%nat /\
    climb n (createRocket (math := rational_math) g_half).1 = None.
Proof.
  split; [exact half_draws_in_range|].
  destruct (rocket_flight_bounded (math := rational_math) g_half
              half_draws_in_range)
    as (Hy & _ & _ & _ & _ & _ & _ & _ & (n & Hn & _ & Hnone) & _).
  split; [exact Hy|]. exists n. split; [exact Hn|exact Hnone].
Defined.

(** A frame at the rate [0.015] on the pool that holds [flare] alone, when
    every draw is [1/2]: nothing is launched, [flare] bursts, and the
    array holds the one explosion made of it. *)
Lemma frame_keeps_order_witness :
  unit_draws g_half /\
  exists es g',
    updateFireworks (math := rational_math) 0.015
      (mkWorld g_half [rocket flare])
      = Some (tt, mkWorld g' es) /\
    Forall fresh es /\ length es = 1%nat.
Proof.
  split; [exact half_draws_in_range|].
  destruct (frame_keeps_order (math := rational_math) 0.015
              (mkWorld g_half [rocket flare]) half_draws_in_range)
    as (es & g' & Hrun & _ & Hfresh & Hlen).
  exists es, g'. split; [exact Hrun|]. split; [exact Hfresh|exact Hlen].
Defined.

Lemma quiet_replicate (n : nat) (rate : Q) :
  rate <= 0 -> quiet (replicate n rate).
Proof.
  intros H. induction n as [|n IH]; cbn [replicate]; constructor; assumption.
Qed.

(** The pool the stream [g_launch] leads to in 54 frames at the rate
    [0.015] is empty after 207 frames at the rate 0. *)
Lemma pool_drains_when_quiet_witness :
  unit_draws g_launch /\
  exists w w',
    run (math := rational_math) (replicate 54 0.015) (start g_launch)
      = Some (tt, w) /\
    run (math := rational_math) (replicate 207 0) w = Some (tt, w') /\
    fireworks w' = [].
Proof.
  split; [exact launch_draws_in_range|].
  destruct (run_length (math := rational_math) (replicate 54 0.015)
              (start g_launch)) as (w & Hrun & _); [cbn; lia|].
  destruct (pool_drains_when_quiet (math := rational_math)
              (replicate 54 0.015) (replicate 207 0) g_launch w
              launch_draws_in_range Hrun)
    as (w' & Hrun' & Hempty).
  - apply quiet_replicate. lra.
  - rewrite length_replicate. lia.
  - exists w, w'. split; [exact Hrun|]. split; [exact Hrun'|exact Hempty].
Defined.


End FlightFacts.

(** ** Scales, rotations and colours of the instances *)

Module SamplerMore.
Import Sampler SamplerFacts.
Local Open Scope R_scope.

(** The colours the box loop has pushed after [n] rounds: three channels
    of a colour of the palette for each round. *)
Lemma populateBoxes_colors (n : nat) (st0 : Boxes) (g : Rng) :
  unit_draws g ->
  exists st picked,
    (for_up n placeBox (Some st0) g).1 = Some st /\
    length picked = n /\
    Forall (fun color => In color colorPalette) picked /\
    boxColors st
    = boxColors st0
      ++ concat (map (fun color => [r color; Sampler.g color; b color])
                     picked).
Proof.
  intros Hg. induction n as [|n IH].
  - exists st0, []. cbn [for_up]. unfold retG. cbn [fst].
    split; [reflexivity|]. split; [reflexivity|].
    split; [constructor|]. cbn. now rewrite app_nil_r.
  - destruct IH as (st & picked & Hrun & Hlen & Hpal & Hcol).
    destruct (populateBoxes_loop n st0 g Hg) as (st' & Hrun' & _).
    rewrite Hrun' in Hrun. cbn [fst] in Hrun. injection Hrun as ->.
    rewrite for_up_S, Hrun'. cbn [fst snd].
    set (g1 := mkRng (draws g) (7 * n + cursor g)).
    destruct (unit_draw g1 6) as [H0 H1]; [intros k; apply Hg|].
    destruct (placeBox_eq n st g1 H0 H1) as (color & Hin & ->).
    exists (mkBoxes (<[n := boxAt (draw g1 0) (draw g1 1) (draw g1 2)
                                 (draw g1 3) (draw g1 4) (draw g1 5)]>
                      (boxes st))
                   (boxColors st ++ [r color; Sampler.g color; b color])),
           (picked ++ [color]).
    cbn [fst boxColors]. split; [reflexivity|].
    split; [rewrite length_app; cbn [length]; lia|].
    split; [apply Forall_app; split; [exact Hpal|];
            constructor; [exact Hin|constructor]|].
    rewrite Hcol, map_app, concat_app, <- app_assoc. cbn [map concat].
    now rewrite app_nil_r.
Qed.

Lemma populateTree_rng (N : nat) (g : Rng) :
  (populateTree N g).2 = mkRng (draws g) (6 * N + cursor g).
Proof.
  unfold populateTree.
  destruct (for_up_insert 6
              (fun i g => leafAt N i (draw g 0) (draw g 1) (draw g 2)
                                 (draw g 3) (draw g 4) (draw g 5))
              (growLeaf N) (growLeaf_eq N) N (replicate N blank) g)
    as (Hrng & _).
  exact Hrng.
Qed.

(** Whatever is drawn in [[0, 1)]: a leaf is turned by an angle between 0
    and [PI] about each axis and scaled by a factor between [0.5] and 2;
    an ornament is not turned and is scaled by a factor between 1 and 2; a
    gift box is turned by the three numbers drawn for it, in [[0, 1)], and
    scaled by a factor between [0.8] and [1.8], and [boxColors] holds
    three channels of a colour of the palette for each box.  The ranges of
    what is computed from a draw are closed: a draw next to 1 is rounded
    to their upper end.  The loops draw 6, 4 and 7 numbers a round. *)
Theorem instances_turned_and_scaled (N : nat) (g : Rng) :
  unit_draws g ->
  ((populateTree N g).2 = mkRng (draws g) (6 * N + cursor g) /\
   forall i inst, (populateTree N g).1 !! i = Some inst ->
     0 <= x (rotation inst) <= PI /\ 0 <= y (rotation inst) <= PI /\
     0 <= z (rotation inst) <= PI /\
     0.5 <= scale inst <= 2) /\
  (exists o, populateOrnaments N g
             = (Some o, mkRng (draws g) (4 * N + cursor g)) /\
     forall i inst, ornaments o !! i = Some inst ->
       rotation inst = mkVector3 0 0 0 /\ 1 <= scale inst <= 2) /\
  (exists bx picked, populateBoxes N g
             = (Some bx, mkRng (draws g) (7 * N + cursor g)) /\
     (forall i inst, boxes bx !! i = Some inst ->
        0 <= x (rotation inst) < 1 /\ 0 <= y (rotation inst) < 1 /\
        0 <= z (rotation inst) < 1 /\
        0.8 <= scale inst <= 1.8) /\
     length picked = N /\
     Forall (fun color => In color colorPalette) picked /\
     boxColors bx
     = concat (map (fun color => [r color; Sampler.g color; b color])
                   picked)).
Proof.
  intros Hg. split; [|split].
  - split; [apply populateTree_rng|].
    intros i inst Hslot.
    assert (Hi : (i < N)%nat).
    { apply lookup_lt_Some in Hslot. now rewrite populateTree_length in Hslot. }
    rewrite (populateTree_slot N i g Hi) in Hslot.
    apply (inj Some) in Hslot. subst inst.
    destruct (unit_draw g (6 * i + 2) Hg) as [Ha0 Ha1].
    destruct (unit_draw g (6 * i + 3) Hg) as [Hb0 Hb1].
    destruct (unit_draw g (6 * i + 4) Hg) as [Hc0 Hc1].
    destruct (unit_draw g (6 * i + 5) Hg) as [Hd0 Hd1].
    pose proof PI_RGT_0 as Hpi.
    cbn [leafAt rotation scale x y z]. repeat split; nra.
  - unfold populateOrnaments.
    destruct (populateOrnaments_loop N
                (mkOrnaments (replicate N blank) [] (replicate (N * 3) 0))
                g Hg) as (o & Hrun & Hlen & _ & Hslot & _).
    cbn [ornaments] in Hlen, Hslot. rewrite length_replicate in Hlen, Hslot.
    exists o. split; [exact Hrun|].
    intros i inst Hi.
    assert (Hlt : (i < N)%nat) by (apply lookup_lt_Some in Hi; lia).
    rewrite (Hslot i Hlt Hlt) in Hi. apply (inj Some) in Hi. subst inst.
    destruct (unit_draw g (4 * i + 2) Hg) as [H0 H1].
    cbn [ornamentAt rotation scale]. split; [reflexivity|]. lra.
  - unfold populateBoxes.
    destruct (populateBoxes_loop N (mkBoxes (replicate N blank) []) g Hg)
      as (bx & Hrun & Hlen & Hslot).
    destruct (populateBoxes_colors N (mkBoxes (replicate N blank) []) g Hg)
      as (bx' & picked & Hrun' & Hpl & Hpal & Hcol).
    rewrite Hrun in Hrun'. cbn [fst] in Hrun'. injection Hrun' as <-.
    cbn [boxes boxColors app] in Hlen, Hslot, Hcol.
    rewrite length_replicate in Hlen, Hslot.
    exists bx, picked. split; [exact Hrun|].
    split; [|split; [exact Hpl|split; [exact Hpal|exact Hcol]]].
    intros i inst Hi.
    assert (Hlt : (i < N)%nat) by (apply lookup_lt_Some in Hi; lia).
    rewrite (Hslot i Hlt Hlt) in Hi. apply (inj Some) in Hi. subst inst.
    destruct (unit_draw g (7 * i + 2) Hg) as [Ha0 Ha1].
    destruct (unit_draw g (7 * i + 3) Hg) as [Hb0 Hb1].
    destruct (unit_draw g (7 * i + 4) Hg) as [Hc0 Hc1].
    destruct (unit_draw g (7 * i + 5) Hg) as [Hd0 Hd1].
    cbn [boxAt rotation scale x y z]. repeat split; lra.
Qed.

(** The theorem at the 400 ornaments, every draw being [1/2]: the loop
    has drawn 1600 numbers. *)
Lemma instances_turned_and_scaled_witness :
  unit_draws g_half /\
  exists o, populateOrnaments ornamentCount g_half
            = (Some o, mkRng (draws g_half) 1600).
Proof.
  split; [exact g_half_unit_draws|].
  destruct (instances_turned_and_scaled ornamentCount g_half
              g_half_unit_draws) as (_ & (o & Hrun & _) & _).
  exists o. exact Hrun.
Defined.

End SamplerMore.

(** ** The random offsets, the outline of the star and the snow *)

Module GeometryFacts.
Import Sampler SamplerFacts Shader Geometry.
Local Open Scope R_scope.

Lemma addOffset_eq (i : nat) (offsets : list R) (g : Rng) :
  addOffset i offsets g =
  (let theta := draw g 0 * PI * 2 in
   let phi := acos (2 * draw g 1 - 1) in
   <[(i * 3 + 2)%nat := cos phi]>
     (<[(i * 3 + 1)%nat := sin phi * sin theta]>
        (<[(i * 3)%nat := sin phi * cos theta]> offsets)),
   mkRng (draws g) (2 + cursor g)).
Proof. reflexivity. Qed.

(** The offsets the loop has stored after [n] rounds. *)
Lemma addRandomOffsets_loop (n : nat) (arr : list R) (g : Rng) :
  (for_up n addOffset arr g).2 = mkRng (draws g) (2 * n + cursor g) /\
  length (for_up n addOffset arr g).1 = length arr /\
  (forall j, (j < n)%nat -> (j * 3 + 2 < length arr)%nat ->
     let theta := draw g (2 * j) * PI * 2 in
     let phi := acos (2 * draw g (2 * j + 1) - 1) in
     (for_up n addOffset arr g).1 !! (j * 3)%nat
       = Some (sin phi * cos theta) /\
     (for_up n addOffset arr g).1 !! (j * 3 + 1)%nat
       = Some (sin phi * sin theta) /\
     (for_up n addOffset arr g).1 !! (j * 3 + 2)%nat = Some (cos phi)).
Proof.
  induction n as [|n IH].
  - cbn [for_up]. unfold retG. cbn [fst snd].
    split; [destruct g; reflexivity|]. split; [reflexivity|].
    intros j Hj. lia.
  - destruct IH as (Hrng & Hlen & Hslot).
    rewrite for_up_S, addOffset_eq. cbv zeta. cbn [fst snd].
    rewrite !length_insert, Hrng. cbn [draws cursor].
    split; [f_equal; lia|]. split; [exact Hlen|].
    intros j Hj Hin. destruct (decide (j = n)) as [->|Hne].
    + rewrite !draw_shift, Nat.add_0_r.
      split; [|split].
      * rewrite !list_lookup_insert_ne by lia.
        apply list_lookup_insert_eq. lia.
      * rewrite list_lookup_insert_ne by lia.
        apply list_lookup_insert_eq. rewrite length_insert. lia.
      * apply list_lookup_insert_eq. rewrite !length_insert. lia.
    + rewrite !list_lookup_insert_ne by lia. apply Hslot; lia.
Qed.

Lemma unit_sphere (phi theta : R) :
  (sin phi * cos theta) * (sin phi * cos theta)
  + (sin phi * sin theta) * (sin phi * sin theta)
  + cos phi * cos phi = 1.
Proof.
  pose proof (sin2_cos2 phi) as Hp. pose proof (sin2_cos2 theta) as Ht.
  unfold Rsqr in Hp, Ht. nra.
Qed.

(** [addRandomOffsets(geometry, count)] draws two numbers an instance and
    gives each of the [count] instances an offset on the unit sphere,
    whose third coordinate is twice the second draw minus 1.  So the
    vertex shader moves every vertex of an instance away from where it
    belongs by exactly 20 times the displacement factor. *)
Theorem random_offsets_on_sphere (count : nat) (g : Rng) :
  unit_draws g ->
  let offsets := (addRandomOffsets count g).1 in
  (addRandomOffsets count g).2 = mkRng (draws g) (2 * count + cursor g) /\
  length offsets = (count * 3)%nat /\
  forall i, (i < count)%nat ->
    exists ox oy oz,
      offsets !! (i * 3)%nat = Some ox /\
      offsets !! (i * 3 + 1)%nat = Some oy /\
      offsets !! (i * 3 + 2)%nat = Some oz /\
      ox * ox + oy * oy + oz * oz = 1 /\
      oz = 2 * draw g (2 * i + 1) - 1 /\
      forall tx ty tz u,
        sqrt ((displace tx ox u - tx) * (displace tx ox u - tx)
              + (displace ty oy u - ty) * (displace ty oy u - ty)
              + (displace tz oz u - tz) * (displace tz oz u - tz))
        = 20 * explodeFactor u.
Proof.
  intros Hg offsets. unfold offsets, addRandomOffsets.
  destruct (addRandomOffsets_loop count (replicate (count * 3) 0) g)
    as (Hrng & Hlen & Hslot).
  rewrite length_replicate in Hlen, Hslot.
  split; [exact Hrng|]. split; [exact Hlen|].
  intros i Hi. destruct (Hslot i Hi ltac:(lia)) as (Hx & Hy & Hz).
  cbv zeta in Hx, Hy, Hz.
  destruct (unit_draw g (2 * i + 1) Hg) as [H0 H1].
  eexists _, _, _. split; [exact Hx|]. split; [exact Hy|].
  split; [exact Hz|].
  set (phi := acos (2 * draw g (2 * i + 1) - 1)).
  set (theta := draw g (2 * i) * PI * 2).
  pose proof (unit_sphere phi theta) as Hunit.
  split; [exact Hunit|]. split; [apply cos_acos; lra|].
  intros tx ty tz u. unfold displace.
  destruct (ShaderMore.explodeFactor_bounds u) as [He0 _].
  set (f := explodeFactor u) in *.
  replace ((tx + sin phi * cos theta * f * 20 - tx)
           * (tx + sin phi * cos theta * f * 20 - tx)
           + (ty + sin phi * sin theta * f * 20 - ty)
             * (ty + sin phi * sin theta * f * 20 - ty)
           + (tz + cos phi * f * 20 - tz) * (tz + cos phi * f * 20 - tz))
    with ((20 * f) * (20 * f)
          * ((sin phi * cos theta) * (sin phi * cos theta)
             + (sin phi * sin theta) * (sin phi * sin theta)
             + cos phi * cos phi)) by ring.
  rewrite Hunit, Rmult_1_r. apply sqrt_square. lra.
Qed.

(** The theorem at the 3000 leaves, every draw being [1/2]: the offset of
    leaf 75 has no third coordinate. *)
Lemma random_offsets_on_sphere_witness :
  unit_draws g_half /\
  (addRandomOffsets leafCount g_half).1 !! 227%nat = Some 0.
Proof.
  split; [exact g_half_unit_draws|].
  destruct (random_offsets_on_sphere leafCount g_half g_half_unit_draws)
    as (_ & _ & H).
  destruct (H 75%nat) as (ox & oy & oz & _ & _ & Hz & _ & Hoz & _);
    [unfold leafCount; lia|].
  change (75 * 3 + 2)%nat with 227%nat in Hz. rewrite Hz. f_equal.
  rewrite Hoz. unfold draw. cbn [g_half draws]. lra.
Defined.

(** *** The snow *)

Lemma placeSnowflake_eq (i : nat) (posArray : list R) (g : Rng) :
  placeSnowflake i posArray g =
  (<[i := (draw g 0 - 0.5) * 50]> posArray, mkRng (draws g) (1 + cursor g)).
Proof. reflexivity. Qed.

(** The loop of [rebuildSnowflakes(count)] draws three numbers a flake and
    leaves in [posArray] the [count * 3] coordinates of the flakes, each
    between -25 and 25: coordinate [k] is 50 times the number the loop
    drew in round [k], less 25.  The range is closed: the array rounds a
    coordinate next to 25 to 25. *)
Theorem snowflakes_in_cube (count : nat) (g : Rng) :
  unit_draws g ->
  (posArray count g).2 = mkRng (draws g) (count * 3 + cursor g) /\
  length (posArray count g).1 = (count * 3)%nat /\
  forall k p, (posArray count g).1 !! k = Some p ->
    p = (draw g k - 0.5) * 50 /\ -25 <= p <= 25.
Proof.
  intros Hg. unfold posArray.
  destruct (for_up_insert 1 (fun (i : nat) g => (draw g 0 - 0.5) * 50)
              placeSnowflake placeSnowflake_eq (count * 3)
              (replicate (count * 3) 0) g) as (Hrng & Hlen & Hslot).
  rewrite length_replicate in Hlen, Hslot.
  split; [rewrite Hrng; f_equal; lia|]. split; [exact Hlen|].
  intros k p Hk.
  assert (Hlt : (k < count * 3)%nat).
  { apply lookup_lt_Some in Hk. now rewrite Hlen in Hk. }
  rewrite (Hslot k Hlt Hlt) in Hk. apply (inj Some) in Hk. subst p.
  rewrite draw_shift, Nat.add_0_r.
  replace (1 * k)%nat with k by lia.
  destruct (unit_draw g k Hg) as [H0 H1].
  split; [reflexivity|]. lra.
Qed.

(** The theorem at 1400 flakes, every draw being [1/2]: the loop leaves
    4200 coordinates. *)
Lemma snowflakes_in_cube_witness :
  unit_draws g_half /\
  length (posArray 1400 g_half).1 = 4200%nat.
Proof.
  split; [exact g_half_unit_draws|].
  destruct (snowflakes_in_cube 1400 g_half g_half_unit_draws)
    as (_ & Hlen & _).
  exact Hlen.
Defined.

(** *** The outline of the star *)

Lemma starShape_eq (outer inner : R) :
  starShape outer inner =
  moveTo (starVertex outer inner 0).1 (starVertex outer inner 0).2
  :: map (fun i => lineTo (starVertex outer inner i).1
                          (starVertex outer inner i).2)
         (seq 1 9).
Proof. reflexivity. Qed.

Lemma starVertex_polar (outer inner : R) (i : nat) :
  starVertex outer inner i =
  (sin (INR i * (PI / 5))
   * (if (i mod 2 =? 0)%nat then outer else inner),
   - cos (INR i * (PI / 5))
   * (if (i mod 2 =? 0)%nat then outer else inner)).
Proof.
  unfold starVertex. cbv zeta.
  replace (INR i / 10 * (PI * 2)) with (INR i * (PI / 5)) by field.
  rewrite cos_minus, sin_minus, cos_PI2, sin_PI2.
  f_equal; ring.
Qed.

(** The outline of the star is one [moveTo] followed by nine [lineTo].
    Its vertex [i] is at [i] tenths of a turn from the downward direction
    of the shape, at the outer radius when [i] is even and at the inner
    radius when it is odd: the first vertex, a tip, is straight below the
    centre, the sixth, a notch, straight above it, and the outline is its
    own mirror image in the vertical axis. *)
Theorem star_outline (outerRadius innerRadius : R) :
  let vertex i := starVertex outerRadius innerRadius i in
  let radius (i : nat) :=
    if (i mod 2 =? 0)%nat then outerRadius else innerRadius in
  length (starShape outerRadius innerRadius) = 10%nat /\
  starShape outerRadius innerRadius !! 0%nat
    = Some (moveTo 0 (- outerRadius)) /\
  (forall i, (1 <= i < 10)%nat ->
     starShape outerRadius innerRadius !! i
       = Some (lineTo (vertex i).1 (vertex i).2)) /\
  (forall i,
     vertex i = (sin (INR i * (PI / 5)) * radius i,
                 - cos (INR i * (PI / 5)) * radius i) /\
     (vertex i).1 * (vertex i).1 + (vertex i).2 * (vertex i).2
       = radius i * radius i) /\
  vertex 5%nat = (0, innerRadius) /\
  (forall i, (i <= 10)%nat ->
     (vertex (10 - i)%nat).1 = - (vertex i).1 /\
     (vertex (10 - i)%nat).2 = (vertex i).2).
Proof.
  intros vertex radius.
  split; [reflexivity|]. split; [|split; [|split; [|split]]].
  - rewrite starShape_eq. cbn [lookup list_lookup].
    rewrite starVertex_polar.
    change ((0 mod 2 =? 0)%nat) with true. cbn [fst snd INR].
    rewrite Rmult_0_l, sin_0, cos_0. f_equal. f_equal; ring.
  - intros i Hi.
    do 10 (destruct i as [|i]; [first [lia|reflexivity]|]). lia.
  - intros i. unfold vertex. rewrite starVertex_polar. fold (radius i).
    split; [reflexivity|]. cbn [fst snd].
    pose proof (sin2_cos2 (INR i * (PI / 5))) as H. unfold Rsqr in H. nra.
  - unfold vertex. rewrite starVertex_polar.
    change ((5 mod 2 =? 0)%nat) with false. cbn [fst snd].
    replace (INR 5 * (PI / 5)) with PI by (simpl; field).
    rewrite sin_PI, cos_PI. f_equal; ring.
  - intros i Hi. unfold vertex. rewrite !starVertex_polar. cbn [fst snd].
    assert (Hpar : ((10 - i) mod 2 =? 0)%nat = (i mod 2 =? 0)%nat).
    { do 11 (destruct i as [|i]; [reflexivity|]). lia. }
    rewrite Hpar, minus_INR by exact Hi.
    replace ((INR 10 - INR i) * (PI / 5)) with (2 * PI - INR i * (PI / 5))
      by (simpl; field).
    rewrite sin_minus, cos_minus, sin_2PI, cos_2PI. split; ring.
Qed.

(** The outline of the star of the script, [createStarGeometry(0.8, 0.4,
    0.3)]: its fourth vertex is the mirror image of its eighth. *)
Lemma star_outline_witness :
  (starVertex 0.8 0.4 7).1 = - (starVertex 0.8 0.4 3).1 /\
  starShape 0.8 0.4 !! 0%nat = Some (moveTo 0 (- (0.8))).
Proof.
  destruct (star_outline 0.8 0.4) as (_ & H0 & _ & _ & _ & Hsym).
  split; [|exact H0].
  destruct (Hsym 3%nat) as [Hx _]; [lia|]. exact Hx.
Defined.

End GeometryFacts.

(** ** The star from its first position to the top of the tree *)

Module StarFacts.
Import Random Assembly AssemblyFacts AssemblyMore StarStart.
Local Open Scope Q_scope.

(** In every frame the star is at its final position plus the fraction
    [(1 - progress)^2] of its offset. *)
Lemma star_position (off : Vector3) (n : nat) :
  let rest := (1 - uProgress (run off n)) ^ 2 in
  vx (starPosition (run off n)) == vx starFinalPosition + vx off * rest /\
  vy (starPosition (run off n)) == vy starFinalPosition + vy off * rest /\
  vz (starPosition (run off n)) == vz starFinalPosition + vz off * rest.
Proof.
  cbv zeta. destruct (le_lt_dec 86 n) as [Hge|Hlt].
  - rewrite run_from_86 by exact Hge. rewrite run_86.
    cbn [starPosition uProgress]. repeat split; ring.
  - destruct n as [|n].
    + cbn. repeat split; ring.
    + destruct (run_S_below off n ltac:(lia)) as (_ & _ & Hs).
      rewrite Hs. cbn [lerpVectors add vx vy vz]. repeat split; ring.
Qed.

Lemma progress_range (off : Vector3) (n : nat) :
  0 <= uProgress (run off n) /\ uProgress (run off n) <= 1.
Proof. destruct (run_inv off n) as (H0 & H1 & _). split; assumption. Qed.

(** The star starts in the box the script draws its offset from, at the
    height of its final position or above; in every frame it is between
    its final height and the height it started at, and it never rises. *)
Theorem star_comes_down (g : Fireworks.Rng) :
  Fireworks.unit_draws g ->
  let off := (starRandomOffset g).1 in
  (starRandomOffset g).2 = mkRng (draws g) (3 + cursor g) /\
  -15 <= vx off /\ vx off < 15 /\
  0 <= vy off /\ vy off < 30 /\
  -15 <= vz off /\ vz off < 15 /\
  forall n,
    vy starFinalPosition <= vy (starPosition (run off n)) /\
    vy (starPosition (run off n)) <= vy starFinalPosition + vy off /\
    vy (starPosition (run off (S n))) <= vy (starPosition (run off n)).
Proof.
  intros Hg off.
  destruct (Hg (cursor g)) as [Ha0 Ha1].
  destruct (Hg (S (cursor g))) as [Hb0 Hb1].
  destruct (Hg (S (S (cursor g)))) as [Hc0 Hc1].
  assert (Hy0 : 0 <= vy off) by (cbn; lra).
  split; [reflexivity|].
  split; [cbn; lra|]. split; [cbn; lra|].
  split; [exact Hy0|]. split; [cbn; lra|].
  split; [cbn; lra|]. split; [cbn; lra|].
  intros n.
  destruct (star_position off n) as (_ & Hn & _).
  destruct (star_position off (S n)) as (_ & HSn & _).
  destruct (progress_range off n) as [Hp0 Hp1].
  destruct (progress_range off (S n)) as [Hq0 Hq1].
  pose proof (run_monotone off n) as Hmono.
  cbv zeta in Hn, HSn. rewrite Hn, HSn.
  set (p := uProgress (run off n)) in *.
  set (q := uProgress (run off (S n))) in *.
  set (h := vy off) in *.
  assert (Hrp : (1 - p) ^ 2 == (1 - p) * (1 - p)) by (cbn; ring).
  assert (Hrq : (1 - q) ^ 2 == (1 - q) * (1 - q)) by (cbn; ring).
  rewrite Hrp, Hrq.
  set (a := (1 - p) * (1 - p)). set (b := (1 - q) * (1 - q)).
  assert (Hb0' : 0 <= b) by (unfold b; nra).
  assert (Hba : b <= a) by (unfold a, b; nra).
  assert (Ha1' : a <= 1) by (unfold a; nra).
  generalize (vy starFinalPosition). intros f.
  repeat split; nra.
Qed.

(** The theorem when every draw is [1/2]: the star starts 15 above its
    final position and is there again, or lower, 40 frames later. *)
Lemma star_comes_down_witness :
  Fireworks.unit_draws Fireworks.g_half /\
  vy (starRandomOffset Fireworks.g_half).1 == 15 /\
  vy (starPosition (run (starRandomOffset Fireworks.g_half).1 40))
  <= vy starFinalPosition + vy (starRandomOffset Fireworks.g_half).1.
Proof.
  split; [exact FireworksFacts.half_draws_in_range|].
  split; [reflexivity|].
  destruct (star_comes_down Fireworks.g_half
              FireworksFacts.half_draws_in_range)
    as (_ & _ & _ & _ & _ & _ & _ & H).
  destruct (H 40%nat) as (_ & Hle & _). exact Hle.
Defined.

End StarFacts.

(** ** The displacement of the tree over the frames *)

Module AssemblyShader.
Import Assembly AssemblyFacts AssemblyMore Shader ShaderMore.
Local Open Scope R_scope.

(** The progress the frames of the assembly give the shader makes the
    displacement factor fall from 1, before the first frame, to 0, from
    the 86th frame on, never rising on the way: every vertex of the tree
    starts 20 times its offset away, only comes closer and is in its place
    from the 86th frame on. *)
Theorem tree_closes_in (starRandomOffset : Vector3) :
  let progress n := Q2R (uProgress (run starRandomOffset n)) in
  (forall transformed aRandomOffset,
     displace transformed aRandomOffset (progress 0%nat)
     = transformed + aRandomOffset * 20) /\
  (forall n m, (n <= m)%nat ->
     explodeFactor (progress m) <= explodeFactor (progress n)) /\
  (forall n transformed aRandomOffset, (86 <= n)%nat ->
     displace transformed aRandomOffset (progress n) = transformed).
Proof.
  intros progress. split; [|split].
  - intros t o. unfold displace, progress.
    rewrite explodeFactor_below; [lra|].
    change (uProgress (run starRandomOffset 0)) with 0%Q.
    rewrite RMicromega.Q2R_0. lra.
  - intros n m Hnm.
    apply explodeFactor_antitone. unfold progress. apply Qle_Rle.
    now apply run_monotone_le.
  - intros n t o Hn. unfold displace, progress.
    rewrite run_from_86 by exact Hn. rewrite run_86. cbn [uProgress].
    rewrite explodeFactor_above; [lra|].
    rewrite RMicromega.Q2R_1. lra.
Qed.

Lemma tree_closes_in_witness :
  displace 3 (1 / 2) (Q2R (uProgress (run (mkVector3 3 20 (-7)) 100))) = 3.
Proof.
  destruct (tree_closes_in (mkVector3 3 20 (-7))) as (_ & _ & H).
  apply (H 100%nat). lia.
Defined.

End AssemblyShader.

(** ** The clock-driven part of [animate] *)

Module SceneFacts.
Import Sampler SamplerFacts Scene.
Local Open Scope R_scope.

(** For a time that is not negative, [-time % 10] is [-time] plus 10 times
    the number of whole periods of 10 in [time]. *)
Lemma remainder_neg (time : R) :
  0 <= time ->
  remainder (- time) 10 = - time + 10 * IZR (Int_part (time / 10)).
Proof.
  intros Ht. unfold remainder, truncate.
  destruct (Rle_dec 0 (- time / 10)) as [Hq|Hq].
  - assert (H0 : time = 0) by lra. subst time.
    replace (- 0 / 10) with 0 by field. replace (0 / 10) with 0 by field.
    assert (Hz : Int_part 0 = 0%Z) by (symmetry; apply Int_part_spec; lra).
    rewrite Hz. lra.
  - replace (- (- time / 10)) with (time / 10) by field.
    rewrite opp_IZR. lra.
Qed.

Lemma Int_part_succ (r : R) : Int_part (r + 1) = (Int_part r + 1)%Z.
Proof.
  symmetry. apply Int_part_spec.
  destruct (base_Int_part r) as [H0 H1]. rewrite plus_IZR. lra.
Qed.

(** Whatever the time and the speed of the lights: the light of the star
    has an intensity between 1 and 3, the star tilts by at most [0.1],
    and the two lights stay on the cylinder of radius 6 around the axis of
    the tree, between the heights 0 and 12.  From time 0 on the snow is
    lowered by the time, less the whole periods of 10 in it: it is at most
    10 below its place and jumps back every 10 units of time. *)
Theorem scene_within_bounds (time lightSpeed : R) :
  let p := animate time lightSpeed in
  1 <= starLightIntensity p <= 3 /\
  -0.1 <= starRotationZ p <= 0.1 /\
  radial (light1 p) = 6 /\ 0 <= y (light1 p) <= 12 /\
  radial (light2 p) = 6 /\ 0 <= y (light2 p) <= 12 /\
  (0 <= time ->
   particlesY p = - time + 10 * IZR (Int_part (time / 10)) /\
   -10 < particlesY p <= 0 /\
   particlesY (animate (time + 10) lightSpeed) = particlesY p).
Proof.
  intros p. unfold p, animate. cbv zeta.
  cbn [starLightIntensity starRotationZ light1 light2 particlesY y].
  pose proof (SIN_bound (time * 5)) as H5.
  pose proof (SIN_bound time) as H1.
  pose proof (SIN_bound (time * 0.5 * lightSpeed)) as Hs.
  pose proof (COS_bound (time * 0.5 * lightSpeed)) as Hc.
  split; [lra|]. split; [lra|].
  split; [apply radial_polar; lra|]. split; [lra|].
  split; [|split; [lra|]].
  - unfold radial. cbn [x z].
    pose proof (sin2_cos2 (time * 0.8 * lightSpeed)) as H. unfold Rsqr in H.
    replace (sin (time * 0.8 * lightSpeed) * 6
             * (sin (time * 0.8 * lightSpeed) * 6)
             + cos (time * 0.8 * lightSpeed) * 6
               * (cos (time * 0.8 * lightSpeed) * 6))
      with (6 * 6) by nra.
    apply sqrt_square. lra.
  - intros Ht. rewrite !remainder_neg by lra.
    destruct (base_Int_part (time / 10)) as [Hk0 Hk1].
    split; [reflexivity|]. split; [lra|].
    replace ((time + 10) / 10) with (time / 10 + 1) by field.
    rewrite Int_part_succ, plus_IZR. lra.
Qed.

(** The theorem 25 units of time after the start: the snow is 5 below its
    place. *)
Lemma scene_within_bounds_witness :
  particlesY (animate 25 1) = -5.
Proof.
  destruct (scene_within_bounds 25 1) as (_ & _ & _ & _ & _ & _ & H).
  destruct (H ltac:(lra)) as (Hy & _). rewrite Hy.
  assert (Hk : Int_part (25 / 10) = 2%Z).
  { symmetry. apply Int_part_spec. lra. }
  rewrite Hk. lra.
Defined.

(** A pointer inside the window gives the ray caster coordinates between
    -1 and 1; the top left corner of the window is [(-1, 1)]: the second
    coordinate grows upwards. *)
Theorem pointer_in_device_range (clientX clientY innerWidth innerHeight : R) :
  0 < innerWidth -> 0 < innerHeight ->
  0 <= clientX <= innerWidth -> 0 <= clientY <= innerHeight ->
  let mouse := mousemove clientX clientY innerWidth innerHeight in
  -1 <= mouse.1 <= 1 /\ -1 <= mouse.2 <= 1 /\
  mousemove 0 0 innerWidth innerHeight = (-1, 1) /\
  mousemove innerWidth innerHeight innerWidth innerHeight = (1, -1).
Proof.
  intros Hw Hh Hx Hy mouse. unfold mouse, mousemove. cbn [fst snd].
  assert (Hratio : forall a b, 0 < b -> 0 <= a <= b -> 0 <= a / b <= 1).
  { intros a b Hb Ha.
    assert (Hab : a = a / b * b) by (field; lra).
    revert Hab. generalize (a / b). intros q Hq. split; nra. }
  pose proof (Hratio _ _ Hw Hx) as Hqx.
  pose proof (Hratio _ _ Hh Hy) as Hqy.
  split; [lra|]. split; [lra|].
  split; f_equal; field; lra.
Qed.

Lemma pointer_in_device_range_witness :
  mousemove 0 0 1920 1080 = (-1, 1).
Proof.
  apply (pointer_in_device_range 960 540 1920 1080); lra.
Defined.

End SceneFacts.

(** ** The control panel *)

Module SettingsFacts.
Import Settings.
Local Open Scope Q_scope.

Lemma run_last_event (events : list Event) (ev : Event) :
  run (events ++ [ev]) = handle (run events) ev.
Proof. unfold run. now rewrite fold_left_app. Qed.

Lemma handle_bokeh (s : State) (ev : Event) :
  bokeh_in_step s -> bokeh_in_step (handle s ev).
Proof.
  intros (Hf & Ha & Hm & Hr).
  destruct ev as [|c v]; [|destruct c]; cbn; repeat split; assumption.
Qed.

Lemma handle_bloom (s : State) (ev : Event) :
  bloom_in_step s \/ ev = reset -> bloom_in_step (handle s ev).
Proof.
  intros [(Hs & Hr & Ht)| ->]; [|cbn; repeat split].
  destruct ev as [|c v]; [|destruct c]; cbn; repeat split; assumption.
Qed.

Lemma handle_snow (s : State) (c : Controller) (v : Q) :
  snow_in_step s -> snow_in_step (handle s (change c v)).
Proof.
  intros (Hs & Hc). destruct c; cbn; repeat split; assumption.
Qed.

(** Whatever the user does on the panel, the bokeh pass and the rotation
    of the camera have the values the panel shows.  The bloom pass has
    them once the reset button has been pressed, and does not have them
    when the script starts: it starts with a strength of [0.8] under a
    panel that shows [0.9].  The snow has the size and the number of
    flakes the panel shows as long as the reset button has not been
    pressed: the button puts the panel back to [0.25] and 1400 and leaves
    the snow as it is. *)
Theorem panel_and_scene_in_step (events : list Event) :
  bokeh_in_step (run events) /\
  (In reset events -> bloom_in_step (run events)) /\
  (~ In reset events -> snow_in_step (run events)) /\
  ~ bloomPass_strength (run []) == bloomStrength (params (run [])) /\
  (forall v,
     particlesMaterial_size (handle (run events) reset)
       = particlesMaterial_size (run events) /\
     snowflakes (handle (run events) reset) = snowflakes (run events) /\
     snowflakes (run (events ++ [change c_snowflakeCount v; reset]))
       = Qfloor v /\
     snowflakeCount
       (params (run (events ++ [change c_snowflakeCount v; reset])))
       = 1400).
Proof.
  split; [|split; [|split; [|split]]].
  - induction events as [|ev events IH] using rev_ind.
    + cbn. repeat split.
    + rewrite run_last_event. now apply handle_bokeh.
  - induction events as [|ev events IH] using rev_ind; [intros []|].
    intros Hin. rewrite run_last_event. apply handle_bloom.
    apply in_app_or in Hin. destruct Hin as [Hin|[<-|[]]].
    + left. now apply IH.
    + now right.
  - induction events as [|ev events IH] using rev_ind.
    + intros _. cbn. repeat split.
    + intros Hno. rewrite run_last_event.
      destruct ev as [|c v].
      * exfalso. apply Hno. apply in_or_app. right. now left.
      * apply handle_snow. apply IH. intros Hin. apply Hno.
        apply in_or_app. now left.
  - cbn. discriminate.
  - intros v. split; [reflexivity|]. split; [reflexivity|].
    replace (events ++ [change c_snowflakeCount v; reset])
      with ((events ++ [change c_snowflakeCount v]) ++ [reset])
      by (now rewrite <- app_assoc).
    rewrite !run_last_event. split; reflexivity.
Qed.

(** The panel after the user has asked for 3000 flakes and then pressed
    the reset button: it shows 1400 flakes over a snow of 3000. *)
Lemma panel_and_scene_in_step_witness :
  bloom_in_step (run [change c_snowflakeCount 3000; reset]) /\
  snowflakes (run [change c_snowflakeCount 3000; reset]) = 3000%Z /\
  snowflakeCount (params (run [change c_snowflakeCount 3000; reset])) = 1400.
Proof.
  destruct (panel_and_scene_in_step [change c_snowflakeCount 3000; reset])
    as (_ & Hbloom & _).
  split; [apply Hbloom; cbn; tauto|]. split; reflexivity.
Defined.

End SettingsFacts.

